(** * The artifact acquisition pipeline of [packages/eas-shared/src/download.ts]

    A shallow embedding of the download / cache / extract / locate pipeline:
    strings are byte strings (the UTF-8 form of the JavaScript string, on
    which the scheme regex, [endsWith] and [encodeURIComponent] act exactly
    as on the UTF-16 form of a well-formed string), paths are lists of
    segments, the disk is a directory tree, and the asynchronous functions
    are computations in a state-and-exception monad over a [World] that
    holds the disk and the trace of externally visible events. *)

From Stdlib Require Import String Ascii List ZArith QArith Bool Lia Arith.
Import ListNotations.
Close Scope Q_scope.
Set Warnings "-register-all".
Open Scope string_scope.
Open Scope list_scope.

(* ================================================================== *)
(** ** Strings *)

(** [String.prototype.endsWith]. *)
Fixpoint endsWith (s suffix : string) : bool :=
  String.eqb s suffix ||
  match s with
  | EmptyString => false
  | String _ r => endsWith r suffix
  end.

(** [s.startsWith(p)], giving the remainder after [p]. *)
Fixpoint dropPrefix (p s : string) : option string :=
  match p with
  | EmptyString => Some s
  | String a p' =>
      match s with
      | String b s' => if Ascii.eqb a b then dropPrefix p' s' else None
      | EmptyString => None
      end
  end.

(** The greedy run [[^:]+] at the start of the string: how many characters
    it takes, and what follows it. *)
Fixpoint skipNonColon (s : string) : nat * string :=
  match s with
  | EmptyString => (O, EmptyString)
  | String c r =>
      if Ascii.eqb c ":" then (O, s)
      else let '(n, t) := skipNonColon r in (S n, t)
  end.

(** [url.replace(/^[^:]+:\/\//, '')].  A character of the run is never a
    colon, so backtracking cannot find a match the greedy run misses. *)
Definition stripScheme (url : string) : string :=
  match skipNonColon url with
  | (S _, rest) =>
      match dropPrefix "://" rest with
      | Some r => r
      | None => url
      end
  | (O, _) => url
  end.

Definition inRange (lo hi : nat) (c : ascii) : bool :=
  let n := nat_of_ascii c in (lo <=? n)%nat && (n <=? hi)%nat.

Fixpoint memChar (c : ascii) (s : string) : bool :=
  match s with
  | EmptyString => false
  | String d r => Ascii.eqb c d || memChar c r
  end.

(** The characters [encodeURIComponent] leaves alone:
    [A-Z a-z 0-9 - _ . ! ~ * ' ( )]. *)
Definition uriUnreserved (c : ascii) : bool :=
  inRange 65 90 c || inRange 97 122 c || inRange 48 57 c
  || memChar c "-_.!~*'()".

Definition hexDigit (n : nat) : ascii :=
  match get n "0123456789ABCDEF" with
  | Some c => c
  | None => "0"%char
  end.

Definition percentEncode (c : ascii) : string :=
  let n := nat_of_ascii c in
  String "%" (String (hexDigit (n / 16)) (String (hexDigit (n mod 16)) "")).

Definition encodeChar (c : ascii) : string :=
  if uriUnreserved c then String c "" else percentEncode c.

(** [encodeURIComponent] on the UTF-8 bytes of a well-formed string. *)
Fixpoint encodeURIComponent (s : string) : string :=
  match s with
  | EmptyString => EmptyString
  | String c r => encodeChar c ++ encodeURIComponent r
  end.

(** The cache directory name of a URL (line 125). *)
Definition cacheName (url : string) : string :=
  encodeURIComponent (stripScheme url).

(* ================================================================== *)
(** ** Paths *)

(** A path is the list of its segments from the root, already normalised. *)
Definition fspath := list string.

(** [s.split(sep)]. *)
Fixpoint split (sep : ascii) (s : string) : list string :=
  match s with
  | EmptyString => [EmptyString]
  | String c r =>
      if Ascii.eqb c sep then EmptyString :: split sep r
      else match split sep r with
           | h :: t => String c h :: t
           | [] => [String c EmptyString]
           end
  end.

(** One segment of [path.normalize]: empty and ["."] segments vanish,
    [".."] climbs. *)
Definition joinSegment (p : fspath) (seg : string) : fspath :=
  if String.eqb seg "" || String.eqb seg "." then p
  else if String.eqb seg ".." then removelast p
  else p ++ [seg].

(** [path.join(p, s)] for a normalised absolute [p]. *)
Definition path_join (p : fspath) (s : string) : fspath :=
  fold_left joinSegment (split "/" s) p.

(** The string form of a path or of a relative path. *)
Definition renderRel (segs : list string) : string := String.concat "/" segs.
Definition path_to_string (p : fspath) : string := "/" ++ renderRel p.

(* ================================================================== *)
(** ** The disk *)

Inductive node : Type :=
| File (content : string)
| Dir (children : list (string * node)).

Fixpoint assoc {A : Type} (k : string) (l : list (string * A)) : option A :=
  match l with
  | [] => None
  | (k', v) :: t => if String.eqb k k' then Some v else assoc k t
  end.

(** Replace the entry named [k], or add it at the end. *)
Fixpoint setEntry {A : Type} (k : string) (v : A) (l : list (string * A))
  : list (string * A) :=
  match l with
  | [] => [(k, v)]
  | (k', v') :: t =>
      if String.eqb k k' then (k, v) :: t else (k', v') :: setEntry k v t
  end.

Fixpoint lookup (p : fspath) (n : node) : option node :=
  match p with
  | [] => Some n
  | s :: p' =>
      match n with
      | File _ => None
      | Dir cs =>
          match assoc s cs with
          | Some c => lookup p' c
          | None => None
          end
      end
  end.

(** [fs.pathExists]. *)
Definition pathExists (p : fspath) (n : node) : bool :=
  match lookup p n with Some _ => true | None => false end.

Definition isDir (p : fspath) (n : node) : bool :=
  match lookup p n with Some (Dir _) => true | _ => false end.

(** [fs.mkdirpSync(p)] and [fs.mkdir(p, {recursive: true})]: [None] when a
    regular file is in the way. *)
Fixpoint mkdirp (p : fspath) (n : node) : option node :=
  match n with
  | File _ => None
  | Dir cs =>
      match p with
      | [] => Some n
      | s :: p' =>
          match assoc s cs with
          | Some c =>
              match mkdirp p' c with
              | Some c' => Some (Dir (setEntry s c' cs))
              | None => None
              end
          | None =>
              match mkdirp p' (Dir []) with
              | Some c' => Some (Dir (cs ++ [(s, c')]))
              | None => None
              end
          end
      end
  end.

(** Opening [p] for writing with content [c] (flag [w]): the parent must be
    a directory and [p] itself must not be one. *)
Fixpoint writeFile (p : fspath) (c : string) (n : node) : option node :=
  match p with
  | [] => match n with File _ => Some (File c) | Dir _ => None end
  | s :: p' =>
      match n with
      | File _ => None
      | Dir cs =>
          match assoc s cs with
          | Some child =>
              match writeFile p' c child with
              | Some child' => Some (Dir (setEntry s child' cs))
              | None => None
              end
          | None =>
              match p' with
              | [] => Some (Dir (cs ++ [(s, File c)]))
              | _ :: _ => None
              end
          end
      end
  end.

(** [fs.remove(p)]: the entry and everything below it. *)
Fixpoint remove (p : fspath) (n : node) : node :=
  match p with
  | [] => Dir []
  | s :: p' =>
      match n with
      | File _ => n
      | Dir cs =>
          match p' with
          | [] => Dir (filter (fun kc => negb (String.eqb s (fst kc))) cs)
          | _ :: _ =>
              Dir (map (fun kc =>
                          if String.eqb s (fst kc)
                          then (fst kc, remove p' (snd kc)) else kc) cs)
          end
      end
  end.

(** Every entry below a directory, as a relative path, in directory order;
    entries whose name starts with a dot are skipped and not entered
    (fast-glob's default [dot: false]). *)
Fixpoint walk (n : node) : list (list string) :=
  match n with
  | File _ => []
  | Dir cs =>
      flat_map (fun kc =>
                  if prefix "." (fst kc) then []
                  else [fst kc] :: map (cons (fst kc)) (walk (snd kc))) cs
  end.

(** The last segment matches [*.(e1|...|en)]. *)
Definition matchesExt (exts : list string) (name : string) : bool :=
  negb (prefix "." name) && existsb (fun e => endsWith name ("." ++ e)) exts.

Definition baseName (rel : list string) : string := last rel "".

(** [glob('./**/*.(e1|...|en)', {cwd, onlyFiles: false})]: files and
    directories alike, at any depth below [cwd], as paths relative to
    [cwd].  Whether the library keeps the leading [./] of the pattern in
    its results makes no difference to [path.join], which drops it. *)
Definition glob (exts : list string) (cwd : fspath) (fs : node) : list string :=
  match lookup cwd fs with
  | Some d =>
      map renderRel (filter (fun rel => matchesExt exts (baseName rel)) (walk d))
  | None => []
  end.

(* ================================================================== *)
(** ** JavaScript numbers *)

(** The values a header can convert to.  Finite values are kept exact;
    byte counts stay far below 2^53, where doubles are exact too. *)
Inductive JsNum : Type :=
| NaN
| Inf (negative : bool)
| Fin (q : Q).

Definition isNaN (x : JsNum) : bool :=
  match x with NaN => true | _ => false end.

(** [x < 0]. *)
Definition ltZero (x : JsNum) : bool :=
  match x with
  | NaN => false
  | Inf negative => negative
  | Fin q => negb (Qle_bool 0 q)
  end.

(** [n === x] for an integer [n]. *)
Definition strictEq (n : Z) (x : JsNum) : bool :=
  match x with
  | Fin q => Qeq_bool (inject_Z n) q
  | _ => false
  end.

(** [n / x] for an integer [n]. *)
Definition divide (n : Z) (x : JsNum) : JsNum :=
  match x with
  | NaN => NaN
  | Inf _ => Fin 0
  | Fin q =>
      if Qeq_bool q 0
      then (if (n =? 0)%Z then NaN else Inf (n <? 0)%Z)
      else Fin (inject_Z n / q)
  end.

(* ================================================================== *)
(** ** Progress events and the throttle *)

Record Progress : Type :=
  { total : JsNum; percent : JsNum; transferred : Z }.

Record ProgressEvent : Type :=
  { progress : Progress; isComplete : bool }.

(** The variables the [onProgress] closure of [wrapFetchWithProgress]
    closes over: [lengthSoFar] is the local [length]. *)
Record ProgressState : Type :=
  { didProgressBarFinish : bool;
    lastProgressCallTime : Z;
    lengthSoFar : Z }.

Definition initialProgressState : ProgressState :=
  {| didProgressBarFinish := false;
     lastProgressCallTime := 0;
     lengthSoFar := 0 |}.

(** [onProgress(chunkLength)] (lines 48-70) when [Date.now()] returns
    [currentTime]: the new closure state and the event handed to the
    progress handler, if it is called. *)
Definition onProgress (total : JsNum) (chunkLength : option Z)
  (currentTime : Z) (st : ProgressState)
  : ProgressState * option ProgressEvent :=
  let length :=
    match chunkLength with
    | Some n => if (n =? 0)%Z then lengthSoFar st else (lengthSoFar st + n)%Z
    | None => lengthSoFar st
    end in
  let progress := divide length total in
  if negb (didProgressBarFinish st)
     && ((250 <=? currentTime - lastProgressCallTime st)%Z
         || strictEq length total)
  then
    ({| didProgressBarFinish := strictEq length total;
        lastProgressCallTime := currentTime;
        lengthSoFar := length |},
     Some {| progress :=
               {| total := total; percent := progress; transferred := length |};
             isComplete := strictEq length total |})
  else
    ({| didProgressBarFinish := didProgressBarFinish st;
        lastProgressCallTime := lastProgressCallTime st;
        lengthSoFar := length |},
     None).

(** The events a sequence of [onProgress] calls delivers, each with the
    clock reading of its call.  A call is the clock reading and the chunk
    length ([None] for the call of the [end] listener). *)
Fixpoint deliveries (total : JsNum) (calls : list (Z * option Z))
  (st : ProgressState) : list (Z * ProgressEvent) :=
  match calls with
  | [] => []
  | (t, chunkLength) :: rest =>
      match onProgress total chunkLength t st with
      | (st', Some e) => (t, e) :: deliveries total rest st'
      | (st', None) => deliveries total rest st'
      end
  end.

(** The calls a stream makes: one per chunk, then one at its end. *)
Definition streamCalls (chunks : list (Z * string)) (endTime : Z)
  : list (Z * option Z) :=
  map (fun tc => (fst tc, Some (Z.of_nat (String.length (snd tc))))) chunks
  ++ [(endTime, None)].

(* ================================================================== *)
(** ** Errors, events and the world *)

(** One candidate of [MultipleAppsInTarballErrorDetails.apps]. *)
Record AppCandidate : Type := { name : string; path : fspath }.

Record MultipleAppsInTarballErrorDetails : Type :=
  { apps : list AppCandidate }.

Inductive Exn : Type :=
| JsError (message : string)
| InternalError (code : string) (message : string)
    (details : MultipleAppsInTarballErrorDetails).

Definition messageOf (e : Exn) : string :=
  match e with
  | JsError m => m
  | InternalError _ m _ => m
  end.

(** [error instanceof InternalError]. *)
Definition isInternalError (e : Exn) : bool :=
  match e with
  | InternalError _ _ _ => true
  | JsError _ => false
  end.

Inductive LogLevel : Type := NewLine | Info | Warn | Debug.

Inductive Event : Type :=
| EvLog (level : LogLevel) (text : string)
| EvFetch (url : string) (timeout : Z)
| EvProgress (message completedMessage : string) (e : ProgressEvent)
| EvSpawn (command : string) (args : list string) (stdio : string)
| EvExtract (file cwd : fspath).

Record World : Type :=
  { disk : node;
    trace : list Event;
    uuidsDrawn : nat;
    clockReads : nat }.

(** What the server sends: the status class, the [Content-Length] header,
    the chunks of the body, and how the body ends ([Some m]: the stream or
    the write fails with message [m] after these chunks). *)
Record Response : Type :=
  { ok : bool;
    contentLength : option string;
    chunks : list string;
    failure : option string }.

Inductive FetchOutcome : Type :=
| FetchThrows (message : string)
| FetchResponds (r : Response).

(** Everything outside the module: the temporary directory, the platform,
    the random and clock sources, [Number], the network and the two
    extractors.  The network and the extractors may depend on the whole
    world; an extractor returns its error message, if any, and the disk it
    leaves. *)
Record Env : Type :=
  { tmpDir : fspath;
    platform : string;
    uuidv4 : nat -> string;
    Date_now : nat -> Z;
    Number : string -> JsNum;
    network : World -> string -> FetchOutcome;
    spawnTool : World -> string -> list string -> option string * node;
    jsTar : World -> fspath -> fspath -> option string * node }.

(* ================================================================== *)
(** ** The monad of asynchronous computations *)

Inductive Result (A : Type) : Type :=
| Ok (a : A)
| Throw (e : Exn).
Arguments Ok {A} a.
Arguments Throw {A} e.

Definition M (A : Type) : Type := World -> Result A * World.

Definition ret {A : Type} (a : A) : M A := fun w => (Ok a, w).

Definition bind {A B : Type} (m : M A) (k : A -> M B) : M B :=
  fun w =>
    match m w with
    | (Ok a, w') => k a w'
    | (Throw e, w') => (Throw e, w')
    end.

Definition throw {A : Type} (e : Exn) : M A := fun w => (Throw e, w).

Definition tryCatch {A : Type} (m : M A) (handler : Exn -> M A) : M A :=
  fun w =>
    match m w with
    | (Ok a, w') => (Ok a, w')
    | (Throw e, w') => handler e w'
    end.

Notation "x <- c1 ;; c2" := (bind c1 (fun x => c2))
  (at level 61, c1 at next level, right associativity).
Notation "c1 ;; c2" := (bind c1 (fun _ => c2))
  (at level 61, right associativity).

Definition getWorld : M World := fun w => (Ok w, w).

Definition getDisk : M node := fun w => (Ok (disk w), w).

Definition setDisk (d : node) : M unit :=
  fun w => (Ok tt, {| disk := d; trace := trace w;
                      uuidsDrawn := uuidsDrawn w;
                      clockReads := clockReads w |}).

Definition emit (e : Event) : M unit :=
  fun w => (Ok tt, {| disk := disk w; trace := trace w ++ [e];
                      uuidsDrawn := uuidsDrawn w;
                      clockReads := clockReads w |}).

(** Modelled from the spec: the logger of [./log], which is not among the
    sources; logging is advisory and never gates control flow, so a log
    call only adds its line to the trace. *)
Definition Log_newLine : M unit := emit (EvLog NewLine "").
Definition Log_log (text : string) : M unit := emit (EvLog Info text).
Definition Log_warn (text : string) : M unit := emit (EvLog Warn text).
Definition Log_debug (text : string) : M unit := emit (EvLog Debug text).

Definition fs_pathExists (p : fspath) : M bool :=
  d <- getDisk ;; ret (pathExists p d).

Definition fs_remove (p : fspath) : M unit :=
  d <- getDisk ;; setDisk (remove p d).

Definition fs_mkdirp (p : fspath) : M unit :=
  d <- getDisk ;;
  match mkdirp p d with
  | Some d' => setDisk d'
  | None => throw (JsError ("EEXIST: file already exists, mkdir " ++ path_to_string p))
  end.

Definition fs_write (p : fspath) (content : string) : M unit :=
  d <- getDisk ;;
  match writeFile p content d with
  | Some d' => setDisk d'
  | None => throw (JsError ("cannot open for writing " ++ path_to_string p))
  end.

(* ================================================================== *)
(** ** The module [download.ts] *)

Record RequestInit : Type := { timeout : Z }.

(** A progress handler: the sink the events are handed to. *)
Definition ProgressHandler : Type := ProgressEvent -> M unit.

(** The response [wrapFetchWithProgress] resolves to: the fetched response
    and, when the [data] and [end] listeners were attached to its body, the
    [total] and the handler their closure holds. *)
Record TrackedResponse : Type :=
  { response : Response;
    listeners : option (JsNum * ProgressHandler) }.

(** [!totalDownloadSize]: a missing header or an empty string. *)
Definition falsy (header : option string) : bool :=
  match header with
  | None => true
  | Some s => String.eqb s ""
  end.

Section Program.

Variable env : Env.

(** [uuidv4()]: the next identifier of the random source. *)
Definition uuid : M string :=
  fun w => (Ok (uuidv4 env (uuidsDrawn w)),
            {| disk := disk w; trace := trace w;
               uuidsDrawn := S (uuidsDrawn w);
               clockReads := clockReads w |}).

(** [Date.now()]: the next reading of the clock. *)
Definition now : M Z :=
  fun w => (Ok (Date_now env (clockReads w)),
            {| disk := disk w; trace := trace w;
               uuidsDrawn := uuidsDrawn w;
               clockReads := S (clockReads w) |}).

(** Modelled from the spec: [fetch(url, init)] of [./fetch], which is not
    among the sources: an HTTP GET with a timeout that either throws or
    gives a response with its status class, headers and body stream; what
    the server answers is the environment's [network]. *)
Definition fetch (url : string) (init : RequestInit) : M Response :=
  emit (EvFetch url (timeout init)) ;;
  w <- getWorld ;;
  match network env w url with
  | FetchThrows m => throw (JsError m)
  | FetchResponds r => ret r
  end.

(** [spawnAsync(command, args, {stdio})]. *)
Definition spawnAsync (command : string) (args : list string) (stdio : string)
  : M unit :=
  emit (EvSpawn command args stdio) ;;
  w <- getWorld ;;
  let '(err, d) := spawnTool env w command args in
  setDisk d ;;
  match err with
  | Some m => throw (JsError m)
  | None => ret tt
  end.

(** [extract({file, cwd})] of the [tar] package. *)
Definition extract (file cwd : fspath) : M unit :=
  emit (EvExtract file cwd) ;;
  w <- getWorld ;;
  let '(err, d) := jsTar env w file cwd in
  setDisk d ;;
  match err with
  | Some m => throw (JsError m)
  | None => ret tt
  end.

(** Modelled from the spec: [createProgressTracker] of [./progress], which
    is not among the sources: the sink that receives the events and
    renders them with the two messages; here it records each event it is
    given. *)
Definition createProgressTracker (message completedMessage : string)
  : ProgressHandler :=
  fun e => emit (EvProgress message completedMessage e).

(** [Number(totalDownloadSize)]; [Number(null)] is 0. *)
Definition numberOfHeader (header : option string) : JsNum :=
  match header with
  | Some s => Number env s
  | None => Fin 0
  end.

(** Lines 25-83. *)
Definition wrapFetchWithProgress (url : string) (init : RequestInit)
  (progressHandler : ProgressHandler) : M TrackedResponse :=
  response <- fetch url init ;;
  if ok response then
    let totalDownloadSize := contentLength response in
    let total := numberOfHeader totalDownloadSize in
    if falsy totalDownloadSize || isNaN total || ltZero total then
      Log_warn ("Progress callback not supported for network request because 'Content-Length' header missing or invalid in response from URL: " ++ url) ;;
      ret {| response := response; listeners := None |}
    else
      ret {| response := response;
             listeners := Some (total, progressHandler) |}
  else
    ret {| response := response; listeners := None |}.

(** Running the listeners of the body for one [data] or [end] event. *)
Definition notify (l : option (JsNum * ProgressHandler))
  (chunkLength : option Z) (st : ProgressState) : M ProgressState :=
  match l with
  | None => ret st
  | Some (total, progressHandler) =>
      currentTime <- now ;;
      match onProgress total chunkLength currentTime st with
      | (st', Some e) => progressHandler e ;; ret st'
      | (st', None) => ret st'
      end
  end.

(** The body flowing into the write stream: each chunk is announced to the
    listeners and appended to the file. *)
Fixpoint pump (l : option (JsNum * ProgressHandler)) (outputPath : fspath)
  (chunks : list string) (written : string) (st : ProgressState)
  : M ProgressState :=
  match chunks with
  | [] => ret st
  | chunk :: rest =>
      st' <- notify l (Some (Z.of_nat (String.length chunk))) st ;;
      fs_write outputPath (written ++ chunk) ;;
      pump l outputPath rest (written ++ chunk) st'
  end.

(** [pipeline(response.body, fs.createWriteStream(outputPath))]. *)
Definition pipeline (r : TrackedResponse) (outputPath : fspath) : M unit :=
  fs_write outputPath "" ;;
  st <- pump (listeners r) outputPath (chunks (response r)) ""
          initialProgressState ;;
  match failure (response r) with
  | Some m => throw (JsError m)
  | None => notify (listeners r) None st ;; ret tt
  end.

(** Lines 85-116. *)
Definition downloadFileWithProgressTrackerAsync (url : string)
  (outputPath : fspath)
  (progressTrackerMessage progressTrackerCompletedMessage : string)
  : M unit :=
  Log_newLine ;;
  tryCatch
    (tracked <- wrapFetchWithProgress url {| timeout := 1000 * 60 * 5 |}
                  (createProgressTracker progressTrackerMessage
                     progressTrackerCompletedMessage) ;;
     if negb (ok (response tracked)) then
       throw (JsError ("Failed to download file from " ++ url))
     else
       pipeline tracked outputPath)
    (fun error =>
       stillThere <- fs_pathExists outputPath ;;
       (if stillThere then fs_remove outputPath else ret tt) ;;
       throw error).

(** Lines 118-122. *)
Definition _downloadsCacheDirectory : M fspath :=
  let dir := path_join (tmpDir env) "downloads-cache" in
  fs_mkdirp dir ;;
  ret dir.

(** Lines 180-209; [applicationExtension] lists the alternatives of the
    group the source passes, [(apk|app|ipa)]. *)
Definition getAppPathAsync (outputDir : fspath)
  (applicationExtension : list string) : M fspath :=
  d <- getDisk ;;
  let appFilePaths := glob applicationExtension outputDir d in
  if (List.length appFilePaths =? 0)%nat then
    throw (JsError "Did not find any installable apps inside tarball.")
  else if (List.length appFilePaths =? 1)%nat then
    ret (path_join outputDir (nth 0 appFilePaths ""))
  else
    Log_newLine ;;
    Log_log "Detected multiple apps in the tarball:" ;;
    Log_newLine ;;
    let details :=
      {| apps := map (fun filePath =>
                        {| name := filePath;
                           path := path_join outputDir filePath |})
                   appFilePaths |} in
    throw (InternalError "MULTIPLE_APPS_IN_TARBALL"
             "Multiple apps detected in the tarball." details).

(** Lines 211-228. *)
Definition tarExtractAsync (input output : fspath) : M unit :=
  returned <-
    tryCatch
      (if negb (String.eqb (platform env) "win32") then
         spawnAsync "tar"
           ["-xf"; path_to_string input; "-C"; path_to_string output]
           "inherit" ;;
         ret true
       else ret false)
      (fun error =>
         Log_warn ("Failed to extract tar using native tools, falling back on JS tar module. "
                   ++ messageOf error) ;;
         ret false) ;;
  if returned then ret tt
  else
    Log_debug ("Extracting " ++ path_to_string input ++ " to "
               ++ path_to_string output ++ " using JS tar module") ;;
    extract input output.

Definition bundleExtensions : list string := ["apk"; "app"; "ipa"].

(** Lines 139-168: what [downloadAndMaybeExtractAppAsync] does once the
    cache gave nothing. *)
Definition downloadFresh (url : string) (outputDir : fspath) : M fspath :=
  fs_mkdirp outputDir ;;
  if endsWith url "apk" then
    id <- uuid ;;
    let apkFilePath := path_join outputDir (id ++ ".apk") in
    downloadFileWithProgressTrackerAsync url apkFilePath
      "Downloading app" "Successfully downloaded app" ;;
    ret apkFilePath
  else
    id <- uuid ;;
    let tmpArchivePathDir := path_join (tmpDir env) id in
    fs_mkdirp tmpArchivePathDir ;;
    id' <- uuid ;;
    let tmpArchivePath := path_join tmpArchivePathDir (id' ++ ".tar.gz") in
    downloadFileWithProgressTrackerAsync url tmpArchivePath
      "Downloading app archive" "Successfully downloaded app archive" ;;
    tarExtractAsync tmpArchivePath outputDir ;;
    appPath <- getAppPathAsync outputDir bundleExtensions ;;
    ret appPath.

(** Lines 128-137: the look into the cache; [None] when it gave nothing. *)
Definition lookInCache (outputDir : fspath) : M (option fspath) :=
  cached <- fs_pathExists outputDir ;;
  if cached then
    tryCatch
      (appPath <- getAppPathAsync outputDir bundleExtensions ;;
       ret (Some appPath))
      (fun error =>
         if isInternalError error then throw error else ret None)
  else ret None.

(** Lines 124-169. *)
Definition downloadAndMaybeExtractAppAsync (url : string) : M fspath :=
  let name := encodeURIComponent (stripScheme url) in
  cacheDirectory <- _downloadsCacheDirectory ;;
  let outputDir := path_join cacheDirectory name in
  hit <- lookInCache outputDir ;;
  match hit with
  | Some appPath => ret appPath
  | None => downloadFresh url outputDir
  end.

(** Lines 171-178. *)
Definition extractAppFromLocalArchiveAsync (appArchivePath : fspath)
  : M fspath :=
  id <- uuid ;;
  let outputDir := path_join (tmpDir env) id in
  fs_mkdirp outputDir ;;
  tarExtractAsync appArchivePath outputDir ;;
  getAppPathAsync outputDir bundleExtensions.

End Program.

(* ================================================================== *)
(** ** Vocabulary of the properties *)

Definition addEvents (w : World) (evs : list Event) : World :=
  {| disk := disk w; trace := trace w ++ evs;
     uuidsDrawn := uuidsDrawn w; clockReads := clockReads w |}.

Definition withDisk (w : World) (d : node) : World :=
  {| disk := d; trace := trace w;
     uuidsDrawn := uuidsDrawn w; clockReads := clockReads w |}.

Definition isFetch (e : Event) : bool :=
  match e with EvFetch _ _ => true | _ => false end.

Definition isProgress (e : Event) : bool :=
  match e with EvProgress _ _ _ => true | _ => false end.

(** An event of either extractor. *)
Definition isExtraction (e : Event) : bool :=
  match e with EvSpawn _ _ _ | EvExtract _ _ => true | _ => false end.

(** [I] is kept by [m], however [m] ends. *)
Definition keeps {A : Type} (I : World -> Prop) (m : M A) : Prop :=
  forall w, I w -> I (snd (m w)).

Definition withCounters (w : World) (uuids clock : nat) : World :=
  {| disk := disk w; trace := trace w;
     uuidsDrawn := uuids; clockReads := clock |}.

(** An invariant that a download to [p] cannot break: it survives events
    that are not extractions, draws from the UUID source and the clock,
    and writes to [p]. *)
Definition passive (I : World -> Prop) (p : fspath) : Prop :=
  (forall w e, isExtraction e = false -> I w -> I (addEvents w [e]))
  /\ (forall w u c, I w -> I (withCounters w u c))
  /\ (forall w c d, I w -> writeFile p c (disk w) = Some d -> I (withDisk w d)).

(** The listeners [downloadFileWithProgressTrackerAsync] can end up with:
    none, or the closure over a handler made by [createProgressTracker]. *)
Definition trackerListeners (l : option (JsNum * ProgressHandler)) : Prop :=
  l = None
  \/ exists total message completedMessage,
       l = Some (total, createProgressTracker message completedMessage).

(** The bytes of a body. *)
Definition bodyOf (r : Response) : string :=
  fold_right String.append EmptyString (chunks r).

Definition isHexOrDash (c : ascii) : bool :=
  inRange 48 57 c || inRange 97 102 c || Ascii.eqb c "-".

Fixpoint allChars (P : ascii -> bool) (s : string) : bool :=
  match s with
  | EmptyString => true
  | String c r => P c && allChars P r
  end.

(** The shape of a version-4 UUID in its canonical form: 36 characters,
    each a lower-case hexadecimal digit or a dash. *)
Definition isUuid (s : string) : bool :=
  (String.length s =? 36)%nat && allChars isHexOrDash s.

(** The header values for which the spec disables progress reporting:
    missing, not a number, or negative. *)
Definition missingOrInvalid (env : Env) (header : option string) : bool :=
  match header with
  | None => true
  | Some s => isNaN (Number env s) || ltZero (Number env s)
  end.

(** The cache directory of a URL (lines 119 and 127). *)
Definition cacheRoot (env : Env) : fspath :=
  path_join (tmpDir env) "downloads-cache".

Definition cacheDirOf (env : Env) (url : string) : fspath :=
  path_join (cacheRoot env) (cacheName url).

(** The last clause of the progress property as the spec words it: events
    are delivered and the last of them is complete with all bytes
    transferred. *)
Definition finalEventComplete (total : JsNum)
  (ds : list (Z * ProgressEvent)) : Prop :=
  exists t e, last (map Some ds) None = Some (t, e)
              /\ isComplete e = true
              /\ strictEq (transferred (progress e)) total = true.

(** No delivery follows a complete one. *)
Definition latched (ds : list (Z * ProgressEvent)) : Prop :=
  forall before t e after,
    ds = before ++ (t, e) :: after -> isComplete e = true -> after = [].

(** [bytesTransferred] never decreases from one delivery to a later one. *)
Definition nonDecreasing (ds : list (Z * ProgressEvent)) : Prop :=
  ForallOrdPairs
    (fun d1 d2 => (transferred (progress (snd d1))
                   <= transferred (progress (snd d2)))%Z) ds.

(** Two deliveries of which the later is not the final one are at least
    250 ms apart. *)
Definition throttled (ds : list (Z * ProgressEvent)) : Prop :=
  ForallOrdPairs
    (fun d1 d2 => isComplete (snd d2) = false -> (250 <= fst d2 - fst d1)%Z) ds.

(** The events the tracker's handler records for a list of deliveries. *)
Definition progressEvents (message completedMessage : string)
  (ds : list (Z * ProgressEvent)) : list Event :=
  map (fun d => EvProgress message completedMessage (snd d)) ds.

(** The sum of the chunk lengths of a sequence of calls. *)
Definition bytesOf (calls : list (Z * option Z)) : Z :=
  fold_right (fun c acc => match snd c with Some n => (n + acc)%Z | None => acc end)
    0%Z calls.

Definition chunkLengthsOk (calls : list (Z * option Z)) : Prop :=
  Forall (fun c => match snd c with Some n => (0 <= n)%Z | None => True end) calls.

(* ================================================================== *)
(** ** More vocabulary: paths, well-formed disks, closure states *)

(** [p] is [q] or lies above it. *)
Fixpoint prefixPath (p q : fspath) : bool :=
  match p, q with
  | [], _ => true
  | s :: p', t :: q' => String.eqb s t && prefixPath p' q'
  | _ :: _, [] => false
  end.

(** Neither path lies on the way to the other. *)
Definition unrelated (p q : fspath) : bool :=
  negb (prefixPath p q) && negb (prefixPath q p).

(** A name a directory entry can have: not empty, not a dot segment, no
    separator. *)
Definition plainName (s : string) : bool :=
  negb (String.eqb s "") && negb (String.eqb s ".")
  && negb (String.eqb s "..")
  && allChars (fun c => negb (Ascii.eqb c "/")) s.

Fixpoint distinctNames (l : list string) : bool :=
  match l with
  | [] => true
  | x :: t => negb (existsb (String.eqb x) t) && distinctNames t
  end.

(** A disk as a file system presents it: in every directory the names are
    plain and distinct. *)
Fixpoint wellFormed (n : node) : bool :=
  match n with
  | File _ => true
  | Dir cs =>
      distinctNames (map fst cs)
      && forallb (fun kc => plainName (fst kc) && wellFormed (snd kc)) cs
  end.

(** A directory without the entries named [k]. *)
Definition withoutName {A : Type} (k : string) (l : list (string * A))
  : list (string * A) :=
  filter (fun kc => negb (String.eqb k (fst kc))) l.

(** The number of bytes of a string's UTF-8 form, which is what the
    strings of this development are.  For a string of ASCII characters it
    is the JavaScript [length]; for any other string the JavaScript
    [length], which counts UTF-16 units, is smaller. *)
Definition utf8Length (s : string) : nat := String.length s.

(** The closure state after a sequence of [onProgress] calls. *)
Fixpoint stateAfter (tot : JsNum) (calls : list (Z * option Z))
  (st : ProgressState) : ProgressState :=
  match calls with
  | [] => st
  | (t, chunkLength) :: rest =>
      stateAfter tot rest (fst (onProgress tot chunkLength t st))
  end.

(** The length can no longer meet the total: the total is not finite, or
    the length is already beyond it. *)
Definition beyond (n : Z) (tot : JsNum) : bool :=
  match tot with
  | Fin q => negb (Qle_bool (inject_Z n) q)
  | _ => true
  end.

(** The [onProgress] calls of a body that is read to its end, with the
    clock readings the environment gives from reading number [clock] on. *)
Fixpoint chunkCalls (env : Env) (clock : nat) (chunks : list string)
  : list (Z * option Z) :=
  match chunks with
  | [] => []
  | chunk :: rest =>
      (Date_now env clock, Some (Z.of_nat (String.length chunk)))
      :: chunkCalls env (S clock) rest
  end.

Definition transferCalls (env : Env) (clock : nat) (chunks : list string)
  : list (Z * option Z) :=
  chunkCalls env clock chunks
  ++ [(Date_now env (clock + List.length chunks), None)].

(** The condition under which [wrapFetchWithProgress] attaches its
    listeners (lines 35-39). *)
Definition tracksProgress (env : Env) (r : Response) : bool :=
  ok r
  && negb (falsy (contentLength r)
           || isNaN (numberOfHeader env (contentLength r))
           || ltZero (numberOfHeader env (contentLength r))).

(* ================================================================== *)
(** ** A concrete environment, for running the model *)

Module Demo.

Fixpoint digitsValue (s : string) (acc : Z) : option Z :=
  match s with
  | EmptyString => Some acc
  | String c r =>
      if inRange 48 57 c
      then digitsValue r (10 * acc + (Z.of_nat (nat_of_ascii c) - 48))%Z
      else None
  end.

(** [Number] on the decimal integers; everything else is [NaN] here. *)
Definition number (s : string) : JsNum :=
  match s with
  | EmptyString => Fin 0
  | String c r =>
      if Ascii.eqb c "-" then
        match r, digitsValue r 0 with
        | String _ _, Some n => Fin (inject_Z (- n))
        | _, _ => NaN
        end
      else
        match digitsValue s 0 with
        | Some n => Fin (inject_Z n)
        | None => NaN
        end
  end.

Definition apkUrl : string := "https://example.com/builds/app.apk".
Definition myapkUrl : string := "https://example.com/builds/myapk".
Definition archiveUrl : string := "https://example.com/builds/app.tar.gz".
Definition noLengthUrl : string := "https://example.com/builds/nolength.apk".
Definition brokenUrl : string := "https://example.com/builds/broken.apk".

Definition serve (w : World) (url : string) : FetchOutcome :=
  if String.eqb url apkUrl || String.eqb url myapkUrl then
    FetchResponds {| ok := true; contentLength := Some "6";
                     chunks := ["abc"; "def"]; failure := None |}
  else if String.eqb url archiveUrl then
    FetchResponds {| ok := true; contentLength := Some "8";
                     chunks := ["tar."; "data"]; failure := None |}
  else if String.eqb url noLengthUrl then
    FetchResponds {| ok := true; contentLength := None;
                     chunks := ["abc"; "def"]; failure := None |}
  else if String.eqb url brokenUrl then
    FetchResponds {| ok := true; contentLength := Some "10";
                     chunks := ["abcd"]; failure := Some "socket hang up" |}
  else FetchThrows "getaddrinfo ENOTFOUND".

(** Unpacking the demo archive: it holds [payload/MyApp.app/Info.plist]. *)
Definition unpackInto (cwd : fspath) (d : node) : option string * node :=
  match mkdirp (cwd ++ ["payload"; "MyApp.app"]) d with
  | Some d' =>
      match writeFile (cwd ++ ["payload"; "MyApp.app"; "Info.plist"]) "plist" d' with
      | Some d'' => (None, d'')
      | None => (Some "TAR_BAD_ARCHIVE", d')
      end
  | None => (Some "TAR_BAD_ARCHIVE", d)
  end.

Definition outDir : fspath := ["tmp"; "out"].
Definition archivePath : fspath := ["tmp"; "app.tar.gz"].

Definition uuidOf (n : nat) : string :=
  "1b9d6bcd-bbfd-4b2d-9b5d-ab8dfbbd4be" ++ String (hexDigit (n mod 10)) "".

(** A machine without a native [tar]: the subprocess fails and touches
    nothing. *)
Definition env : Env :=
  {| tmpDir := ["tmp"];
     platform := "linux";
     uuidv4 := uuidOf;
     Date_now := fun n => (1700000000000 + 100 * Z.of_nat n)%Z;
     Number := number;
     network := serve;
     spawnTool := fun w _ _ => (Some "spawn tar ENOENT", disk w);
     jsTar := fun w _ cwd => unpackInto cwd (disk w) |}.

(** The same machine with a native [tar] that unpacks into [outDir]. *)
Definition envNative : Env :=
  {| tmpDir := ["tmp"];
     platform := "linux";
     uuidv4 := uuidOf;
     Date_now := fun n => (1700000000000 + 100 * Z.of_nat n)%Z;
     Number := number;
     network := serve;
     spawnTool := fun w _ _ => unpackInto outDir (disk w);
     jsTar := fun w _ cwd => unpackInto cwd (disk w) |}.

Definition world : World :=
  {| disk := Dir [("tmp", Dir [("out", Dir [])])];
     trace := [];
     uuidsDrawn := 0;
     clockReads := 0 |}.

(** A disk whose cache entry for [archiveUrl] holds two bundles. *)
Definition ambiguousWorld : World :=
  {| disk :=
       Dir [("tmp",
             Dir [("downloads-cache",
                   Dir [(cacheName archiveUrl,
                         Dir [("A.app", Dir []); ("B.app", Dir [])])])])];
     trace := [];
     uuidsDrawn := 0;
     clockReads := 0 |}.

(** A disk whose cache entry for [archiveUrl] is an empty directory. *)
Definition staleWorld : World :=
  {| disk :=
       Dir [("tmp",
             Dir [("downloads-cache", Dir [(cacheName archiveUrl, Dir [])])])];
     trace := [];
     uuidsDrawn := 0;
     clockReads := 0 |}.

Definition apkPath : fspath := ["tmp"; "out"; "app.apk"].

(** A disk on which [apkPath] is a regular file, so that nothing can be
    unpacked into it. *)
Definition blockedWorld : World :=
  {| disk := Dir [("tmp", Dir [("out", Dir [("app.apk", File "")])])];
     trace := [];
     uuidsDrawn := 0;
     clockReads := 0 |}.

End Demo.

(** A server that answers every request with a 404 page. *)
Module Demo404.

Definition serve (w : World) (url : string) : FetchOutcome :=
  FetchResponds {| ok := false; contentLength := Some "9";
                   chunks := ["Not Found"]; failure := None |}.

Definition env : Env :=
  {| tmpDir := ["tmp"];
     platform := "linux";
     uuidv4 := Demo.uuidOf;
     Date_now := fun n => (1700000000000 + 100 * Z.of_nat n)%Z;
     Number := Demo.number;
     network := serve;
     spawnTool := fun w _ _ => (Some "spawn tar ENOENT", disk w);
     jsTar := fun w _ cwd => Demo.unpackInto cwd (disk w) |}.

End Demo404.

(* ================================================================== *)
(** * Properties *)

(** ** Strings and the cache name *)

Lemma string_app_inv_head (a r1 r2 : string) :
  (a ++ r1 = a ++ r2)%string -> r1 = r2.
Proof.
  induction a as [|c a IH]; simpl; intros H; [exact H|].
  inversion H. auto.
Qed.

Lemma string_app_prefix (a b r1 r2 : string) :
  (a ++ r1 = b ++ r2)%string -> prefix a b = true \/ prefix b a = true.
Proof.
  revert b; induction a as [|c a IH]; intros b H;
    [left; destruct b; reflexivity|].
  destruct b as [|d b]; [right; reflexivity|].
  simpl in H. inversion H; subst d.
  destruct (IH b H2) as [Hp|Hp]; [left|right]; simpl;
    destruct (ascii_dec c c); congruence.
Qed.

Lemma every_ascii_listed (c : ascii) : In c (map ascii_of_nat (seq 0 256)).
Proof.
  rewrite <- (ascii_nat_embedding c).
  apply in_map, in_seq. pose proof (nat_ascii_bounded c). lia.
Qed.

Lemma encodeChar_prefix_free_table :
  forallb (fun c1 =>
     forallb (fun c2 =>
        implb (prefix (encodeChar c1) (encodeChar c2)) (Ascii.eqb c1 c2))
       (map ascii_of_nat (seq 0 256)))
    (map ascii_of_nat (seq 0 256)) = true.
Proof. vm_compute. reflexivity. Qed.

(** No character's encoding starts another character's encoding. *)
Lemma encodeChar_prefix_free (c1 c2 : ascii) :
  prefix (encodeChar c1) (encodeChar c2) = true -> c1 = c2.
Proof.
  intros H. pose proof encodeChar_prefix_free_table as T.
  rewrite forallb_forall in T. specialize (T c1 (every_ascii_listed c1)).
  rewrite forallb_forall in T. specialize (T c2 (every_ascii_listed c2)).
  rewrite H in T. simpl in T. apply Ascii.eqb_eq. exact T.
Qed.

Lemma encodeChar_not_empty (c : ascii) (r : string) :
  (encodeChar c ++ r)%string <> EmptyString.
Proof.
  unfold encodeChar, percentEncode. destruct (uriUnreserved c); discriminate.
Qed.

Lemma encodeURIComponent_injective (s1 s2 : string) :
  encodeURIComponent s1 = encodeURIComponent s2 -> s1 = s2.
Proof.
  revert s2; induction s1 as [|c1 s1 IH]; intros [|c2 s2] H; simpl in H.
  - reflexivity.
  - symmetry in H. now apply encodeChar_not_empty in H.
  - now apply encodeChar_not_empty in H.
  - assert (c1 = c2) as ->.
    { destruct (string_app_prefix _ _ _ _ H) as [Hp|Hp];
        apply encodeChar_prefix_free in Hp; congruence. }
    apply string_app_inv_head in H. f_equal. auto.
Qed.

(** C9, as the code has it: the cache name is a function of the URL, and
    two URLs get the same name exactly when they agree once their scheme
    prefix is stripped. *)
Theorem C9_cacheName_injective_modulo_scheme (url1 url2 : string) :
  cacheName url1 = cacheName url2 <-> stripScheme url1 = stripScheme url2.
Proof.
  unfold cacheName. split.
  - apply encodeURIComponent_injective.
  - intros ->. reflexivity.
Qed.

(** C9 as stated fails: two distinct URLs that differ in their scheme
    share one cache directory name. *)
Lemma C9_distinct_urls_collide :
  "http://example.com/app.tar.gz" <> "https://example.com/app.tar.gz"
  /\ cacheName "http://example.com/app.tar.gz"
     = cacheName "https://example.com/app.tar.gz".
Proof. split; [discriminate | reflexivity]. Qed.

Lemma C9_cacheName_witness :
  cacheName "http://example.com/app.tar.gz"
  = cacheName "https://example.com/app.tar.gz".
Proof.
  apply (proj2 (C9_cacheName_injective_modulo_scheme
                  "http://example.com/app.tar.gz"
                  "https://example.com/app.tar.gz")).
  reflexivity.
Defined.

(** ** The throttle *)

(** The length [onProgress] works with after adding the chunk. *)
Lemma onProgress_length total chunkLength t st st' o :
  onProgress total chunkLength t st = (st', o) ->
  lengthSoFar st'
  = match chunkLength with
    | Some n => (lengthSoFar st + n)%Z
    | None => lengthSoFar st
    end.
Proof.
  unfold onProgress. intros H.
  assert (forall n, (if (n =? 0)%Z then lengthSoFar st else (lengthSoFar st + n)%Z)
                    = (lengthSoFar st + n)%Z) as E.
  { intros n. destruct (Z.eqb_spec n 0); lia. }
  destruct (negb _ && _); inversion H; subst; simpl;
    destruct chunkLength; auto.
Qed.

Lemma onProgress_fires total chunkLength t st st' e :
  onProgress total chunkLength t st = (st', Some e) ->
  didProgressBarFinish st = false
  /\ lastProgressCallTime st' = t
  /\ didProgressBarFinish st' = isComplete e
  /\ transferred (progress e) = lengthSoFar st'
  /\ isComplete e = strictEq (lengthSoFar st') total
  /\ (isComplete e = false -> (250 <= t - lastProgressCallTime st)%Z).
Proof.
  unfold onProgress. intros H.
  destruct (negb (didProgressBarFinish st)) eqn:Hd; simpl in H; [|discriminate].
  destruct (250 <=? t - lastProgressCallTime st)%Z eqn:Ht; simpl in H.
  - inversion H; subst; simpl. apply negb_true_iff in Hd.
    repeat split; auto. intros _. now apply Z.leb_le.
  - destruct (strictEq _ total) eqn:Hs in H; inversion H; subst; simpl.
    apply negb_true_iff in Hd. repeat split; auto. congruence.
Qed.

Lemma onProgress_silent total chunkLength t st st' :
  onProgress total chunkLength t st = (st', None) ->
  didProgressBarFinish st' = didProgressBarFinish st
  /\ lastProgressCallTime st' = lastProgressCallTime st
  /\ (didProgressBarFinish st = false ->
      strictEq (lengthSoFar st') total = false).
Proof.
  unfold onProgress. intros H.
  destruct (negb (didProgressBarFinish st)) eqn:Hd; simpl in H.
  - destruct (250 <=? t - lastProgressCallTime st)%Z; simpl in H; [discriminate|].
    destruct (strictEq _ total) eqn:Hs in H; inversion H; subst; simpl.
    repeat split; auto.
  - inversion H; subst; simpl. apply negb_false_iff in Hd.
    repeat split; auto. congruence.
Qed.

(** The latch: once the bar finished, nothing is delivered. *)
Lemma deliveries_finished total calls st :
  didProgressBarFinish st = true -> deliveries total calls st = [].
Proof.
  revert st; induction calls as [|[t c] rest IH]; intros st Hf; [reflexivity|].
  simpl. destruct (onProgress total c t st) as [st' [e|]] eqn:Hp.
  - apply onProgress_fires in Hp. destruct Hp as [Hp _]. congruence.
  - apply onProgress_silent in Hp. destruct Hp as [Hp _].
    apply IH. congruence.
Qed.

Lemma deliveries_gap total calls st :
  Forall (fun d => isComplete (snd d) = false ->
                   (250 <= fst d - lastProgressCallTime st)%Z)
    (deliveries total calls st).
Proof.
  revert st; induction calls as [|[t c] rest IH]; intros st; [constructor|].
  simpl. destruct (onProgress total c t st) as [st' [e|]] eqn:Hp.
  - apply onProgress_fires in Hp.
    destruct Hp as (_ & Hl & Hd & _ & _ & Hgap).
    constructor; [exact Hgap|].
    destruct (isComplete e) eqn:Hc.
    + rewrite deliveries_finished by exact Hd. constructor.
    + specialize (IH st'). rewrite Hl in IH.
      eapply Forall_impl; [|exact IH]. simpl. intros d Hd' Hn.
      specialize (Hd' Hn). specialize (Hgap eq_refl). lia.
  - apply onProgress_silent in Hp. destruct Hp as (_ & Hl & _).
    specialize (IH st'). now rewrite Hl in IH.
Qed.

Lemma deliveries_throttled total calls st :
  throttled (deliveries total calls st).
Proof.
  unfold throttled.
  revert st; induction calls as [|[t c] rest IH]; intros st; [constructor|].
  simpl. destruct (onProgress total c t st) as [st' [e|]] eqn:Hp; [|apply IH].
  constructor; [|apply IH].
  apply onProgress_fires in Hp. destruct Hp as (_ & Hl & _).
  pose proof (deliveries_gap total rest st') as G. rewrite Hl in G. exact G.
Qed.

Lemma deliveries_latched total calls st :
  latched (deliveries total calls st).
Proof.
  unfold latched.
  revert st; induction calls as [|[t c] rest IH];
    intros st before t0 e0 after Hds Hc; simpl in Hds.
  - destruct before; discriminate.
  - destruct (onProgress total c t st) as [st' [e|]] eqn:Hp; [|eauto].
    destruct before as [|b before]; simpl in Hds; inversion Hds; subst; [|eauto].
    apply onProgress_fires in Hp. destruct Hp as (_ & _ & Hd & _).
    apply deliveries_finished. congruence.
Qed.

Lemma deliveries_above total calls st :
  chunkLengthsOk calls ->
  Forall (fun d => (lengthSoFar st <= transferred (progress (snd d)))%Z)
    (deliveries total calls st).
Proof.
  unfold chunkLengthsOk.
  revert st; induction calls as [|[t c] rest IH]; intros st Hok; [constructor|].
  inversion Hok as [|? ? Hc Hrest]; subst. simpl in Hc.
  simpl. destruct (onProgress total c t st) as [st' o] eqn:Hp.
  pose proof (onProgress_length _ _ _ _ _ _ Hp) as Hlen.
  assert (lengthSoFar st <= lengthSoFar st')%Z as Hle
      by (rewrite Hlen; destruct c; lia).
  specialize (IH st' Hrest).
  assert (Forall (fun d => (lengthSoFar st <= transferred (progress (snd d)))%Z)
            (deliveries total rest st')) as Htail.
  { eapply Forall_impl; [|exact IH]. simpl. intros; lia. }
  destruct o as [e|]; [|exact Htail].
  constructor; [|exact Htail].
  apply onProgress_fires in Hp. destruct Hp as (_ & _ & _ & Ht & _).
  simpl. lia.
Qed.

Lemma deliveries_nonDecreasing total calls st :
  chunkLengthsOk calls -> nonDecreasing (deliveries total calls st).
Proof.
  unfold nonDecreasing, chunkLengthsOk.
  revert st; induction calls as [|[t c] rest IH]; intros st Hok; [constructor|].
  inversion Hok as [|? ? Hc Hrest]; subst.
  simpl. destruct (onProgress total c t st) as [st' [e|]] eqn:Hp; [|auto].
  constructor; [|auto].
  apply onProgress_fires in Hp. destruct Hp as (_ & _ & _ & Ht & _).
  simpl. rewrite Ht. now apply deliveries_above.
Qed.

Lemma finalEventComplete_cons total d ds :
  finalEventComplete total ds -> finalEventComplete total (d :: ds).
Proof.
  intros (t & e & Hl & H). exists t, e. split; [|exact H].
  destruct ds as [|d' ds]; [discriminate|]. exact Hl.
Qed.

(** When the bytes of the calls still to come bring the length to the
    total, the last delivery is the complete one. *)
Lemma deliveries_final total calls st :
  calls <> [] ->
  didProgressBarFinish st = false ->
  strictEq (lengthSoFar st + bytesOf calls) total = true ->
  finalEventComplete total (deliveries total calls st).
Proof.
  revert st; induction calls as [|[t c] rest IH]; intros st Hne Hf Hsum;
    [congruence|].
  simpl. destruct (onProgress total c t st) as [st' o] eqn:Hp.
  pose proof (onProgress_length _ _ _ _ _ _ Hp) as Hlen.
  assert (lengthSoFar st + bytesOf ((t, c) :: rest)
          = lengthSoFar st' + bytesOf rest)%Z as Hshift.
  { rewrite Hlen. unfold bytesOf. simpl. destruct c; lia. }
  rewrite Hshift in Hsum.
  destruct o as [e|].
  - apply onProgress_fires in Hp.
    destruct Hp as (_ & _ & Hd & Ht & Hc & _).
    destruct (isComplete e) eqn:He.
    + rewrite deliveries_finished by exact Hd.
      exists t, e. simpl. rewrite Ht. auto.
    + destruct rest as [|c' rest].
      * unfold bytesOf in Hsum. simpl in Hsum. rewrite Z.add_0_r in Hsum.
        congruence.
      * apply finalEventComplete_cons. apply IH; [discriminate|congruence|auto].
  - apply onProgress_silent in Hp. destruct Hp as (Hd & _ & Hs).
    destruct rest as [|c' rest].
    + unfold bytesOf in Hsum. simpl in Hsum. rewrite Z.add_0_r in Hsum.
      specialize (Hs Hf). congruence.
    + apply IH; [discriminate|congruence|auto].
Qed.

(** ** The disk *)

Lemma assoc_setEntry_same {A : Type} (k : string) (v : A) l :
  assoc k (setEntry k v l) = Some v.
Proof.
  induction l as [|[k' v'] l IH]; simpl.
  - now rewrite String.eqb_refl.
  - destruct (String.eqb k k') eqn:E; simpl; rewrite ?String.eqb_refl, ?E; auto.
Qed.

Lemma setEntry_same {A : Type} (k : string) (v : A) l :
  assoc k l = Some v -> setEntry k v l = l.
Proof.
  induction l as [|[k' v'] l IH]; simpl; [discriminate|].
  destruct (String.eqb_spec k k'); intros H.
  - congruence.
  - now rewrite IH.
Qed.

Lemma setEntry_absent {A : Type} (k : string) (v : A) l :
  assoc k l = None -> setEntry k v l = l ++ [(k, v)].
Proof.
  induction l as [|[k' v'] l IH]; simpl; [reflexivity|].
  destruct (String.eqb k k'); [discriminate|]. intros H. now rewrite IH.
Qed.

Lemma assoc_app_absent {A : Type} (k : string) (v : A) l :
  assoc k l = None -> assoc k (l ++ [(k, v)]) = Some v.
Proof.
  induction l as [|[k' v'] l IH]; simpl.
  - now rewrite String.eqb_refl.
  - destruct (String.eqb k k'); [discriminate|auto].
Qed.

Lemma lookup_app (p q : fspath) (n : node) :
  lookup (p ++ q) n
  = match lookup p n with Some m => lookup q m | None => None end.
Proof.
  revert n; induction p as [|s p IH]; intros n; simpl; [reflexivity|].
  destruct n as [c|cs]; [reflexivity|].
  destruct (assoc s cs); auto.
Qed.

(** Whatever lies on the way to a directory is a directory. *)
Lemma lookup_prefix_dir (p q : fspath) (n : node) cs :
  lookup (p ++ q) n = Some (Dir cs) -> exists cs', lookup p n = Some (Dir cs').
Proof.
  rewrite lookup_app. destruct (lookup p n) as [[c|cs']|]; try discriminate.
  - destruct q; simpl; discriminate.
  - eauto.
Qed.

Lemma mkdirp_existing (p : fspath) (n : node) cs :
  lookup p n = Some (Dir cs) -> mkdirp p n = Some n.
Proof.
  revert n; induction p as [|s p IH]; intros n; simpl.
  - intros H; inversion H; subst. reflexivity.
  - destruct n as [c|cs0]; [discriminate|].
    destruct (assoc s cs0) as [child|] eqn:E; [|discriminate].
    intros H. rewrite (IH _ H). now rewrite setEntry_same.
Qed.

(** A successful [mkdirp] of something that was there changed nothing. *)
Lemma mkdirp_present (p : fspath) (n n' x : node) :
  mkdirp p n = Some n' -> lookup p n = Some x ->
  n' = n /\ exists cs, x = Dir cs.
Proof.
  revert n n'; induction p as [|s p IH]; intros n n'; simpl.
  - destruct n as [c|cs]; [discriminate|].
    intros H1 H2. inversion H1; inversion H2; subst. eauto.
  - destruct n as [c|cs]; [discriminate|].
    destruct (assoc s cs) as [child|] eqn:E; [|discriminate].
    destruct (mkdirp p child) as [child'|] eqn:Em; [|discriminate].
    intros H1 H2. inversion H1; subst.
    destruct (IH _ _ Em H2) as [-> Hx]. now rewrite setEntry_same.
Qed.

Lemma mkdirp_empty (p : fspath) :
  exists n', mkdirp p (Dir []) = Some n' /\ lookup p n' = Some (Dir []).
Proof.
  induction p as [|s p [n' [Hm Hl]]]; simpl; [eauto|].
  rewrite Hm. eexists; split; [reflexivity|].
  simpl. now rewrite String.eqb_refl.
Qed.

(** A successful [mkdirp] of something that was not there made an empty
    directory. *)
Lemma mkdirp_absent (p : fspath) (n n' : node) :
  mkdirp p n = Some n' -> lookup p n = None -> lookup p n' = Some (Dir []).
Proof.
  revert n n'; induction p as [|s p IH]; intros n n'; simpl; [discriminate|].
  destruct n as [c|cs]; [discriminate|].
  destruct (assoc s cs) as [child|] eqn:E.
  - destruct (mkdirp p child) as [child'|] eqn:Em; [|discriminate].
    intros H1 H2. inversion H1; subst. simpl.
    rewrite assoc_setEntry_same. eauto.
  - destruct (mkdirp_empty p) as [e [Hm Hl]]. rewrite Hm.
    intros H1 _. inversion H1; subst. simpl.
    now rewrite assoc_app_absent.
Qed.

Lemma assoc_filter_out {A : Type} (s : string) (l : list (string * A)) :
  assoc s (filter (fun kc => negb (String.eqb s (fst kc))) l) = None.
Proof.
  induction l as [|[k v] l IH]; simpl; [reflexivity|].
  destruct (String.eqb s k) eqn:E; simpl; [exact IH|]. now rewrite E.
Qed.

Lemma remove_lookup (p : fspath) (n : node) :
  p <> [] -> lookup p (remove p n) = None.
Proof.
  revert n; induction p as [|s p IH]; intros n Hne; [congruence|].
  simpl. destruct n as [c|cs]; [reflexivity|].
  destruct p as [|s' p].
  - simpl. now rewrite assoc_filter_out.
  - cbn [lookup]. induction cs as [|[k v] cs IHcs]; simpl; [reflexivity|].
    destruct (String.eqb s k) eqn:E; simpl; rewrite E.
    + apply IH. discriminate.
    + exact IHcs.
Qed.

Lemma remove_root_not_file (p : fspath) (n : node) c :
  lookup p (remove p n) <> Some (File c).
Proof.
  destruct p as [|s p]; [simpl; discriminate|].
  rewrite remove_lookup; discriminate.
Qed.

Lemma writeFile_lookup (p : fspath) (c : string) (n n' : node) :
  writeFile p c n = Some n' -> lookup p n' = Some (File c).
Proof.
  revert n n'; induction p as [|s p IH]; intros n n'; simpl.
  - destruct n; [|discriminate]. intros H; inversion H; reflexivity.
  - destruct n as [c0|cs]; [discriminate|].
    destruct (assoc s cs) as [child|] eqn:E.
    + destruct (writeFile p c child) as [child'|] eqn:Ew; [|discriminate].
      intros H; inversion H; subst. simpl.
      rewrite assoc_setEntry_same. eauto.
    + destruct p; [|discriminate]. intros H; inversion H; subst. simpl.
      now rewrite assoc_app_absent.
Qed.

(** Writing over a file that a write left succeeds. *)
Lemma writeFile_again (p : fspath) (c c' : string) (n n' : node) :
  writeFile p c n = Some n' -> exists n'', writeFile p c' n' = Some n''.
Proof.
  revert n n'; induction p as [|s p IH]; intros n n'; simpl.
  - destruct n; [|discriminate]. intros H; inversion H; subst. eauto.
  - destruct n as [c0|cs]; [discriminate|].
    destruct (assoc s cs) as [child|] eqn:E.
    + destruct (writeFile p c child) as [child'|] eqn:Ew; [|discriminate].
      intros H; inversion H; subst. simpl. rewrite assoc_setEntry_same.
      destruct (IH _ _ Ew) as [n'' ->]. eauto.
    + destruct p; [|discriminate]. intros H; inversion H; subst. simpl.
      rewrite assoc_app_absent by exact E. simpl. eauto.
Qed.

(** What a write of [dir/name] does to the directory [dir]. *)
Lemma writeFile_in_dir (dir : fspath) (name c : string) (n n' : node) cs :
  writeFile (dir ++ [name]) c n = Some n' ->
  lookup dir n = Some (Dir cs) ->
  lookup dir n' = Some (Dir (setEntry name (File c) cs))
  /\ (assoc name cs = None \/ exists c0, assoc name cs = Some (File c0)).
Proof.
  revert n n'; induction dir as [|s dir IH]; intros n n'; simpl.
  - destruct n as [c0|cs0]; [discriminate|].
    intros H1 H2. inversion H2; subst cs0.
    destruct (assoc name cs) as [child|] eqn:E.
    + destruct child as [c0|]; [|discriminate].
      inversion H1; subst. split; [reflexivity|eauto].
    + inversion H1; subst. rewrite setEntry_absent by exact E. auto.
  - destruct n as [c0|cs0]; [discriminate|].
    destruct (assoc s cs0) as [child|] eqn:E.
    + destruct (writeFile (dir ++ [name]) c child) as [child'|] eqn:Ew;
        [|discriminate].
      intros H1 H2. inversion H1; subst. simpl.
      rewrite assoc_setEntry_same. eauto.
    + destruct (dir ++ [name]) eqn:Ed; [destruct dir; discriminate|].
      discriminate.
Qed.

(** ** Walking a directory *)

Lemma walk_Dir (cs : list (string * node)) :
  walk (Dir cs)
  = flat_map (fun kc =>
                if prefix "." (fst kc) then []
                else [fst kc] :: map (cons (fst kc)) (walk (snd kc))) cs.
Proof. reflexivity. Qed.

Lemma walk_app (cs cs' : list (string * node)) :
  walk (Dir (cs ++ cs')) = walk (Dir cs) ++ walk (Dir cs').
Proof. rewrite !walk_Dir. apply flat_map_app. Qed.

Lemma walk_has_child (k : string) (x : node) cs :
  assoc k cs = Some x -> prefix "." k = false -> In [k] (walk (Dir cs)).
Proof.
  intros Ha Hk. induction cs as [|[k' v] cs IH]; [discriminate|].
  change (walk (Dir ((k', v) :: cs)))
    with ((if prefix "." k' then []
           else [k'] :: map (cons k') (walk v)) ++ walk (Dir cs)).
  simpl in Ha. destruct (String.eqb_spec k k') as [->|Hne].
  - rewrite Hk. left. reflexivity.
  - apply in_or_app. right. auto.
Qed.

Lemma walk_setEntry_file (k c c0 : string) cs :
  assoc k cs = Some (File c0) ->
  walk (Dir (setEntry k (File c) cs)) = walk (Dir cs).
Proof.
  induction cs as [|[k' v] cs IH]; [discriminate|].
  simpl assoc. simpl setEntry. destruct (String.eqb_spec k k') as [->|Hne].
  - intros H; inversion H; subst. reflexivity.
  - intros H.
    change (walk (Dir ((k', v) :: setEntry k (File c) cs)))
      with ((if prefix "." k' then []
             else [k'] :: map (cons k') (walk v))
            ++ walk (Dir (setEntry k (File c) cs))).
    now rewrite IH.
Qed.

Lemma glob_found_in_dir exts cwd d x rest :
  glob exts cwd d = x :: rest -> exists cs, lookup cwd d = Some (Dir cs).
Proof.
  unfold glob. destruct (lookup cwd d) as [[c|cs]|]; try discriminate; eauto.
Qed.

(** A directory in which nothing matched, after a file with a matching
    name was written into it: that file is the one match. *)
Lemma matches_after_first_write exts (name c : string) cs :
  matchesExt exts name = true ->
  filter (fun rel => matchesExt exts (baseName rel)) (walk (Dir cs)) = [] ->
  assoc name cs = None
  /\ filter (fun rel => matchesExt exts (baseName rel))
       (walk (Dir (cs ++ [(name, File c)]))) = [[name]].
Proof.
  intros Hm Hnone.
  assert (prefix "." name = false) as Hdot.
  { unfold matchesExt in Hm. apply andb_true_iff in Hm.
    destruct Hm as [Hm _]. now apply negb_true_iff in Hm. }
  assert (assoc name cs = None) as Habs.
  { destruct (assoc name cs) as [x|] eqn:E; [|reflexivity].
    pose proof (walk_has_child _ _ _ E Hdot) as Hin.
    assert (In [name] (filter (fun rel => matchesExt exts (baseName rel))
                         (walk (Dir cs)))) as Hin'
        by (apply filter_In; split; [exact Hin|exact Hm]).
    rewrite Hnone in Hin'. destruct Hin'. }
  split; [exact Habs|].
  rewrite walk_app, filter_app, Hnone.
  rewrite walk_Dir. simpl. rewrite Hdot. simpl.
  unfold baseName. simpl. now rewrite Hm.
Qed.

(** ** Reasoning about computations *)

(** Running the monad's plumbing without touching the data. *)
Ltac mrun :=
  cbv beta iota zeta delta
    [bind ret throw tryCatch getDisk setDisk getWorld emit
     fs_pathExists fs_remove fs_mkdirp fs_write
     Log_newLine Log_log Log_warn Log_debug];
  cbn [fst snd disk trace uuidsDrawn clockReads].

Lemma bind_ok {A B : Type} (m : M A) (k : A -> M B) w a w1 :
  m w = (Ok a, w1) -> bind m k w = k a w1.
Proof. unfold bind. now intros ->. Qed.

Lemma bind_throw {A B : Type} (m : M A) (k : A -> M B) w e w1 :
  m w = (Throw e, w1) -> bind m k w = (Throw e, w1).
Proof. unfold bind. now intros ->. Qed.

Lemma keeps_ret {A : Type} (I : World -> Prop) (a : A) : keeps I (ret a).
Proof. intros w H. exact H. Qed.

Lemma keeps_throw {A : Type} (I : World -> Prop) (e : Exn) :
  keeps I (@throw A e).
Proof. intros w H. exact H. Qed.

Lemma keeps_bind {A B : Type} (I : World -> Prop) (m : M A) (k : A -> M B) :
  keeps I m -> (forall a, keeps I (k a)) -> keeps I (bind m k).
Proof.
  intros Hm Hk w Hw. unfold bind. specialize (Hm w Hw).
  destruct (m w) as [[a|e] w']; simpl in *; [now apply Hk|exact Hm].
Qed.

Lemma keeps_tryCatch {A : Type} (I : World -> Prop) (m : M A)
  (h : Exn -> M A) :
  keeps I m -> (forall e, keeps I (h e)) -> keeps I (tryCatch m h).
Proof.
  intros Hm Hh w Hw. unfold tryCatch. specialize (Hm w Hw).
  destruct (m w) as [[a|e] w']; simpl in *; [exact Hm|now apply Hh].
Qed.

Lemma keeps_getDisk (I : World -> Prop) : keeps I getDisk.
Proof. intros w H. exact H. Qed.

Lemma keeps_getWorld (I : World -> Prop) : keeps I getWorld.
Proof. intros w H. exact H. Qed.

Section Passive.

Variables (I : World -> Prop) (p : fspath).
Hypothesis Hev :
  forall w e, isExtraction e = false -> I w -> I (addEvents w [e]).
Hypothesis Hcnt : forall w u c, I w -> I (withCounters w u c).
Hypothesis Hwr :
  forall w c d, I w -> writeFile p c (disk w) = Some d -> I (withDisk w d).

Lemma keeps_emit (e : Event) : isExtraction e = false -> keeps I (emit e).
Proof. intros He w Hw. now apply (Hev w e). Qed.

Lemma keeps_now (env : Env) : keeps I (now env).
Proof.
  intros w Hw. exact (Hcnt w (uuidsDrawn w) (S (clockReads w)) Hw).
Qed.

Lemma keeps_uuid (env : Env) : keeps I (uuid env).
Proof.
  intros w Hw. exact (Hcnt w (S (uuidsDrawn w)) (clockReads w) Hw).
Qed.

Lemma keeps_fs_write (c : string) : keeps I (fs_write p c).
Proof.
  intros w Hw. unfold fs_write, bind, getDisk. simpl.
  destruct (writeFile p c (disk w)) as [d|] eqn:E; simpl; [|exact Hw].
  exact (Hwr w c d Hw E).
Qed.

Lemma keeps_notify (env : Env) l chunkLength st :
  trackerListeners l -> keeps I (notify env l chunkLength st).
Proof.
  intros [->|(total & m & cm & ->)]; simpl; [apply keeps_ret|].
  apply keeps_bind; [apply keeps_now|]. intros t.
  destruct (onProgress total chunkLength t st) as [st' [e|]];
    [|apply keeps_ret].
  apply keeps_bind; [|intros; apply keeps_ret].
  now apply keeps_emit.
Qed.

Lemma keeps_pump (env : Env) l chunks written st :
  trackerListeners l -> keeps I (pump env l p chunks written st).
Proof.
  intros Hl. revert written st.
  induction chunks as [|chunk rest IH]; intros written st; simpl;
    [apply keeps_ret|].
  apply keeps_bind; [now apply keeps_notify|]. intros st'.
  apply keeps_bind; [apply keeps_fs_write|]. intros _. apply IH.
Qed.

Lemma keeps_pipeline (env : Env) (r : TrackedResponse) :
  trackerListeners (listeners r) -> keeps I (pipeline env r p).
Proof.
  intros Hl. unfold pipeline.
  apply keeps_bind; [apply keeps_fs_write|]. intros _.
  apply keeps_bind; [now apply keeps_pump|]. intros st.
  destruct (failure (response r)); [apply keeps_throw|].
  apply keeps_bind; [now apply keeps_notify|]. intros; apply keeps_ret.
Qed.

Lemma keeps_fetch (env : Env) url init : keeps I (fetch env url init).
Proof.
  unfold fetch. apply keeps_bind; [now apply keeps_emit|]. intros _.
  apply keeps_bind; [apply keeps_getWorld|]. intros w.
  destruct (network env w url); [apply keeps_throw|apply keeps_ret].
Qed.

Lemma keeps_wrapFetchWithProgress (env : Env) url init h :
  keeps I (wrapFetchWithProgress env url init h).
Proof.
  unfold wrapFetchWithProgress.
  apply keeps_bind; [apply keeps_fetch|]. intros r.
  destruct (ok r); [|apply keeps_ret].
  destruct (falsy _ || _ || _); [|apply keeps_ret].
  apply keeps_bind; [now apply keeps_emit|]. intros; apply keeps_ret.
Qed.

End Passive.

(** ** The download *)

Lemma wrapFetchWithProgress_listeners env url init h w t w' :
  wrapFetchWithProgress env url init h w = (Ok t, w') ->
  listeners t = None \/ exists total, listeners t = Some (total, h).
Proof.
  unfold wrapFetchWithProgress, bind.
  destruct (fetch env url init w) as [[r|e] w1]; [|discriminate].
  destruct (ok r); [|intros H; inversion H; auto].
  destruct (falsy _ || _ || _).
  - destruct (Log_warn _ w1) as [[[]|e] w2]; [|discriminate].
    intros H; inversion H; auto.
  - intros H; inversion H; simpl; eauto.
Qed.

(** The part of the download inside [try]. *)
Lemma download_body_keeps (I : World -> Prop) env url p m cm :
  passive I p ->
  keeps I
    (tracked <- wrapFetchWithProgress env url {| timeout := 1000 * 60 * 5 |}
                  (createProgressTracker m cm) ;;
     if negb (ok (response tracked)) then
       throw (JsError ("Failed to download file from " ++ url))
     else pipeline env tracked p).
Proof.
  intros (Hev & Hcnt & Hwr) w Hw. unfold bind.
  pose proof (keeps_wrapFetchWithProgress I Hev env url
                {| timeout := 1000 * 60 * 5 |}
                (createProgressTracker m cm) w Hw) as Hk.
  destruct (wrapFetchWithProgress _ _ _ _ w) as [[t|e] w1] eqn:Ef;
    simpl in *; [|exact Hk].
  destruct (negb (ok (response t))); [exact Hk|].
  apply (keeps_pipeline I p Hev Hcnt Hwr); [|exact Hk].
  destruct (wrapFetchWithProgress_listeners _ _ _ _ _ _ _ Ef) as [->|[total ->]];
    [left; reflexivity|right; eauto].
Qed.

(** The [catch] block always rethrows. *)
Lemma download_catch_throws p error w :
  fst ((stillThere <- fs_pathExists p ;;
        (if stillThere then fs_remove p else ret tt) ;;
        throw (A := unit) error) w) = Throw error.
Proof.
  mrun. destruct (pathExists p (disk w)); reflexivity.
Qed.

Lemma download_unfold env url p m cm w :
  downloadFileWithProgressTrackerAsync env url p m cm w
  = tryCatch
      (tracked <- wrapFetchWithProgress env url {| timeout := 1000 * 60 * 5 |}
                    (createProgressTracker m cm) ;;
       if negb (ok (response tracked)) then
         throw (JsError ("Failed to download file from " ++ url))
       else pipeline env tracked p)
      (fun error =>
         stillThere <- fs_pathExists p ;;
         (if stillThere then fs_remove p else ret tt) ;;
         throw error)
      (addEvents w [EvLog NewLine ""]).
Proof. reflexivity. Qed.

(** A download that returns kept every invariant that writes to its
    destination keep. *)
Lemma download_returns_keeps (I : World -> Prop) env url p m cm w w' :
  passive I p -> I w ->
  downloadFileWithProgressTrackerAsync env url p m cm w = (Ok tt, w') ->
  I w'.
Proof.
  intros HI Hw. rewrite download_unfold.
  assert (I (addEvents w [EvLog NewLine ""])) as Hw1
      by (destruct HI as (H & _); now apply H).
  unfold tryCatch.
  pose proof (download_body_keeps I env url p m cm HI _ Hw1) as Hb.
  match goal with
  | |- context [match ?x with _ => _ end] => destruct x as [[a|e] w1] eqn:Eb
  end.
  - cbn [snd] in Hb. intros H; inversion H; subst. exact Hb.
  - intros H. pose proof (download_catch_throws p e w1) as Hc.
    rewrite H in Hc. discriminate.
Qed.

(** However a download ends, it kept every invariant that writes to and
    the removal of its destination keep. *)
Lemma download_keeps (I : World -> Prop) env url p m cm :
  passive I p ->
  (forall w, I w -> I (withDisk w (remove p (disk w)))) ->
  keeps I (downloadFileWithProgressTrackerAsync env url p m cm).
Proof.
  intros HI Hrm. unfold downloadFileWithProgressTrackerAsync.
  apply keeps_bind; [now apply (keeps_emit I (proj1 HI))|]. intros _.
  apply keeps_tryCatch; [now apply download_body_keeps|]. intros e.
  apply keeps_bind.
  { unfold fs_pathExists. apply keeps_bind; [apply keeps_getDisk|].
    intros; apply keeps_ret. }
  intros [|]; (apply keeps_bind; [|intros; apply keeps_throw]).
  - intros w Hw. mrun. now apply Hrm.
  - apply keeps_ret.
Qed.

(** C8: when the download throws, nothing is left at the destination: no
    regular file in any case, and no entry at all unless the destination
    is the root. *)
Theorem C8_failed_download_leaves_no_file env url outputPath m cm w e w' :
  downloadFileWithProgressTrackerAsync env url outputPath m cm w
  = (Throw e, w') ->
  (forall c, lookup outputPath (disk w') <> Some (File c))
  /\ (outputPath <> [] -> pathExists outputPath (disk w') = false).
Proof.
  rewrite download_unfold. unfold tryCatch.
  match goal with
  | |- context [match ?x with _ => _ end] => destruct x as [[a|e0] w1]
  end; [discriminate|].
  mrun.
  destruct (pathExists outputPath (disk w1)) eqn:Ex;
    intros H; injection H as _ Hw; subst w'; cbn [disk].
  - split; [intros c; apply remove_root_not_file|].
    intros Hne. unfold pathExists. now rewrite remove_lookup.
  - unfold pathExists in *.
    destruct (lookup outputPath (disk w1)); [discriminate|].
    split; [discriminate|reflexivity].
Qed.

(** ** A response without a usable [Content-Length] *)

Lemma string_app_nil_r (s : string) : (s ++ "")%string = s.
Proof. induction s as [|c s IH]; simpl; [reflexivity|now rewrite IH]. Qed.

Lemma string_app_assoc (a b c : string) :
  ((a ++ b) ++ c)%string = (a ++ (b ++ c))%string.
Proof. induction a as [|x a IH]; simpl; [reflexivity|now rewrite IH]. Qed.

Lemma invalid_header_is_rejected env header :
  missingOrInvalid env header = true ->
  falsy header || isNaN (numberOfHeader env header)
  || ltZero (numberOfHeader env header) = true.
Proof.
  destruct header as [s|]; simpl; [|reflexivity].
  intros H. apply orb_true_iff in H. rewrite <- orb_assoc.
  apply orb_true_iff. right. apply orb_true_iff. exact H.
Qed.

Section DiskOnly.

(** An invariant that does not look at the disk. *)
Variable I : World -> Prop.
Hypothesis HI : forall w d, I w -> I (withDisk w d).

Lemma keeps_fs_write_blind p c : keeps I (fs_write p c).
Proof.
  intros w Hw. mrun. destruct (writeFile p c (disk w)); cbn [snd]; auto.
  now apply (HI w n).
Qed.

Lemma keeps_pump_unlistened env p chunks written st :
  keeps I (pump env None p chunks written st).
Proof.
  revert written st; induction chunks as [|chunk rest IH]; intros written st;
    cbn [pump notify]; [apply keeps_ret|].
  apply keeps_bind; [apply keeps_ret|]. intros st'.
  apply keeps_bind; [apply keeps_fs_write_blind|]. intros _. apply IH.
Qed.

Lemma keeps_pipeline_unlistened env r p :
  keeps I (pipeline env {| response := r; listeners := None |} p).
Proof.
  unfold pipeline. cbn [listeners response].
  apply keeps_bind; [apply keeps_fs_write_blind|]. intros _.
  apply keeps_bind; [apply keeps_pump_unlistened|]. intros st.
  destruct (failure r); [apply keeps_throw|].
  apply keeps_bind; [apply keeps_ret|]. intros; apply keeps_ret.
Qed.

Lemma keeps_download_catch p (error : Exn) :
  keeps I (stillThere <- fs_pathExists p ;;
           (if stillThere then fs_remove p else ret tt) ;;
           throw (A := unit) error).
Proof.
  intros w Hw. mrun. destruct (pathExists p (disk w)); cbn [snd]; auto.
  now apply (HI w).
Qed.

End DiskOnly.

Lemma pump_unlistened env p chunks :
  forall written st w dprev,
    writeFile p written dprev = Some (disk w) ->
    exists w',
      pump env None p chunks written st w = (Ok st, w')
      /\ trace w' = trace w
      /\ lookup p (disk w')
         = Some (File (written ++ fold_right String.append "" chunks)).
Proof.
  induction chunks as [|chunk rest IH]; intros written st w dprev Hprev.
  - exists w. cbn [pump fold_right]. rewrite string_app_nil_r.
    repeat split. eapply writeFile_lookup; eauto.
  - destruct (writeFile_again p written (written ++ chunk) _ _ Hprev)
      as [d2 Hd2].
    destruct (IH (written ++ chunk)%string st (withDisk w d2) (disk w) Hd2)
      as (w' & Hrun & Htr & Hlk).
    exists w'. cbn [pump notify fold_right]. mrun. rewrite Hd2.
    change {| disk := d2; trace := trace w; uuidsDrawn := uuidsDrawn w;
              clockReads := clockReads w |} with (withDisk w d2).
    rewrite Hrun. repeat split; [exact Htr|].
    rewrite Hlk. now rewrite string_app_assoc.
Qed.

(** C7: on a successful response whose [Content-Length] is missing, not a
    number or negative, the wrapper logs a warning and hands back the
    response with no listener attached; during the download the progress
    handler is never called and the clock never read, and the transfer
    runs as usual: with a destination that can be opened and a body that
    ends well it succeeds and the file holds the whole body. *)
Theorem C7_invalid_content_length_disables_progress
  env url outputPath m cm w r :
  let w1 := addEvents w [EvLog NewLine ""] in
  let w2 := addEvents w1 [EvFetch url 300000] in
  let warned :=
    addEvents w2
      [EvLog Warn ("Progress callback not supported for network request because 'Content-Length' header missing or invalid in response from URL: " ++ url)] in
  network env w2 url = FetchResponds r ->
  ok r = true ->
  missingOrInvalid env (contentLength r) = true ->
  wrapFetchWithProgress env url {| timeout := 300000 |}
    (createProgressTracker m cm) w1
  = (Ok {| response := r; listeners := None |}, warned)
  /\ (forall res w',
        downloadFileWithProgressTrackerAsync env url outputPath m cm w
        = (res, w') ->
        trace w' = trace warned
        /\ filter isProgress (trace w') = filter isProgress (trace w)
        /\ clockReads w' = clockReads w)
  /\ (forall d0,
        writeFile outputPath "" (disk w) = Some d0 ->
        failure r = None ->
        exists w',
          downloadFileWithProgressTrackerAsync env url outputPath m cm w
          = (Ok tt, w')
          /\ lookup outputPath (disk w') = Some (File (bodyOf r))).
Proof.
  intros w1 w2 warned Hnet Hok Hbad.
  assert (wrapFetchWithProgress env url {| timeout := 300000 |}
            (createProgressTracker m cm) w1
          = (Ok {| response := r; listeners := None |}, warned)) as Hwrap.
  { unfold wrapFetchWithProgress, fetch. mrun. cbn [timeout].
    change {| disk := disk w1; trace := trace w1 ++ [EvFetch url 300000];
              uuidsDrawn := uuidsDrawn w1; clockReads := clockReads w1 |}
      with w2.
    rewrite Hnet. cbv beta iota. rewrite Hok.
    rewrite (invalid_header_is_rejected _ _ Hbad). reflexivity. }
  split; [exact Hwrap|]. split.
  - intros res w'. rewrite download_unfold. fold w1.
    unfold tryCatch, bind at 1. change (1000 * 60 * 5)%Z with 300000%Z.
    rewrite Hwrap. cbv beta iota. cbn [response]. rewrite Hok. cbn [negb].
    set (I := fun x : World =>
                trace x = trace warned /\ clockReads x = clockReads w).
    assert (forall x d, I x -> I (withDisk x d)) as HI by (intros x d H; exact H).
    assert (I warned) as Hw by (split; reflexivity).
    pose proof (keeps_pipeline_unlistened I HI env r outputPath warned Hw) as Hp.
    destruct (pipeline env _ outputPath warned) as [[[]|e] w3]; cbn [snd] in Hp.
    + intros H; inversion H; subst. destruct Hp as [Ht Hc].
      repeat split; auto. rewrite Ht. unfold warned, w2, w1. cbn [trace addEvents].
      rewrite !filter_app. cbn [filter isProgress]. now rewrite !app_nil_r.
    + intros H.
      pose proof (keeps_download_catch I HI outputPath e w3 Hp) as Hc.
      unfold I in Hc. rewrite H in Hc. cbn [snd] in Hc. destruct Hc as [Ht Hc].
      repeat split; auto. rewrite Ht. unfold warned, w2, w1. cbn [trace addEvents].
      rewrite !filter_app. cbn [filter isProgress]. now rewrite !app_nil_r.
  - intros d0 Hopen Hend. rewrite download_unfold. fold w1.
    unfold tryCatch, bind at 1. change (1000 * 60 * 5)%Z with 300000%Z.
    rewrite Hwrap. cbv beta iota. cbn [response]. rewrite Hok. cbn [negb].
    unfold pipeline. cbn [listeners response]. rewrite Hend.
    unfold bind at 1. unfold fs_write at 1. mrun.
    change (disk warned) with (disk w). rewrite Hopen.
    destruct (pump_unlistened env outputPath (chunks r) "" initialProgressState
                (withDisk warned d0) (disk w) Hopen) as (w' & Hrun & _ & Hlk).
    change {| disk := d0; trace := trace warned;
              uuidsDrawn := uuidsDrawn warned;
              clockReads := clockReads warned |} with (withDisk warned d0).
    rewrite Hrun. cbn [notify]. exists w'. split; [reflexivity|exact Hlk].
Qed.

(** ** Locating the bundle *)

Lemma getAppPathAsync_none outputDir exts w :
  glob exts outputDir (disk w) = [] ->
  getAppPathAsync outputDir exts w
  = (Throw (JsError "Did not find any installable apps inside tarball."), w).
Proof. intros E. unfold getAppPathAsync. mrun. now rewrite E. Qed.

Lemma getAppPathAsync_one outputDir exts w only :
  glob exts outputDir (disk w) = [only] ->
  getAppPathAsync outputDir exts w = (Ok (path_join outputDir only), w).
Proof. intros E. unfold getAppPathAsync. mrun. now rewrite E. Qed.

Lemma getAppPathAsync_many outputDir exts w a b rest :
  glob exts outputDir (disk w) = a :: b :: rest ->
  exists details w',
    getAppPathAsync outputDir exts w
    = (Throw (InternalError "MULTIPLE_APPS_IN_TARBALL"
                "Multiple apps detected in the tarball." details), w')
    /\ map name (apps details) = a :: b :: rest
    /\ map path (apps details) = map (path_join outputDir) (a :: b :: rest)
    /\ disk w' = disk w
    /\ filter isFetch (trace w') = filter isFetch (trace w).
Proof.
  intros E. unfold getAppPathAsync. mrun. rewrite E.
  cbn [List.length Nat.eqb].
  eexists. eexists. split; [reflexivity|]. cbn [apps disk trace].
  rewrite !map_map. cbn [name path]. rewrite map_id.
  repeat split. rewrite !filter_app. cbn [filter isFetch].
  now rewrite !app_nil_r.
Qed.

(** C1: with no match the locator throws the plain error, with one match
    it returns that match joined to the directory, and with more it throws
    the [InternalError] [MULTIPLE_APPS_IN_TARBALL], whose candidates are
    the matches, one [{name, path}] entry each. *)
Theorem C1_getAppPathAsync_trichotomy (outputDir : fspath)
  (exts : list string) (w : World) :
  match glob exts outputDir (disk w) with
  | [] =>
      getAppPathAsync outputDir exts w
      = (Throw (JsError "Did not find any installable apps inside tarball."), w)
  | [only] =>
      getAppPathAsync outputDir exts w = (Ok (path_join outputDir only), w)
  | found =>
      exists details w',
        getAppPathAsync outputDir exts w
        = (Throw (InternalError "MULTIPLE_APPS_IN_TARBALL"
                    "Multiple apps detected in the tarball." details), w')
        /\ List.length (apps details) = List.length found
        /\ map name (apps details) = found
        /\ map path (apps details) = map (path_join outputDir) found
        /\ disk w' = disk w
        /\ filter isFetch (trace w') = filter isFetch (trace w)
  end.
Proof.
  destruct (glob exts outputDir (disk w)) as [|a [|b rest]] eqn:E.
  - now apply getAppPathAsync_none.
  - now apply getAppPathAsync_one.
  - destruct (getAppPathAsync_many _ _ _ _ _ _ E)
      as (details & w' & Hrun & Hnames & Hpaths & Hdisk & Htrace).
    exists details, w'. repeat split; auto.
    rewrite <- Hnames. now rewrite length_map.
Qed.

Lemma getAppPathAsync_result_of_disk outputDir exts w1 w2 :
  disk w1 = disk w2 ->
  fst (getAppPathAsync outputDir exts w1)
  = fst (getAppPathAsync outputDir exts w2).
Proof.
  intros Hd. unfold getAppPathAsync. mrun. rewrite Hd.
  destruct (glob exts outputDir (disk w2)) as [|a [|b l]];
    cbn [List.length Nat.eqb]; reflexivity.
Qed.

(** ** Extraction *)

(** C4: except on win32 the native [tar -xf input -C output] is spawned
    first and, when it succeeds, nothing else happens; when it fails a
    warning is logged and the JS extractor runs on what the native one
    left, into the same directory; on win32 the JS extractor runs
    directly.  The extraction throws only the JS extractor's error, and
    only after the native tier, where there is one, has failed.  When the
    native tier succeeds here, and on another machine it is forced to fail
    without touching the disk while the JS extractor there unpacks as the
    native tool does, the extraction succeeds there too, through the
    fallback into the same directory, and leaves the same disk, so the
    locator resolves the same bundle.  That the two extractors unpack
    alike is a property of the tools, not of this module, and is taken as
    a hypothesis. *)
Theorem C4_tarExtractAsync_two_tiers env (input output : fspath) (w : World) :
  let args := ["-xf"; path_to_string input; "-C"; path_to_string output] in
  let spawned := addEvents w [EvSpawn "tar" args "inherit"] in
  let native := spawnTool env spawned "tar" args in
  let afterNative := withDisk spawned (snd native) in
  let announced w0 :=
    addEvents
      (addEvents w0
         [EvLog Debug ("Extracting " ++ path_to_string input ++ " to "
                       ++ path_to_string output ++ " using JS tar module")])
      [EvExtract input output] in
  let viaJs w0 :=
    (match fst (jsTar env (announced w0) input output) with
     | Some m => Throw (JsError m)
     | None => Ok tt
     end,
     withDisk (announced w0) (snd (jsTar env (announced w0) input output))) in
  (if String.eqb (platform env) "win32"
   then tarExtractAsync env input output w = viaJs w
   else match fst native with
        | None => tarExtractAsync env input output w = (Ok tt, afterNative)
        | Some m =>
            tarExtractAsync env input output w
            = viaJs (addEvents afterNative
                       [EvLog Warn ("Failed to extract tar using native tools, falling back on JS tar module. " ++ m)])
        end)
  /\ (forall e w',
        tarExtractAsync env input output w = (Throw e, w') ->
        (String.eqb (platform env) "win32" = false ->
         exists m, fst native = Some m)
        /\ exists w0 m', fst (jsTar env w0 input output) = Some m'
                         /\ e = JsError m')
  /\ (forall envF m,
        String.eqb (platform env) "win32" = false ->
        fst native = None ->
        (forall w0 command args0,
           spawnTool envF w0 command args0 = (Some m, disk w0)) ->
        (forall wa wb,
           disk wa = disk wb ->
           jsTar envF wa input output = spawnTool env wb "tar" args) ->
        exists w2,
          tarExtractAsync env input output w = (Ok tt, afterNative)
          /\ tarExtractAsync envF input output w = (Ok tt, w2)
          /\ disk w2 = disk afterNative
          /\ In (EvExtract input output) (trace w2)
          /\ (String.eqb (platform envF) "win32" = false ->
              In (EvLog Warn ("Failed to extract tar using native tools, falling back on JS tar module. " ++ m))
                (trace w2))
          /\ fst (getAppPathAsync output bundleExtensions w2)
             = fst (getAppPathAsync output bundleExtensions afterNative)).
Proof.
  intros args spawned native afterNative announced viaJs.
  assert (if String.eqb (platform env) "win32"
          then tarExtractAsync env input output w = viaJs w
          else match fst native with
               | None => tarExtractAsync env input output w = (Ok tt, afterNative)
               | Some m =>
                   tarExtractAsync env input output w
                   = viaJs (addEvents afterNative
                              [EvLog Warn ("Failed to extract tar using native tools, falling back on JS tar module. " ++ m)])
               end) as Hrun.
  { unfold tarExtractAsync, spawnAsync, extract, viaJs, announced, afterNative,
      native, spawned, args.
    destruct (String.eqb (platform env) "win32"); cbn [negb]; mrun.
    - unfold addEvents, withDisk. cbn [disk trace uuidsDrawn clockReads].
      destruct (jsTar env _ input output) as [[m'|] d']; reflexivity.
    - unfold addEvents, withDisk. cbn [disk trace uuidsDrawn clockReads].
      destruct (spawnTool env _ "tar" _) as [[m|] d]; cbn [fst snd messageOf];
        [|reflexivity].
      destruct (jsTar env _ input output) as [[m'|] d']; reflexivity. }
  split; [exact Hrun|]. split.
  - intros e w' Hthrow.
    destruct (String.eqb (platform env) "win32").
    + rewrite Hrun in Hthrow. unfold viaJs in Hthrow. split; [discriminate|].
      destruct (fst (jsTar env (announced w) input output)) as [m'|] eqn:Ej;
        inversion Hthrow; subst. eauto.
    + destruct (fst native) as [m|] eqn:En;
        rewrite Hrun in Hthrow; [|discriminate].
      split; [eauto|]. unfold viaJs in Hthrow.
      match type of Hthrow with
      | context [jsTar env ?w0 input output] =>
          destruct (fst (jsTar env w0 input output)) as [m'|] eqn:Ej
      end; inversion Hthrow; subst. eauto.
  - intros envF m Hplat Hnative Hforced Hagree.
    rewrite Hplat, Hnative in Hrun.
    assert (forall w0, disk w0 = disk w ->
                       jsTar envF w0 input output = (None, snd native))
      as Hjs.
    { intros w0 Hd. rewrite (Hagree w0 spawned Hd). fold args. fold native.
      destruct native as [err d]. cbn [fst snd] in *. now subst err. }
    assert (exists w2,
              tarExtractAsync envF input output w = (Ok tt, w2)
              /\ disk w2 = snd native
              /\ In (EvExtract input output) (trace w2)
              /\ (String.eqb (platform envF) "win32" = false ->
                  In (EvLog Warn ("Failed to extract tar using native tools, falling back on JS tar module. " ++ m))
                    (trace w2))) as (w2 & Hrun2 & Hd2 & Hex & Hwarn).
    { unfold tarExtractAsync, spawnAsync, extract.
      destruct (String.eqb (platform envF) "win32"); cbn [negb]; mrun.
      - rewrite Hjs by reflexivity. cbn [fst snd].
        eexists. split; [reflexivity|]. cbn [disk trace].
        split; [reflexivity|]. split; [|discriminate].
        apply in_or_app. right. now left.
      - rewrite Hforced. cbn [fst snd messageOf]. rewrite Hjs by reflexivity.
        cbn [fst snd]. eexists. split; [reflexivity|]. cbn [disk trace].
        split; [reflexivity|]. split.
        + apply in_or_app. right. now left.
        + intros _. apply in_or_app. left. apply in_or_app. left.
          apply in_or_app. right. now left. }
    exists w2. split; [exact Hrun|]. split; [exact Hrun2|].
    split; [exact Hd2|]. split; [exact Hex|]. split; [exact Hwarn|].
    apply getAppPathAsync_result_of_disk. exact Hd2.
Qed.

(** ** Names and paths *)

Lemma allChars_app (P : ascii -> bool) (a b : string) :
  allChars P (a ++ b) = allChars P a && allChars P b.
Proof.
  induction a as [|c a IH]; simpl; [reflexivity|].
  now rewrite IH, andb_assoc.
Qed.

Lemma allChars_impl (P Q : ascii -> bool) (s : string) :
  (forall c, P c = true -> Q c = true) ->
  allChars P s = true -> allChars Q s = true.
Proof.
  intros HPQ. induction s as [|c s IH]; simpl; [reflexivity|].
  intros H. apply andb_true_iff in H. destruct H as [Hc Hs].
  apply andb_true_iff. auto.
Qed.

Lemma split_without_separator (sep : ascii) (s : string) :
  allChars (fun c => negb (Ascii.eqb c sep)) s = true -> split sep s = [s].
Proof.
  induction s as [|c s IH]; simpl; [reflexivity|].
  intros H. apply andb_true_iff in H. destruct H as [Hc Hs].
  apply negb_true_iff in Hc. rewrite Hc, (IH Hs). reflexivity.
Qed.

Lemma split_not_empty (sep : ascii) (s : string) : split sep s <> [].
Proof.
  destruct s as [|c s]; simpl; [discriminate|].
  destruct (Ascii.eqb c sep); [discriminate|].
  destruct (split sep s); discriminate.
Qed.

(** Appending text without a separator extends the last piece. *)
Lemma split_app_last (sep : ascii) (s t : string) :
  allChars (fun c => negb (Ascii.eqb c sep)) t = true ->
  split sep (s ++ t)
  = removelast (split sep s) ++ [(last (split sep s) "" ++ t)%string].
Proof.
  intros Ht. induction s as [|c s IH].
  - simpl. now apply split_without_separator.
  - cbn [String.append split]. rewrite IH.
    pose proof (split_not_empty sep s) as Hne.
    destruct (split sep s) as [|h tl]; [congruence|].
    destruct (Ascii.eqb c sep).
    + reflexivity.
    + destruct tl as [|h' tl]; reflexivity.
Qed.

Lemma encodeChar_table :
  forallb (fun c =>
     allChars (fun x => negb (Ascii.eqb x "/")) (encodeChar c)
     && implb (isHexOrDash c)
          (negb (Ascii.eqb c "/") && negb (Ascii.eqb c ".")))
    (map ascii_of_nat (seq 0 256)) = true.
Proof. vm_compute. reflexivity. Qed.

Lemma encodeChar_no_slash (c : ascii) :
  allChars (fun x => negb (Ascii.eqb x "/")) (encodeChar c) = true.
Proof.
  pose proof encodeChar_table as T. rewrite forallb_forall in T.
  specialize (T c (every_ascii_listed c)).
  apply andb_true_iff in T. tauto.
Qed.

Lemma isHexOrDash_plain (c : ascii) :
  isHexOrDash c = true ->
  negb (Ascii.eqb c "/") = true /\ negb (Ascii.eqb c ".") = true.
Proof.
  intros H. pose proof encodeChar_table as T. rewrite forallb_forall in T.
  specialize (T c (every_ascii_listed c)).
  apply andb_true_iff in T. destruct T as [_ T]. rewrite H in T.
  simpl in T. now apply andb_true_iff in T.
Qed.

Lemma encodeURIComponent_no_slash (s : string) :
  allChars (fun x => negb (Ascii.eqb x "/")) (encodeURIComponent s) = true.
Proof.
  induction s as [|c s IH]; simpl; [reflexivity|].
  now rewrite allChars_app, encodeChar_no_slash, IH.
Qed.

Lemma path_join_one_segment (p : fspath) (s : string) :
  allChars (fun x => negb (Ascii.eqb x "/")) s = true ->
  path_join p s = joinSegment p s.
Proof.
  intros H. unfold path_join. now rewrite split_without_separator.
Qed.

(** Unless its name is [".."], the cache directory of a URL is the cache
    root or lies below it. *)
Lemma cacheDir_below_root env url :
  cacheName url <> ".." ->
  exists rest, cacheDirOf env url = cacheRoot env ++ rest.
Proof.
  intros Hne. unfold cacheDirOf.
  rewrite path_join_one_segment by apply encodeURIComponent_no_slash.
  unfold joinSegment.
  destruct (String.eqb _ "" || String.eqb _ ".");
    [exists []; now rewrite app_nil_r|].
  destruct (String.eqb_spec (cacheName url) ".."); [congruence|eauto].
Qed.

Lemma string_length_app (a b : string) :
  String.length (a ++ b) = (String.length a + String.length b)%nat.
Proof. induction a as [|c a IH]; simpl; [reflexivity|now rewrite IH]. Qed.

Lemma endsWith_app (a s : string) : endsWith (a ++ s) s = true.
Proof.
  induction a as [|c a IH].
  - cbn [String.append]. destruct s; cbn [endsWith];
      rewrite String.eqb_refl; reflexivity.
  - cbn [String.append endsWith]. rewrite IH. apply orb_true_r.
Qed.

(** A segment with an extension is a proper segment. *)
Lemma joinSegment_with_extension (p : fspath) (stem ext : string) :
  (2 <= String.length ext)%nat ->
  joinSegment p (stem ++ "." ++ ext) = p ++ [(stem ++ "." ++ ext)%string].
Proof.
  intros Hext. unfold joinSegment.
  assert (3 <= String.length (stem ++ "." ++ ext))%nat as Hlen.
  { rewrite string_length_app. simpl. lia. }
  assert (forall t, (String.length t < 3)%nat ->
                    String.eqb (stem ++ "." ++ ext) t = false) as Hneq.
  { intros t Ht. apply String.eqb_neq. intros E. rewrite E in Hlen. lia. }
  rewrite !Hneq by (simpl; lia). reflexivity.
Qed.

(** Whatever the random name is, the path of the raw package ends in a
    segment with the extension [.apk]. *)
Lemma path_join_apk (p : fspath) (id : string) :
  exists dir stem, path_join p (id ++ ".apk") = dir ++ [(stem ++ ".apk")%string].
Proof.
  unfold path_join. rewrite split_app_last by reflexivity.
  rewrite fold_left_app. cbn [fold_left].
  eexists. eexists.
  apply (joinSegment_with_extension _ _ "apk"). simpl. lia.
Qed.

(** With a well-formed UUID the file sits right in the directory and its
    name matches the bundle pattern. *)
Lemma uuid_apk_segment (p : fspath) (id : string) :
  isUuid id = true ->
  path_join p (id ++ ".apk") = p ++ [(id ++ ".apk")%string]
  /\ matchesExt bundleExtensions (id ++ ".apk") = true.
Proof.
  unfold isUuid. intros H. apply andb_true_iff in H. destruct H as [Hlen Hch].
  apply Nat.eqb_eq in Hlen. split.
  - rewrite path_join_one_segment.
    + apply (joinSegment_with_extension _ _ "apk"). simpl. lia.
    + rewrite allChars_app. apply andb_true_iff. split; [|reflexivity].
      eapply allChars_impl; [|exact Hch]. intros c Hc.
      now apply isHexOrDash_plain.
  - unfold matchesExt. apply andb_true_iff. split.
    + destruct id as [|c id]; [discriminate|].
      simpl in Hch. apply andb_true_iff in Hch. destruct Hch as [Hc _].
      apply isHexOrDash_plain in Hc. destruct Hc as [_ Hc].
      apply negb_true_iff in Hc. apply Ascii.eqb_neq in Hc.
      cbn [String.append prefix].
      destruct (ascii_dec "." c) as [E|_]; [congruence|reflexivity].
    + cbn [bundleExtensions existsb].
      change ("." ++ "apk")%string with ".apk".
      now rewrite endsWith_app.
Qed.

(** ** What a finished download leaves *)

Lemma bind_returns {A B : Type} (m : M A) (k : A -> M B) w b w' :
  bind m k w = (Ok b, w') ->
  exists a w1, m w = (Ok a, w1) /\ k a w1 = (Ok b, w').
Proof.
  unfold bind. destruct (m w) as [[a|e] w1]; [eauto|discriminate].
Qed.

Lemma fs_write_returns p c w w' :
  fs_write p c w = (Ok tt, w') ->
  exists d, writeFile p c (disk w) = Some d /\ w' = withDisk w d.
Proof.
  mrun. destruct (writeFile p c (disk w)) as [d|]; [|discriminate].
  intros H; inversion H; subst. eauto.
Qed.

Lemma fs_mkdirp_returns p w w' :
  fs_mkdirp p w = (Ok tt, w') ->
  exists d, mkdirp p (disk w) = Some d /\ w' = withDisk w d.
Proof.
  mrun. destruct (mkdirp p (disk w)) as [d|]; [|discriminate].
  intros H; inversion H; subst. eauto.
Qed.

Lemma pipeline_returns env t p w w' :
  trackerListeners (listeners t) ->
  pipeline env t p w = (Ok tt, w') ->
  exists d0,
    writeFile p "" (disk w) = Some d0
    /\ forall I, passive I p -> I (withDisk w d0) -> I w'.
Proof.
  intros Hl. unfold pipeline. intros H.
  apply bind_returns in H. destruct H as ([] & w1 & Hopen & H).
  apply fs_write_returns in Hopen. destruct Hopen as (d0 & Hd0 & ->).
  exists d0. split; [exact Hd0|]. intros I (Hev & Hcnt & Hwr) Hw.
  match type of H with
  | ?m _ = _ => assert (keeps I m) as Hk
  end.
  { apply keeps_bind; [now apply (keeps_pump I p Hev Hcnt Hwr)|]. intros st.
    destruct (failure (response t)); [apply keeps_throw|].
    apply keeps_bind; [now apply (keeps_notify I Hev Hcnt)|].
    intros; apply keeps_ret. }
  specialize (Hk _ Hw). rewrite H in Hk. exact Hk.
Qed.

Lemma wrapFetchWithProgress_disk env url init h w :
  disk (snd (wrapFetchWithProgress env url init h w)) = disk w.
Proof.
  apply (keeps_wrapFetchWithProgress (fun x => disk x = disk w));
    [|reflexivity].
  intros x e _ Hx. exact Hx.
Qed.

(** A download that returned opened its destination, and from then on
    only wrote to it. *)
Lemma download_returns env url p m cm w w' :
  downloadFileWithProgressTrackerAsync env url p m cm w = (Ok tt, w') ->
  exists d0,
    writeFile p "" (disk w) = Some d0
    /\ forall J : node -> Prop,
         (forall c d d', J d -> writeFile p c d = Some d' -> J d') ->
         J d0 -> J (disk w').
Proof.
  rewrite download_unfold. unfold tryCatch.
  match goal with
  | |- context [match ?x with _ => _ end] => destruct x as [[[]|e] w3] eqn:Eb
  end.
  2:{ intros H. pose proof (download_catch_throws p e w3) as Hc.
      rewrite H in Hc. discriminate. }
  intros H; inversion H; subst w3. clear H.
  apply bind_returns in Eb. destruct Eb as (t & w2 & Hf & Hk).
  pose proof (wrapFetchWithProgress_disk env url
                {| timeout := 1000 * 60 * 5 |}
                (createProgressTracker m cm)
                (addEvents w [EvLog NewLine ""])) as Hd.
  rewrite Hf in Hd. cbn [snd addEvents disk] in Hd.
  destruct (negb (ok (response t))); [discriminate|].
  apply pipeline_returns in Hk.
  2:{ destruct (wrapFetchWithProgress_listeners _ _ _ _ _ _ _ Hf)
        as [->|[total ->]]; [left; reflexivity|right; eauto]. }
  destruct Hk as (d0 & Hd0 & Hinv). rewrite Hd in Hd0.
  exists d0. split; [exact Hd0|]. intros J HJ Hd0J.
  apply (Hinv (fun x => J (disk x))); [|exact Hd0J].
  repeat split.
  - intros x e _ Hx. exact Hx.
  - intros x u c Hx. exact Hx.
  - intros x c d Hx Hwx. exact (HJ c (disk x) d Hx Hwx).
Qed.

Lemma download_returns_file env url p m cm w w' :
  downloadFileWithProgressTrackerAsync env url p m cm w = (Ok tt, w') ->
  exists c, lookup p (disk w') = Some (File c).
Proof.
  intros H. apply download_returns in H. destruct H as (d0 & Hd0 & Hinv).
  apply (Hinv (fun d => exists c, lookup p d = Some (File c))).
  - intros c d d' _ Hw. exists c. eapply writeFile_lookup; eauto.
  - exists "". eapply writeFile_lookup; eauto.
Qed.

(** The request is issued, however the download ends. *)
Lemma download_fetches env url p m cm w :
  In (EvFetch url 300000)
    (trace (snd (downloadFileWithProgressTrackerAsync env url p m cm w))).
Proof.
  rewrite download_unfold.
  set (J := fun x : World => In (EvFetch url 300000) (trace x)).
  assert (forall x e, isExtraction e = false -> J x -> J (addEvents x [e]))
    as Hev by (intros x e _ Hx; apply in_or_app; now left).
  assert (forall x u c, J x -> J (withCounters x u c)) as Hcnt
      by (intros x u c Hx; exact Hx).
  assert (forall x c d, J x -> writeFile p c (disk x) = Some d ->
                        J (withDisk x d)) as Hwr
      by (intros x c d Hx _; exact Hx).
  assert (forall x d, J x -> J (withDisk x d)) as Hdisk
      by (intros x d Hx; exact Hx).
  change (J (snd (tryCatch
     (tracked <- wrapFetchWithProgress env url {| timeout := 1000 * 60 * 5 |}
                   (createProgressTracker m cm) ;;
      if negb (ok (response tracked)) then
        throw (JsError ("Failed to download file from " ++ url))
      else pipeline env tracked p)
     (fun error =>
        stillThere <- fs_pathExists p ;;
        (if stillThere then fs_remove p else ret tt) ;;
        throw error)
     (addEvents w [EvLog NewLine ""])))).
  set (w1 := addEvents w [EvLog NewLine ""]).
  assert (forall x, J (snd (fetch env url {| timeout := 1000 * 60 * 5 |} x)))
    as Hfetch.
  { intros x. unfold fetch. mrun. cbn [timeout].
    destruct (network env _ url); cbn [snd trace]; unfold J; cbn [trace];
      apply in_or_app; right; left; reflexivity. }
  assert (forall x, J (snd (wrapFetchWithProgress env url
                              {| timeout := 1000 * 60 * 5 |}
                              (createProgressTracker m cm) x))) as Hwrap.
  { intros x. unfold wrapFetchWithProgress. unfold bind at 1.
    specialize (Hfetch x).
    destruct (fetch env url _ x) as [[r|e] x1]; cbn [snd] in *; [|exact Hfetch].
    destruct (ok r); [|exact Hfetch].
    destruct (falsy _ || _ || _); [|exact Hfetch].
    mrun. apply in_or_app. now left. }
  unfold tryCatch, bind at 1. specialize (Hwrap w1).
  destruct (wrapFetchWithProgress env url _ _ w1) as [[t|e] w2] eqn:Ef;
    cbn [snd] in Hwrap.
  - assert (J (snd ((if negb (ok (response t))
                     then throw (JsError ("Failed to download file from " ++ url))
                     else pipeline env t p) w2))) as Hbody.
    { destruct (negb (ok (response t))); [exact Hwrap|].
      apply (keeps_pipeline J p Hev Hcnt Hwr); [|exact Hwrap].
      destruct (wrapFetchWithProgress_listeners _ _ _ _ _ _ _ Ef)
        as [->|[total ->]]; [left; reflexivity|right; eauto]. }
    cbv beta iota.
    match type of Hbody with
    | J (snd ?b) => destruct b as [[[]|e] w3]
    end; cbn [snd] in *; [exact Hbody|].
    now apply (keeps_download_catch J Hdisk).
  - now apply (keeps_download_catch J Hdisk).
Qed.

(** ** The progress events of a download are deliveries *)

Lemma notify_listening env total m cm c st w :
  exists w',
    notify env (Some (total, createProgressTracker m cm)) c st w
    = (Ok (fst (onProgress total c (Date_now env (clockReads w)) st)), w')
    /\ trace w'
       = trace w
         ++ progressEvents m cm
              (deliveries total [(Date_now env (clockReads w), c)] st)
    /\ clockReads w' = S (clockReads w)
    /\ disk w' = disk w.
Proof.
  cbn [notify deliveries]. unfold now, createProgressTracker. mrun.
  destruct (onProgress total c (Date_now env (clockReads w)) st)
    as [st' [e|]]; eexists; (split; [reflexivity|]); cbn [trace clockReads disk fst];
    repeat split. cbn [progressEvents map]. now rewrite app_nil_r.
Qed.

Lemma deliveries_cons_app total t c st more :
  deliveries total ((t, c) :: more) st
  = deliveries total [(t, c)] st
    ++ deliveries total more (fst (onProgress total c t st)).
Proof.
  cbn [deliveries]. destruct (onProgress total c t st) as [st' [e|]];
    reflexivity.
Qed.

Lemma pump_listening env total m cm p chunks :
  forall written st w,
  exists calls st',
    let res := pump env (Some (total, createProgressTracker m cm)) p
                 chunks written st w in
    trace (snd res)
    = trace w ++ progressEvents m cm (deliveries total calls st)
    /\ clockReads (snd res) = (clockReads w + List.length calls)%nat
    /\ map fst calls
       = map (Date_now env) (seq (clockReads w) (List.length calls))
    /\ chunkLengthsOk calls
    /\ (forall more,
          deliveries total (calls ++ more) st
          = deliveries total calls st ++ deliveries total more st')
    /\ (forall st'', fst res = Ok st'' -> st'' = st').
Proof.
  induction chunks as [|chunk rest IH]; intros written st w.
  - exists [], st. cbn [pump ret snd fst List.length app deliveries
                         progressEvents map seq].
    rewrite app_nil_r, Nat.add_0_r. repeat split; try constructor.
    intros st'' H; now inversion H.
  - set (c := Some (Z.of_nat (String.length chunk))).
    set (t := Date_now env (clockReads w)).
    destruct (notify_listening env total m cm c st w)
      as (w1 & Hn & Ht1 & Hc1 & Hd1).
    fold t in Hn, Ht1.
    set (st1 := fst (onProgress total c t st)) in *.
    cbn [pump]. fold c. rewrite (bind_ok _ _ _ _ _ Hn).
    destruct (fs_write p (written ++ chunk) w1) as [[[]|e] w2] eqn:Ew.
    + assert (trace w2 = trace w1 /\ clockReads w2 = clockReads w1)
        as [Ht2 Hc2].
      { apply fs_write_returns in Ew. destruct Ew as (d & _ & ->).
        split; reflexivity. }
      rewrite (bind_ok _ _ _ _ _ Ew).
      destruct (IH (written ++ chunk)%string st1 w2)
        as (calls & st' & Htr & Hcl & Htimes & Hok & Happ & Hst).
      exists ((t, c) :: calls), st'. cbv zeta in *.
      split; [|split; [|split; [|split; [|split]]]].
      * rewrite Htr, Ht2, Ht1, (deliveries_cons_app total t c st calls).
        fold st1. unfold progressEvents. now rewrite map_app, app_assoc.
      * rewrite Hcl, Hc2, Hc1. cbn [List.length]. lia.
      * cbn [map fst List.length seq]. f_equal.
        rewrite Htimes, Hc2, Hc1. reflexivity.
      * constructor; [cbn [snd c]; lia|exact Hok].
      * intros more. cbn [app].
        rewrite (deliveries_cons_app total t c st (calls ++ more)).
        rewrite (deliveries_cons_app total t c st calls). fold st1.
        now rewrite Happ, app_assoc.
      * exact Hst.
    + assert (trace w2 = trace w1 /\ clockReads w2 = clockReads w1)
        as [Ht2 Hc2].
      { revert Ew. mrun. destruct (writeFile _ _ _); intros H; inversion H.
        split; reflexivity. }
      rewrite (bind_throw _ _ _ _ _ Ew).
      exists [(t, c)], st1. cbv zeta. cbn [snd fst].
      split; [|split; [|split; [|split; [|split]]]].
      * now rewrite Ht2, Ht1.
      * rewrite Hc2, Hc1. cbn [List.length]. lia.
      * reflexivity.
      * constructor; [cbn [snd c]; lia|constructor].
      * intros more. apply deliveries_cons_app.
      * discriminate.
Qed.

Lemma filter_progressEvents m cm ds :
  filter isProgress (progressEvents m cm ds) = progressEvents m cm ds.
Proof.
  induction ds as [|d ds IH]; [reflexivity|].
  simpl. f_equal. exact IH.
Qed.

Lemma wrapFetchWithProgress_no_progress env url init h w :
  filter isProgress (trace (snd (wrapFetchWithProgress env url init h w)))
  = filter isProgress (trace w)
  /\ clockReads (snd (wrapFetchWithProgress env url init h w)) = clockReads w.
Proof.
  unfold wrapFetchWithProgress, fetch. mrun.
  destruct (network env _ url) as [msg|r]; cbn [snd trace clockReads].
  - rewrite filter_app. cbn [filter isProgress]. now rewrite app_nil_r.
  - destruct (ok r); [destruct (falsy _ || _ || _)|];
      cbn [snd trace clockReads]; rewrite !filter_app;
      cbn [filter isProgress]; now rewrite !app_nil_r.
Qed.

Lemma download_catch_world p (error : Exn) w :
  trace (snd ((stillThere <- fs_pathExists p ;;
               (if stillThere then fs_remove p else ret tt) ;;
               throw (A := unit) error) w)) = trace w
  /\ clockReads (snd ((stillThere <- fs_pathExists p ;;
                       (if stillThere then fs_remove p else ret tt) ;;
                       throw (A := unit) error) w)) = clockReads w.
Proof. mrun. destruct (pathExists p (disk w)); split; reflexivity. Qed.

Lemma pipeline_listening env r total m cm p w :
  exists calls,
    trace (snd (pipeline env
                  {| response := r;
                     listeners := Some (total, createProgressTracker m cm) |}
                  p w))
    = trace w
      ++ progressEvents m cm (deliveries total calls initialProgressState)
    /\ map fst calls
       = map (Date_now env) (seq (clockReads w) (List.length calls))
    /\ chunkLengthsOk calls.
Proof.
  unfold pipeline. cbn [listeners response].
  destruct (fs_write p "" w) as [[[]|e] w1] eqn:Ew.
  - assert (trace w1 = trace w /\ clockReads w1 = clockReads w) as [Ht Hc].
    { apply fs_write_returns in Ew. destruct Ew as (d & _ & ->).
      split; reflexivity. }
    rewrite (bind_ok _ _ _ _ _ Ew).
    destruct (pump_listening env total m cm p (chunks r) ""
                initialProgressState w1)
      as (calls & st' & Htr & Hcl & Htimes & Hok & Happ & Hst).
    cbv zeta in *. unfold bind at 1.
    destruct (pump env _ p (chunks r) "" initialProgressState w1)
      as [[st''|e] w2]; cbn [snd fst] in *.
    + rewrite (Hst st'' eq_refl).
      destruct (failure r) as [msg|].
      * exists calls. cbn [throw snd]. rewrite Htr, Ht, Htimes, Hc. auto.
      * destruct (notify_listening env total m cm None st' w2)
          as (w3 & Hn & Ht3 & _).
        rewrite (bind_ok _ _ _ _ _ Hn). cbn [ret snd].
        exists (calls ++ [(Date_now env (clockReads w2), None)]).
        split; [|split].
        -- rewrite Ht3, Htr, Ht, Happ. unfold progressEvents.
           now rewrite map_app, app_assoc.
        -- rewrite length_app, map_app, Htimes. cbn [List.length map fst].
           rewrite seq_app, map_app, Hcl, Hc. reflexivity.
        -- apply Forall_app. split; [exact Hok|].
           constructor; [exact I|constructor].
    + exists calls. rewrite Htr, Ht, Htimes, Hc. auto.
  - assert (trace w1 = trace w) as Ht.
    { revert Ew. mrun. destruct (writeFile _ _ _); intros H; inversion H.
      reflexivity. }
    rewrite (bind_throw _ _ _ _ _ Ew). exists []. cbn [snd].
    repeat split; [|constructor].
    rewrite Ht. cbn [deliveries progressEvents map]. now rewrite app_nil_r.
Qed.

(** The progress events a download adds to the trace are the deliveries
    of one sequence of [onProgress] calls, started from the initial closure
    state, whose clock readings are consecutive readings of the clock and
    whose chunk lengths are lengths. *)
Lemma download_progress_is_deliveries env url p m cm w :
  exists total calls,
    filter isProgress
      (trace (snd (downloadFileWithProgressTrackerAsync env url p m cm w)))
    = filter isProgress (trace w)
      ++ progressEvents m cm (deliveries total calls initialProgressState)
    /\ map fst calls
       = map (Date_now env) (seq (clockReads w) (List.length calls))
    /\ chunkLengthsOk calls.
Proof.
  assert (forall x, filter isProgress (trace x) = filter isProgress (trace w) ->
            exists total calls,
              filter isProgress (trace x)
              = filter isProgress (trace w)
                ++ progressEvents m cm
                     (deliveries total calls initialProgressState)
              /\ map fst calls
                 = map (Date_now env) (seq (clockReads w) (List.length calls))
              /\ chunkLengthsOk calls) as Hnone.
  { intros x Hx. exists NaN, []. rewrite Hx.
    cbn [deliveries progressEvents map]. rewrite app_nil_r.
    repeat split. constructor. }
  rewrite download_unfold. unfold tryCatch, bind at 1.
  destruct (wrapFetchWithProgress_no_progress env url
              {| timeout := 1000 * 60 * 5 |} (createProgressTracker m cm)
              (addEvents w [EvLog NewLine ""])) as [Hwt Hwc].
  cbn [addEvents trace clockReads] in Hwt, Hwc.
  rewrite filter_app in Hwt. cbn [filter isProgress] in Hwt.
  rewrite app_nil_r in Hwt.
  destruct (wrapFetchWithProgress env url _ _ _) as [[t|e] w2] eqn:Ef;
    cbn [snd] in Hwt, Hwc.
  2:{ destruct (download_catch_world p e w2) as [Ht _].
      apply Hnone. now rewrite Ht. }
  destruct (negb (ok (response t))).
  { cbn [throw]. destruct (download_catch_world p
        (JsError ("Failed to download file from " ++ url)) w2) as [Ht _].
    apply Hnone. now rewrite Ht. }
  destruct (wrapFetchWithProgress_listeners _ _ _ _ _ _ _ Ef) as [Hl|[total Hl]].
  - destruct t as [r l]. cbn [listeners] in Hl. subst l.
    pose proof (keeps_pipeline_unlistened
                  (fun x => trace x = trace w2)
                  ltac:(intros x d Hx; exact Hx) env r p w2 eq_refl) as Hp.
    destruct (pipeline env _ p w2) as [[[]|e] w3]; cbn [snd] in Hp.
    + apply Hnone. cbn [snd]. now rewrite Hp.
    + destruct (download_catch_world p e w3) as [Ht _].
      apply Hnone. now rewrite Ht, Hp.
  - destruct t as [r l]. cbn [listeners] in Hl. subst l.
    destruct (pipeline_listening env r total m cm p w2)
      as (calls & Htr & Htimes & Hok).
    exists total, calls. rewrite <- Hwc, <- Hwt.
    split; [|split; [exact Htimes|exact Hok]].
    assert (forall x, trace x
                      = trace w2
                        ++ progressEvents m cm
                             (deliveries total calls initialProgressState) ->
                      filter isProgress (trace x)
                      = filter isProgress (trace w2)
                        ++ progressEvents m cm
                             (deliveries total calls initialProgressState))
      as Hall.
    { intros x ->. rewrite filter_app. f_equal.
      apply filter_progressEvents. }
    destruct (pipeline env _ p w2) as [[[]|e] w3]; cbn [snd] in Htr.
    + cbn [snd]. now apply Hall.
    + destruct (download_catch_world p e w3) as [Ht _].
      apply Hall. now rewrite Ht.
Qed.

(** ** The throttle and the latch, for a download *)

(** C5: two deliveries of one transfer of which the later is not the final
    one are at least 250 ms apart by the clock readings of their calls, and
    a call that brings the length to the total is always delivered, as the
    complete event, whatever the clock says.  The progress events of a
    download are such deliveries, with the clock read once per call. *)
Theorem C5_progress_throttled_except_final (total : JsNum)
  (calls : list (Z * option Z)) :
  throttled (deliveries total calls initialProgressState)
  /\ (forall st chunkLength t st' o,
        onProgress total chunkLength t st = (st', o) ->
        didProgressBarFinish st = false ->
        strictEq (lengthSoFar st') total = true ->
        exists e, o = Some e /\ isComplete e = true
                  /\ transferred (progress e) = lengthSoFar st')
  /\ (forall env url p m cm w,
        exists total' calls',
          filter isProgress
            (trace (snd (downloadFileWithProgressTrackerAsync env url p m cm w)))
          = filter isProgress (trace w)
            ++ progressEvents m cm
                 (deliveries total' calls' initialProgressState)
          /\ map fst calls'
             = map (Date_now env) (seq (clockReads w) (List.length calls'))
          /\ throttled (deliveries total' calls' initialProgressState)).
Proof.
  split; [apply deliveries_throttled|]. split.
  - intros st c t st' [e|] Hp Hf Hs.
    + exists e. apply onProgress_fires in Hp.
      destruct Hp as (_ & _ & _ & Ht & Hc & _). repeat split; congruence.
    + apply onProgress_silent in Hp. destruct Hp as (_ & _ & Hn).
      specialize (Hn Hf). congruence.
  - intros env url p m cm w.
    destruct (download_progress_is_deliveries env url p m cm w)
      as (total' & calls' & Htr & Htimes & _).
    exists total', calls'. repeat split; auto. apply deliveries_throttled.
Qed.

(** C6, as the code has it: nothing is delivered after a complete event,
    the transferred byte counts never decrease, and when the chunk lengths
    of the transfer add up to the total, the last event delivered is
    complete with all bytes transferred.  The progress events of a
    download are such deliveries. *)
Theorem C6_progress_latch_and_monotone (total : JsNum)
  (calls : list (Z * option Z)) :
  latched (deliveries total calls initialProgressState)
  /\ (chunkLengthsOk calls ->
      nonDecreasing (deliveries total calls initialProgressState))
  /\ (calls <> [] -> strictEq (bytesOf calls) total = true ->
      finalEventComplete total (deliveries total calls initialProgressState))
  /\ (forall env url p m cm w,
        exists total' calls',
          filter isProgress
            (trace (snd (downloadFileWithProgressTrackerAsync env url p m cm w)))
          = filter isProgress (trace w)
            ++ progressEvents m cm
                 (deliveries total' calls' initialProgressState)
          /\ latched (deliveries total' calls' initialProgressState)
          /\ nonDecreasing (deliveries total' calls' initialProgressState)).
Proof.
  split; [apply deliveries_latched|].
  split; [apply deliveries_nonDecreasing|].
  split; [intros Hne Hs; apply deliveries_final; auto|].
  intros env url p m cm w.
  destruct (download_progress_is_deliveries env url p m cm w)
    as (total' & calls' & Htr & _ & Hok).
  exists total', calls'. repeat split; auto.
  - apply deliveries_latched.
  - now apply deliveries_nonDecreasing.
Qed.

(** ** The orchestrator *)

Lemma cacheDirectory_run env w :
  _downloadsCacheDirectory env w
  = match mkdirp (cacheRoot env) (disk w) with
    | Some d => (Ok (cacheRoot env), withDisk w d)
    | None =>
        (Throw (JsError ("EEXIST: file already exists, mkdir "
                         ++ path_to_string (cacheRoot env))), w)
    end.
Proof.
  unfold _downloadsCacheDirectory, cacheRoot. mrun.
  destruct (mkdirp _ (disk w)); reflexivity.
Qed.

Lemma cacheDirectory_returns env w r w0 :
  _downloadsCacheDirectory env w = (Ok r, w0) ->
  r = cacheRoot env
  /\ exists d, mkdirp (cacheRoot env) (disk w) = Some d /\ w0 = withDisk w d.
Proof.
  rewrite cacheDirectory_run.
  destruct (mkdirp (cacheRoot env) (disk w)) as [d|]; [|discriminate].
  intros H; inversion H; subst. eauto.
Qed.

Lemma orchestrator_after_cacheDirectory env url w w0 :
  _downloadsCacheDirectory env w = (Ok (cacheRoot env), w0) ->
  downloadAndMaybeExtractAppAsync env url w
  = (hit <- lookInCache (cacheDirOf env url) ;;
     match hit with
     | Some appPath => ret appPath
     | None => downloadFresh env url (cacheDirOf env url)
     end) w0.
Proof.
  intros H. unfold downloadAndMaybeExtractAppAsync. cbv zeta.
  now rewrite (bind_ok _ _ _ _ _ H).
Qed.

Lemma lookInCache_absent od w :
  pathExists od (disk w) = false -> lookInCache od w = (Ok None, w).
Proof. intros H. unfold lookInCache. mrun. now rewrite H. Qed.

Lemma lookInCache_present od w :
  pathExists od (disk w) = true ->
  lookInCache od w
  = match getAppPathAsync od bundleExtensions w with
    | (Ok appPath, w1) => (Ok (Some appPath), w1)
    | (Throw e, w1) =>
        if isInternalError e then (Throw e, w1) else (Ok None, w1)
    end.
Proof.
  intros H. unfold lookInCache. mrun. rewrite H.
  destruct (getAppPathAsync od bundleExtensions w) as [[a|e] w1];
    [reflexivity|].
  destruct (isInternalError e); reflexivity.
Qed.

(** What a plain failure of the locator means. *)
Lemma getAppPathAsync_plain_failure od exts w e w1 :
  getAppPathAsync od exts w = (Throw e, w1) ->
  isInternalError e = false ->
  w1 = w /\ glob exts od (disk w) = [].
Proof.
  intros H He.
  destruct (glob exts od (disk w)) as [|a [|b l]] eqn:E.
  - rewrite (getAppPathAsync_none _ _ _ E) in H. inversion H; auto.
  - rewrite (getAppPathAsync_one _ _ _ _ E) in H. discriminate.
  - destruct (getAppPathAsync_many _ _ _ _ _ _ E) as (details & w' & C & _).
    rewrite C in H. inversion H; subst. discriminate.
Qed.

Lemma getAppPathAsync_internal_failure od exts w e w1 :
  getAppPathAsync od exts w = (Throw e, w1) ->
  isInternalError e = true ->
  disk w1 = disk w /\ filter isFetch (trace w1) = filter isFetch (trace w).
Proof.
  intros H He.
  destruct (glob exts od (disk w)) as [|a [|b l]] eqn:E.
  - rewrite (getAppPathAsync_none _ _ _ E) in H. inversion H; subst.
    discriminate.
  - rewrite (getAppPathAsync_one _ _ _ _ E) in H. discriminate.
  - destruct (getAppPathAsync_many _ _ _ _ _ _ E)
      as (details & w' & C & _ & _ & Hd & Ht).
    rewrite C in H. inversion H; subst. auto.
Qed.

Lemma getAppPathAsync_returns od exts w p w1 :
  getAppPathAsync od exts w = (Ok p, w1) ->
  w1 = w /\ exists x, glob exts od (disk w) = [x] /\ p = path_join od x.
Proof.
  intros H.
  destruct (glob exts od (disk w)) as [|a [|b l]] eqn:E.
  - rewrite (getAppPathAsync_none _ _ _ E) in H. discriminate.
  - rewrite (getAppPathAsync_one _ _ _ _ E) in H. inversion H; subst. eauto.
  - destruct (getAppPathAsync_many _ _ _ _ _ _ E) as (details & w' & C & _).
    rewrite C in H. discriminate.
Qed.

Lemma bind_ret_world {A B : Type} (m : M A) (b : B) w :
  snd (bind m (fun _ => ret b) w) = snd (m w).
Proof. unfold bind, ret. destruct (m w) as [[a|e] w1]; reflexivity. Qed.

Section Monotone.

(** An invariant that nothing the pipeline does can break. *)
Variable I : World -> Prop.
Hypothesis Hev : forall w e, I w -> I (addEvents w [e]).
Hypothesis Hdisk : forall w d, I w -> I (withDisk w d).

Lemma keeps_emit_any e : keeps I (emit e).
Proof. intros w Hw. now apply (Hev w e). Qed.

Lemma keeps_setDisk d : keeps I (setDisk d).
Proof. intros w Hw. now apply (Hdisk w d). Qed.

Lemma keeps_spawnAsync env command args stdio :
  keeps I (spawnAsync env command args stdio).
Proof.
  unfold spawnAsync. apply keeps_bind; [apply keeps_emit_any|]. intros _.
  apply keeps_bind; [apply keeps_getWorld|]. intros w.
  destruct (spawnTool env w command args) as [err d].
  apply keeps_bind; [apply keeps_setDisk|]. intros _.
  destruct err; [apply keeps_throw|apply keeps_ret].
Qed.

Lemma keeps_extract env file cwd : keeps I (extract env file cwd).
Proof.
  unfold extract. apply keeps_bind; [apply keeps_emit_any|]. intros _.
  apply keeps_bind; [apply keeps_getWorld|]. intros w.
  destruct (jsTar env w file cwd) as [err d].
  apply keeps_bind; [apply keeps_setDisk|]. intros _.
  destruct err; [apply keeps_throw|apply keeps_ret].
Qed.

Lemma keeps_tarExtractAsync env input output :
  keeps I (tarExtractAsync env input output).
Proof.
  unfold tarExtractAsync. apply keeps_bind.
  - apply keeps_tryCatch.
    + destruct (negb _); [|apply keeps_ret].
      apply keeps_bind; [apply keeps_spawnAsync|]. intros; apply keeps_ret.
    + intros e. apply keeps_bind; [apply keeps_emit_any|].
      intros; apply keeps_ret.
  - intros [|]; [apply keeps_ret|].
    apply keeps_bind; [apply keeps_emit_any|]. intros _. apply keeps_extract.
Qed.

Lemma keeps_getAppPathAsync od exts : keeps I (getAppPathAsync od exts).
Proof.
  unfold getAppPathAsync. apply keeps_bind; [apply keeps_getDisk|]. intros d.
  destruct (_ =? 0)%nat; [apply keeps_throw|].
  destruct (_ =? 1)%nat; [apply keeps_ret|].
  repeat (apply keeps_bind; [apply keeps_emit_any|]; intros _).
  apply keeps_throw.
Qed.

End Monotone.

(** The extraction always starts one of the two extractors. *)
Lemma tarExtractAsync_extracts env input output w :
  exists ev rest,
    filter isExtraction (trace (snd (tarExtractAsync env input output w)))
    = filter isExtraction (trace w) ++ ev :: rest.
Proof.
  unfold tarExtractAsync, spawnAsync, extract.
  destruct (String.eqb (platform env) "win32"); cbn [negb]; mrun.
  - destruct (jsTar env _ input output) as [[m'|] d']; cbn [snd trace];
      rewrite !filter_app; cbn [filter isExtraction];
      rewrite app_nil_r; eauto.
  - destruct (spawnTool env _ "tar" _) as [[m|] d]; cbn [fst snd trace].
    + destruct (jsTar env _ input output) as [[m'|] d']; cbn [snd trace];
        rewrite !filter_app; cbn [filter isExtraction];
        rewrite !app_nil_r, <- app_assoc.
      all: do 2 eexists; reflexivity.
    + rewrite !filter_app; cbn [filter isExtraction]. eauto.
Qed.

Lemma fs_mkdirp_run p w d :
  mkdirp p (disk w) = Some d -> fs_mkdirp p w = (Ok tt, withDisk w d).
Proof. intros H. mrun. now rewrite H. Qed.

Lemma uuid_run env w :
  uuid env w
  = (Ok (uuidv4 env (uuidsDrawn w)),
     withCounters w (S (uuidsDrawn w)) (clockReads w)).
Proof. reflexivity. Qed.

Lemma bind_establishes {A B : Type} (J : World -> Prop) (m : M A)
  (k : A -> M B) w :
  J (snd (m w)) -> (forall a, keeps J (k a)) -> J (snd (bind m k w)).
Proof.
  intros Hm Hk. unfold bind.
  destruct (m w) as [[a|e] w1]; cbn [snd] in *; [now apply Hk|exact Hm].
Qed.

(** A fresh download issues the request, once its directories are made. *)
Lemma downloadFresh_fetches env url od w :
  mkdirp od (disk w) = Some (disk w) ->
  endsWith url "apk" = true
  \/ mkdirp (path_join (tmpDir env) (uuidv4 env (uuidsDrawn w))) (disk w)
     <> None ->
  In (EvFetch url 300000) (trace (snd (downloadFresh env url od w))).
Proof.
  intros Hmk Hcan. unfold downloadFresh.
  rewrite (bind_ok _ _ _ _ _ (fs_mkdirp_run _ _ _ Hmk)).
  destruct (endsWith url "apk").
  - rewrite (bind_ok _ _ _ _ _ (uuid_run _ _)).
    rewrite bind_ret_world. apply download_fetches.
  - destruct Hcan as [|Hcan]; [discriminate|].
    rewrite (bind_ok _ _ _ _ _ (uuid_run _ _)).
    destruct (mkdirp (path_join (tmpDir env) (uuidv4 env (uuidsDrawn w)))
                (disk w)) as [d2|] eqn:E; [|congruence].
    match goal with
    | |- context [bind (fs_mkdirp ?p) _ ?x] =>
        rewrite (bind_ok _ _ _ _ _ (fs_mkdirp_run p x d2 E))
    end.
    rewrite (bind_ok _ _ _ _ _ (uuid_run _ _)).
    set (J := fun x : World => In (EvFetch url 300000) (trace x)).
    assert (forall x e, J x -> J (addEvents x [e])) as Hev
        by (intros x e Hx; apply in_or_app; now left).
    assert (forall x d, J x -> J (withDisk x d)) as Hdisk
        by (intros x d Hx; exact Hx).
    apply (bind_establishes J); [apply download_fetches|]. intros _.
    apply keeps_bind; [now apply keeps_tarExtractAsync|]. intros _.
    apply keeps_bind; [now apply keeps_getAppPathAsync|].
    intros; apply keeps_ret.
Qed.

(** C3: with the cache directory in place and the locator failing in it,
    an [InternalError] (the ambiguous match) is rethrown as it is, with the
    disk untouched and no request issued; any other failure is swallowed
    and the call goes on exactly as a fresh download into the same
    directory, which is reused as it is, and issues the request. *)
Theorem C3_cache_failure_policy env url w w0 e w1 :
  let outputDir := cacheDirOf env url in
  _downloadsCacheDirectory env w = (Ok (cacheRoot env), w0) ->
  isDir outputDir (disk w0) = true ->
  getAppPathAsync outputDir bundleExtensions w0 = (Throw e, w1) ->
  if isInternalError e then
    downloadAndMaybeExtractAppAsync env url w = (Throw e, w1)
    /\ disk w1 = disk w0
    /\ filter isFetch (trace w1) = filter isFetch (trace w)
  else
    w1 = w0
    /\ downloadAndMaybeExtractAppAsync env url w
       = downloadFresh env url outputDir w0
    /\ mkdirp outputDir (disk w0) = Some (disk w0)
    /\ (endsWith url "apk" = true
        \/ mkdirp (path_join (tmpDir env) (uuidv4 env (uuidsDrawn w0)))
             (disk w0) <> None ->
        In (EvFetch url 300000)
          (trace (snd (downloadAndMaybeExtractAppAsync env url w)))).
Proof.
  intros outputDir Hcache Hdir Hlocate.
  assert (pathExists outputDir (disk w0) = true) as Hex.
  { unfold isDir in Hdir. unfold pathExists.
    destruct (lookup outputDir (disk w0)); [reflexivity|discriminate]. }
  assert (exists cs, lookup outputDir (disk w0) = Some (Dir cs)) as [cs Hcs].
  { unfold isDir in Hdir.
    destruct (lookup outputDir (disk w0)) as [[c|cs]|]; try discriminate.
    eauto. }
  assert (trace w0 = trace w) as Htrace.
  { apply cacheDirectory_returns in Hcache.
    destruct Hcache as (_ & d & _ & ->). reflexivity. }
  rewrite (orchestrator_after_cacheDirectory _ _ _ _ Hcache).
  fold outputDir.
  pose proof (lookInCache_present outputDir w0 Hex) as Hlook.
  rewrite Hlocate in Hlook.
  destruct (isInternalError e) eqn:He.
  - rewrite (bind_throw _ _ _ _ _ Hlook).
    destruct (getAppPathAsync_internal_failure _ _ _ _ _ Hlocate He)
      as [Hd Ht].
    repeat split; [exact Hd|congruence].
  - destruct (getAppPathAsync_plain_failure _ _ _ _ _ Hlocate He)
      as [-> Hnone].
    rewrite (bind_ok _ _ _ _ _ Hlook).
    pose proof (mkdirp_existing _ _ _ Hcs) as Hmk.
    repeat split; [exact Hmk|].
    intros Hcan. now apply downloadFresh_fetches.
Qed.

(** C10: with nothing usable in the cache and the cache directory made, a
    URL that ends in [apk], dot or no dot, is downloaded straight to a
    file in the cache directory whose name is the random identifier with
    [.apk] appended: the call is that download and returns its
    destination, the request is issued, the file is there when it
    returns, and no extractor runs.  A URL that does not end in [apk] is
    downloaded to [<tmp>/<id>/<id'>.tar.gz], and once that download
    returned the call is the extraction into the cache directory followed
    by the locator, and an extractor does run. *)
Theorem C10_raw_package_by_suffix env url w w0 d1 :
  let outputDir := cacheDirOf env url in
  let id := uuidv4 env (uuidsDrawn w0) in
  let start := withCounters (withDisk w0 d1) (S (uuidsDrawn w0)) (clockReads w0) in
  _downloadsCacheDirectory env w = (Ok (cacheRoot env), w0) ->
  lookInCache outputDir w0 = (Ok None, w0) ->
  mkdirp outputDir (disk w0) = Some d1 ->
  (endsWith url "apk" = true ->
   let apkFilePath := path_join outputDir (id ++ ".apk") in
   forall res w',
     downloadFileWithProgressTrackerAsync env url apkFilePath
       "Downloading app" "Successfully downloaded app" start = (res, w') ->
     downloadAndMaybeExtractAppAsync env url w
     = (match res with Ok _ => Ok apkFilePath | Throw e => Throw e end, w')
     /\ filter isExtraction (trace w') = filter isExtraction (trace w)
     /\ In (EvFetch url 300000) (trace w')
     /\ (exists dir stem, apkFilePath = dir ++ [(stem ++ ".apk")%string])
     /\ (res = Ok tt -> exists c, lookup apkFilePath (disk w') = Some (File c)))
  /\ (endsWith url "apk" = false ->
      let tmpArchivePathDir := path_join (tmpDir env) id in
      forall d2 w2,
        mkdirp tmpArchivePathDir d1 = Some d2 ->
        let id' := uuidv4 env (S (uuidsDrawn w0)) in
        let tmpArchivePath := path_join tmpArchivePathDir (id' ++ ".tar.gz") in
        downloadFileWithProgressTrackerAsync env url tmpArchivePath
          "Downloading app archive" "Successfully downloaded app archive"
          (withCounters (withDisk w0 d2) (S (S (uuidsDrawn w0))) (clockReads w0))
        = (Ok tt, w2) ->
        downloadAndMaybeExtractAppAsync env url w
        = (tarExtractAsync env tmpArchivePath outputDir ;;
           appPath <- getAppPathAsync outputDir bundleExtensions ;;
           ret appPath) w2
        /\ exists ev rest,
             filter isExtraction
               (trace (snd (downloadAndMaybeExtractAppAsync env url w)))
             = filter isExtraction (trace w2) ++ ev :: rest).
Proof.
  intros outputDir id start Hcache Hmiss Hmk.
  assert (trace w0 = trace w) as Htrace.
  { apply cacheDirectory_returns in Hcache.
    destruct Hcache as (_ & d & _ & ->). reflexivity. }
  rewrite (orchestrator_after_cacheDirectory _ _ _ _ Hcache).
  fold outputDir. rewrite (bind_ok _ _ _ _ _ Hmiss).
  unfold downloadFresh.
  rewrite (bind_ok _ _ _ _ _ (fs_mkdirp_run _ _ _ Hmk)).
  split.
  - intros Hapk. cbv zeta. intros res w' Hdl.
    set (apkFilePath := path_join outputDir (id ++ ".apk")) in *.
    rewrite Hapk.
    rewrite (bind_ok _ _ _ _ _ (uuid_run _ _)).
    change (withCounters (withDisk w0 d1) (S (uuidsDrawn (withDisk w0 d1)))
              (clockReads (withDisk w0 d1))) with start.
    change (uuidv4 env (uuidsDrawn (withDisk w0 d1))) with id.
    fold apkFilePath.
    split; [|split; [|split; [|split]]].
    + unfold bind. rewrite Hdl. destruct res; reflexivity.
    + pose proof (download_keeps
                    (fun x => filter isExtraction (trace x)
                              = filter isExtraction (trace w))
                    env url apkFilePath "Downloading app"
                    "Successfully downloaded app") as Hk.
      assert (filter isExtraction (trace start)
              = filter isExtraction (trace w)) as Hs
          by (cbn [start withCounters withDisk trace]; now rewrite Htrace).
      specialize (Hk ltac:(repeat split; intros; cbn [addEvents withCounters withDisk trace]; auto;
                           rewrite filter_app; cbn [filter];
                           match goal with H : isExtraction _ = false |- _ => rewrite H end;
                           rewrite app_nil_r; auto)
                     ltac:(intros; assumption) start Hs).
      now rewrite Hdl in Hk.
    + pose proof (download_fetches env url apkFilePath "Downloading app"
                    "Successfully downloaded app" start) as Hf.
      now rewrite Hdl in Hf.
    + apply path_join_apk.
    + intros ->. eapply download_returns_file; eauto.
  - intros Hapk. cbv zeta. intros d2 w2 Hmk2 Hdl.
    set (tmpArchivePathDir := path_join (tmpDir env) id) in *.
    set (id' := uuidv4 env (S (uuidsDrawn w0))) in *.
    set (tmpArchivePath := path_join tmpArchivePathDir (id' ++ ".tar.gz")) in *.
    rewrite Hapk.
    rewrite (bind_ok _ _ _ _ _ (uuid_run _ _)).
    change (uuidv4 env (uuidsDrawn (withDisk w0 d1))) with id.
    fold tmpArchivePathDir.
    match goal with
    | |- context [bind (fs_mkdirp ?p) _ ?x] =>
        rewrite (bind_ok _ _ _ _ _ (fs_mkdirp_run p x d2 Hmk2))
    end.
    rewrite (bind_ok _ _ _ _ _ (uuid_run _ _)).
    cbn [uuidsDrawn clockReads withDisk withCounters].
    change (uuidv4 env (S (uuidsDrawn w0))) with id'.
    fold tmpArchivePath.
    match goal with
    | |- context [bind ?m _ ?x] =>
        assert (m x = (Ok tt, w2)) as Hdl' by exact Hdl
    end.
    rewrite (bind_ok _ _ _ _ _ Hdl').
    split; [reflexivity|].
    destruct (tarExtractAsync_extracts env tmpArchivePath outputDir w2)
      as (ev & rest & Hex).
    pose proof (keeps_bind
                  (fun x => exists rest',
                       filter isExtraction (trace x)
                       = filter isExtraction (trace w2) ++ ev :: rest')
                  (getAppPathAsync outputDir bundleExtensions)
                  (fun appPath => ret appPath)) as Hk.
    assert (forall x (e : Event),
               (exists rest', filter isExtraction (trace x)
                              = filter isExtraction (trace w2) ++ ev :: rest') ->
               exists rest', filter isExtraction (trace (addEvents x [e]))
                              = filter isExtraction (trace w2) ++ ev :: rest')
      as Hev.
    { intros x e0 [r Hr]. cbn [addEvents trace]. rewrite filter_app, Hr.
      rewrite <- app_assoc. cbn [app]. eauto. }
    specialize (Hk ltac:(apply keeps_getAppPathAsync; exact Hev)
                   ltac:(intros; apply keeps_ret)).
    unfold bind at 1.
    destruct (tarExtractAsync env tmpArchivePath outputDir w2)
      as [[[]|e] w3] eqn:Et; cbn [snd] in Hex.
    + exists ev. apply (Hk w3). eauto.
    + cbn [snd]. eauto.
Qed.

(** ** The second call *)

Lemma withDisk_same w : withDisk w (disk w) = w.
Proof. destruct w; reflexivity. Qed.

Lemma lookInCache_returns od w hit w' :
  lookInCache od w = (Ok hit, w') ->
  w' = w
  /\ match hit with
     | Some p =>
         exists x, glob bundleExtensions od (disk w) = [x]
                   /\ p = path_join od x
     | None =>
         pathExists od (disk w) = false
         \/ glob bundleExtensions od (disk w) = []
     end.
Proof.
  destruct (pathExists od (disk w)) eqn:Hex.
  - rewrite (lookInCache_present _ _ Hex).
    destruct (getAppPathAsync od bundleExtensions w) as [[a|e] w2] eqn:Eg.
    + intros H; inversion H; subst.
      apply getAppPathAsync_returns in Eg. destruct Eg as [-> Hx]. auto.
    + destruct (isInternalError e) eqn:He; [discriminate|].
      intros H; inversion H; subst.
      apply getAppPathAsync_plain_failure in Eg; [|exact He].
      destruct Eg as [-> Hg]. auto.
  - rewrite (lookInCache_absent _ _ Hex).
    intros H; inversion H; subst. auto.
Qed.

(** The cache directory right after its [mkdir], when the cache gave
    nothing: a directory without a match. *)
Lemma cache_directory_without_match exts od d d1 :
  mkdirp od d = Some d1 ->
  pathExists od d = false \/ glob exts od d = [] ->
  exists cs,
    lookup od d1 = Some (Dir cs)
    /\ filter (fun rel => matchesExt exts (baseName rel)) (walk (Dir cs)) = [].
Proof.
  intros Hmk Hnone.
  destruct (lookup od d) as [x|] eqn:El.
  - destruct (mkdirp_present _ _ _ _ Hmk El) as [-> [cs ->]].
    exists cs. split; [exact El|].
    destruct Hnone as [Hex|Hg].
    + unfold pathExists in Hex. rewrite El in Hex. discriminate.
    + unfold glob in Hg. rewrite El in Hg. now apply map_eq_nil in Hg.
  - exists []. split; [|reflexivity]. now apply (mkdirp_absent _ _ _ Hmk).
Qed.

(** After a finished download of [dir/name] into a directory without a
    match, the file is the one match. *)
Lemma download_into_empty_cache env url exts dir name m cm w w' cs :
  matchesExt exts name = true ->
  lookup dir (disk w) = Some (Dir cs) ->
  filter (fun rel => matchesExt exts (baseName rel)) (walk (Dir cs)) = [] ->
  downloadFileWithProgressTrackerAsync env url (dir ++ [name]) m cm w
  = (Ok tt, w') ->
  glob exts dir (disk w') = [name].
Proof.
  intros Hm Hdir Hnone Hdl.
  apply download_returns in Hdl. destruct Hdl as (d0 & Hd0 & Hinv).
  set (Q := fun d : node =>
              exists cs' c0,
                lookup dir d = Some (Dir cs')
                /\ assoc name cs' = Some (File c0)
                /\ filter (fun rel => matchesExt exts (baseName rel))
                     (walk (Dir cs')) = [[name]]).
  assert (Q (disk w')) as (cs' & c0 & Hl & _ & Hf).
  { apply Hinv.
    - intros c d d' (cs' & c0 & Hl & Ha & Hf) Hw.
      destruct (writeFile_in_dir _ _ _ _ _ _ Hw Hl) as [Hl' _].
      exists (setEntry name (File c) cs'), c. split; [exact Hl'|].
      split; [apply assoc_setEntry_same|].
      now rewrite (walk_setEntry_file _ _ _ _ Ha).
    - destruct (writeFile_in_dir _ _ _ _ _ _ Hd0 Hdir) as [Hl' _].
      destruct (matches_after_first_write exts name "" cs Hm Hnone)
        as [Habs Hf].
      rewrite (setEntry_absent _ _ _ Habs) in Hl'.
      exists (cs ++ [(name, File "")]), "". split; [exact Hl'|].
      split; [now apply assoc_app_absent|exact Hf]. }
  unfold glob. rewrite Hl, Hf. reflexivity.
Qed.

(** A fresh download that returned left exactly one match in the cache
    directory, the path it returned. *)
Lemma downloadFresh_returns env url od w p w1 :
  (forall n, isUuid (uuidv4 env n) = true) ->
  pathExists od (disk w) = false \/ glob bundleExtensions od (disk w) = [] ->
  downloadFresh env url od w = (Ok p, w1) ->
  exists x, glob bundleExtensions od (disk w1) = [x] /\ p = path_join od x.
Proof.
  intros Huuid Hnone. unfold downloadFresh. intros H.
  apply bind_returns in H. destruct H as ([] & wa & Hmk & H).
  apply fs_mkdirp_returns in Hmk. destruct Hmk as (d1 & Hmk & ->).
  destruct (cache_directory_without_match _ _ _ _ Hmk Hnone)
    as (cs & Hdir & Hempty).
  destruct (endsWith url "apk").
  - apply bind_returns in H. destruct H as (id & wb & Hid & H).
    rewrite uuid_run in Hid. inversion Hid; subst id wb. clear Hid.
    apply bind_returns in H. destruct H as ([] & wc & Hdl & H).
    inversion H; subst. clear H.
    destruct (uuid_apk_segment od _ (Huuid (uuidsDrawn w)))
      as [Hpath Hmatch].
    exists (uuidv4 env (uuidsDrawn w) ++ ".apk")%string.
    split; [|reflexivity].
    eapply (download_into_empty_cache env url _ od); [exact Hmatch| | |].
    3:{ rewrite <- Hpath. exact Hdl. }
    + exact Hdir.
    + exact Hempty.
  - apply bind_returns in H. destruct H as (id & wb & _ & H).
    apply bind_returns in H. destruct H as ([] & wc & _ & H).
    apply bind_returns in H. destruct H as (id' & wd & _ & H).
    apply bind_returns in H. destruct H as ([] & we & _ & H).
    apply bind_returns in H. destruct H as ([] & wf & _ & H).
    apply bind_returns in H. destruct H as (appPath & wg & Hg & H).
    inversion H; subst. clear H.
    apply getAppPathAsync_returns in Hg. destruct Hg as [-> Hx]. exact Hx.
Qed.

(** With one match in the cache directory, a call returns it and changes
    nothing. *)
Lemma cache_hit env url w x :
  cacheName url <> ".." ->
  glob bundleExtensions (cacheDirOf env url) (disk w) = [x] ->
  downloadAndMaybeExtractAppAsync env url w
  = (Ok (path_join (cacheDirOf env url) x), w).
Proof.
  intros Hname Hg.
  destruct (glob_found_in_dir _ _ _ _ _ Hg) as [cs Hdir].
  destruct (cacheDir_below_root env url Hname) as [rest Hrest].
  rewrite Hrest in Hdir.
  destruct (lookup_prefix_dir _ _ _ _ Hdir) as [cs' Hroot].
  rewrite <- Hrest in Hdir.
  assert (_downloadsCacheDirectory env w = (Ok (cacheRoot env), w)) as Hcache.
  { rewrite cacheDirectory_run, (mkdirp_existing _ _ _ Hroot).
    now rewrite withDisk_same. }
  rewrite (orchestrator_after_cacheDirectory _ _ _ _ Hcache).
  assert (pathExists (cacheDirOf env url) (disk w) = true) as Hex
      by (unfold pathExists; now rewrite Hdir).
  pose proof (getAppPathAsync_one _ _ _ _ Hg) as C.
  assert (lookInCache (cacheDirOf env url) w
          = (Ok (Some (path_join (cacheDirOf env url) x)), w)) as Hlook
      by (now rewrite (lookInCache_present _ _ Hex), C).
  now rewrite (bind_ok _ _ _ _ _ Hlook).
Qed.

(** C2: after a call that returned a path, a second call with the same URL
    on the world the first one left returns the same path and changes
    nothing: the trace is the same, so no request is issued, and the disk,
    the UUID source and the clock are untouched.  The random names are
    taken to be well-formed UUIDs, and the one URL remainder whose cache
    directory would be the parent of the cache root is left out. *)
Theorem C2_second_call_is_a_cache_hit env url w p w1 :
  (forall n, isUuid (uuidv4 env n) = true) ->
  cacheName url <> ".." ->
  downloadAndMaybeExtractAppAsync env url w = (Ok p, w1) ->
  downloadAndMaybeExtractAppAsync env url w1 = (Ok p, w1).
Proof.
  intros Huuid Hname Hfirst.
  assert (exists x, glob bundleExtensions (cacheDirOf env url) (disk w1) = [x]
                    /\ p = path_join (cacheDirOf env url) x) as (x & Hg & ->).
  { unfold downloadAndMaybeExtractAppAsync in Hfirst. cbv zeta in Hfirst.
    apply bind_returns in Hfirst. destruct Hfirst as (r & w0 & Hcache & H).
    destruct (cacheDirectory_returns _ _ _ _ Hcache) as [-> _].
    apply bind_returns in H. destruct H as (hit & w0' & Hlook & H).
    apply lookInCache_returns in Hlook. destruct Hlook as [-> Hhit].
    destruct hit as [appPath|].
    - inversion H; subst. exact Hhit.
    - eapply downloadFresh_returns; eauto. }
  now apply cache_hit.
Qed.

(* ================================================================== *)
(** * The properties at work on the concrete environment *)

Lemma Demo_uuids_wellformed : forall n, isUuid (uuidv4 Demo.env n) = true.
Proof.
  intros n. cbn [uuidv4 Demo.env]. unfold Demo.uuidOf.
  pose proof (Nat.mod_upper_bound n 10 ltac:(lia)) as Hb.
  generalize dependent (n mod 10). intros k Hk.
  do 10 (destruct k as [|k]; [reflexivity|]). lia.
Qed.

Lemma C2_second_call_witness :
  exists p w1,
    downloadAndMaybeExtractAppAsync Demo.env Demo.apkUrl Demo.world = (Ok p, w1)
    /\ downloadAndMaybeExtractAppAsync Demo.env Demo.apkUrl w1 = (Ok p, w1).
Proof.
  destruct (downloadAndMaybeExtractAppAsync Demo.env Demo.apkUrl Demo.world)
    as [[p|e] w1] eqn:E; [|vm_compute in E; discriminate].
  exists p, w1. split; [reflexivity|].
  apply (C2_second_call_is_a_cache_hit Demo.env Demo.apkUrl Demo.world p w1).
  - exact Demo_uuids_wellformed.
  - vm_compute. discriminate.
  - exact E.
Defined.

Lemma C3_ambiguous_cache_witness :
  (exists e w1,
     downloadAndMaybeExtractAppAsync Demo.env Demo.archiveUrl Demo.ambiguousWorld
     = (Throw e, w1)
     /\ isInternalError e = true
     /\ filter isFetch (trace w1) = [])
  /\ In (EvFetch Demo.archiveUrl 300000)
       (trace (snd (downloadAndMaybeExtractAppAsync Demo.env Demo.archiveUrl
                      Demo.staleWorld))).
Proof.
  split.
  - destruct (_downloadsCacheDirectory Demo.env Demo.ambiguousWorld)
      as [[r|e0] w0] eqn:Ec; [|vm_compute in Ec; discriminate].
    assert (r = cacheRoot Demo.env) as ->
        by (vm_compute in Ec; inversion Ec; reflexivity).
    destruct (getAppPathAsync (cacheDirOf Demo.env Demo.archiveUrl)
                bundleExtensions w0) as [[a|e] w1] eqn:Eg.
    + vm_compute in Ec. inversion Ec; subst w0. vm_compute in Eg. discriminate.
    + assert (isInternalError e = true) as He.
      { vm_compute in Ec. inversion Ec; subst w0. vm_compute in Eg.
        inversion Eg; reflexivity. }
      pose proof (C3_cache_failure_policy Demo.env Demo.archiveUrl
                    Demo.ambiguousWorld w0 e w1 Ec) as H.
      cbv zeta in H. rewrite He in H.
      destruct (H ltac:(vm_compute in Ec; inversion Ec; reflexivity) Eg)
        as (Hrun & _ & Hfetch).
      exists e, w1. repeat split; [exact Hrun|exact He|].
      rewrite Hfetch. reflexivity.
  - assert (_downloadsCacheDirectory Demo.env Demo.staleWorld
            = (Ok (cacheRoot Demo.env), Demo.staleWorld)) as Ec
        by (vm_compute; reflexivity).
    assert (getAppPathAsync (cacheDirOf Demo.env Demo.archiveUrl)
              bundleExtensions Demo.staleWorld
            = (Throw (JsError "Did not find any installable apps inside tarball."),
               Demo.staleWorld)) as Eg
        by (vm_compute; reflexivity).
    assert (isDir (cacheDirOf Demo.env Demo.archiveUrl) (disk Demo.staleWorld)
            = true) as Hdir by (vm_compute; reflexivity).
    assert (mkdirp (path_join (tmpDir Demo.env)
                      (uuidv4 Demo.env (uuidsDrawn Demo.staleWorld)))
              (disk Demo.staleWorld) <> None) as Htmp
        by (vm_compute; discriminate).
    exact (proj2 (proj2 (proj2
             (C3_cache_failure_policy Demo.env Demo.archiveUrl
                Demo.staleWorld Demo.staleWorld _ _ Ec Hdir Eg)))
             (or_intror Htmp)).
Defined.

Lemma C4_fallback_witness :
  (exists w1 w2,
     tarExtractAsync Demo.envNative Demo.archivePath Demo.outDir Demo.world
     = (Ok tt, w1)
     /\ tarExtractAsync Demo.env Demo.archivePath Demo.outDir Demo.world
        = (Ok tt, w2)
     /\ disk w2 = disk w1
     /\ fst (getAppPathAsync Demo.outDir bundleExtensions w2)
        = Ok (Demo.outDir ++ ["payload"; "MyApp.app"])
     /\ fst (getAppPathAsync Demo.outDir bundleExtensions w1)
        = Ok (Demo.outDir ++ ["payload"; "MyApp.app"]))
  /\ (exists m, fst (spawnTool Demo.env
                       (addEvents Demo.blockedWorld
                          [EvSpawn "tar"
                             ["-xf"; path_to_string Demo.archivePath;
                              "-C"; path_to_string Demo.apkPath] "inherit"])
                       "tar"
                       ["-xf"; path_to_string Demo.archivePath;
                        "-C"; path_to_string Demo.apkPath]) = Some m).
Proof.
  split.
  - destruct (proj2 (proj2 (C4_tarExtractAsync_two_tiers Demo.envNative
                              Demo.archivePath Demo.outDir Demo.world))
                Demo.env "spawn tar ENOENT" eq_refl eq_refl
                (fun w0 command args0 => eq_refl)
                (fun wa wb (Hd : disk wa = disk wb) =>
                   f_equal (Demo.unpackInto Demo.outDir) Hd))
      as (w2 & E1 & E2 & Hd & _ & _ & Hsame).
    eexists. exists w2. split; [exact E1|]. split; [exact E2|].
    split; [exact Hd|].
    assert (fst (getAppPathAsync Demo.outDir bundleExtensions
                   (withDisk
                      (addEvents Demo.world
                         [EvSpawn "tar"
                            ["-xf"; path_to_string Demo.archivePath;
                             "-C"; path_to_string Demo.outDir] "inherit"])
                      (snd (spawnTool Demo.envNative
                              (addEvents Demo.world
                                 [EvSpawn "tar"
                                    ["-xf"; path_to_string Demo.archivePath;
                                     "-C"; path_to_string Demo.outDir]
                                    "inherit"])
                              "tar"
                              ["-xf"; path_to_string Demo.archivePath;
                               "-C"; path_to_string Demo.outDir]))))
            = Ok (Demo.outDir ++ ["payload"; "MyApp.app"])) as Hfound
        by (vm_compute; reflexivity).
    split; [exact (eq_trans Hsame Hfound)|exact Hfound].
  - destruct (tarExtractAsync Demo.env Demo.archivePath Demo.apkPath
                Demo.blockedWorld) as [[[]|e] w'] eqn:E;
      [vm_compute in E; discriminate|].
    exact (proj1 (proj1 (proj2 (C4_tarExtractAsync_two_tiers Demo.env
                                  Demo.archivePath Demo.apkPath
                                  Demo.blockedWorld)) e w' E) eq_refl).
Defined.

Lemma C5_final_call_witness :
  exists e,
    snd (onProgress (Fin 6) (Some 3%Z) 1100
           {| didProgressBarFinish := false;
              lastProgressCallTime := 1000;
              lengthSoFar := 3 |}) = Some e
    /\ isComplete e = true.
Proof.
  destruct (proj1 (proj2 (C5_progress_throttled_except_final (Fin 6) []))
              {| didProgressBarFinish := false;
                 lastProgressCallTime := 1000;
                 lengthSoFar := 3 |}
              (Some 3%Z) 1100%Z _ _ eq_refl eq_refl eq_refl)
    as (e & He & Hc & _).
  exists e. split; [exact He|exact Hc].
Defined.

Lemma C6_complete_transfer_witness :
  nonDecreasing
    (deliveries (Fin 6) (streamCalls [(1000%Z, "abc"); (1100%Z, "def")] 1200)
       initialProgressState)
  /\ finalEventComplete (Fin 6)
       (deliveries (Fin 6) (streamCalls [(1000%Z, "abc"); (1100%Z, "def")] 1200)
          initialProgressState).
Proof.
  destruct (C6_progress_latch_and_monotone (Fin 6)
              (streamCalls [(1000%Z, "abc"); (1100%Z, "def")] 1200))
    as (_ & Hmono & Hfinal & _).
  split.
  - apply Hmono. repeat constructor; simpl; lia.
  - apply Hfinal; [discriminate|reflexivity].
Defined.

(** C6 as stated fails on a transfer that succeeds: the body is longer
    than its [Content-Length] (a compressed response, decoded on the way),
    so no event is ever complete. *)
Lemma C6_longer_body_never_completes :
  ~ (latched
       (deliveries (Fin 4) (streamCalls [(1000%Z, "abcdef")] 2000)
          initialProgressState)
     /\ nonDecreasing
          (deliveries (Fin 4) (streamCalls [(1000%Z, "abcdef")] 2000)
             initialProgressState)
     /\ finalEventComplete (Fin 4)
          (deliveries (Fin 4) (streamCalls [(1000%Z, "abcdef")] 2000)
             initialProgressState)).
Proof.
  intros (_ & _ & t & e & Hlast & Hc & _).
  vm_compute in Hlast. inversion Hlast; subst. discriminate.
Qed.

Lemma C7_missing_header_witness :
  exists w',
    downloadFileWithProgressTrackerAsync Demo.env Demo.noLengthUrl Demo.apkPath
      "Downloading app" "Successfully downloaded app" Demo.world
    = (Ok tt, w')
    /\ lookup Demo.apkPath (disk w') = Some (File "abcdef")
    /\ filter isProgress (trace w') = [].
Proof.
  destruct (C7_invalid_content_length_disables_progress Demo.env
              Demo.noLengthUrl Demo.apkPath
              "Downloading app" "Successfully downloaded app" Demo.world
              {| ok := true; contentLength := None;
                 chunks := ["abc"; "def"]; failure := None |}
              eq_refl eq_refl eq_refl)
    as (_ & Hquiet & Hruns).
  destruct (Hruns (Dir [("tmp", Dir [("out", Dir [("app.apk", File "")])])])
              eq_refl eq_refl) as (w' & Hrun & Hfile).
  exists w'. split; [exact Hrun|]. split; [exact Hfile|].
  destruct (Hquiet _ _ Hrun) as (_ & Hp & _). exact Hp.
Defined.

Lemma C8_broken_download_witness :
  pathExists Demo.apkPath
    (disk (snd (downloadFileWithProgressTrackerAsync Demo.env Demo.brokenUrl
                  Demo.apkPath "Downloading app" "Successfully downloaded app"
                  Demo.world))) = false.
Proof.
  destruct (downloadFileWithProgressTrackerAsync Demo.env Demo.brokenUrl
              Demo.apkPath "Downloading app" "Successfully downloaded app"
              Demo.world) as [[[]|e] w'] eqn:E;
    [vm_compute in E; discriminate|].
  apply (proj2 (C8_failed_download_leaves_no_file _ _ _ _ _ _ _ _ E)).
  discriminate.
Defined.

(** A URL that ends in [myapk], without a dot, is treated as a raw
    package; one that ends in [.tar.gz] is unpacked. *)
Lemma C10_myapk_witness :
  (exists w',
     downloadAndMaybeExtractAppAsync Demo.env Demo.myapkUrl Demo.world
     = (Ok ["tmp"; "downloads-cache"; "example.com%2Fbuilds%2Fmyapk";
            "1b9d6bcd-bbfd-4b2d-9b5d-ab8dfbbd4be0.apk"], w')
     /\ filter isExtraction (trace w') = []
     /\ In (EvFetch Demo.myapkUrl 300000) (trace w'))
  /\ (exists ev rest,
        filter isExtraction
          (trace (snd (downloadAndMaybeExtractAppAsync Demo.env Demo.archiveUrl
                         Demo.world)))
        = ev :: rest).
Proof.
  destruct (_downloadsCacheDirectory Demo.env Demo.world)
    as [[r|e0] w0] eqn:Ec; [|vm_compute in Ec; discriminate].
  assert (r = cacheRoot Demo.env /\
          w0 = withDisk Demo.world
                 (Dir [("tmp", Dir [("out", Dir []);
                                    ("downloads-cache", Dir [])])]))
    as [-> Hw0] by (vm_compute in Ec; inversion Ec; split; reflexivity).
  split.
  - pose proof (C10_raw_package_by_suffix Demo.env Demo.myapkUrl Demo.world w0
                  (Dir [("tmp",
                         Dir [("out", Dir []);
                              ("downloads-cache",
                               Dir [("example.com%2Fbuilds%2Fmyapk", Dir [])])])])
                  Ec) as H.
    cbv zeta in H.
    destruct (H ltac:(subst w0; vm_compute; reflexivity)
                ltac:(subst w0; vm_compute; reflexivity)) as [Hapk _].
    clear H. specialize (Hapk eq_refl).
    match type of Hapk with
    | forall res w', ?dl = _ -> _ =>
        destruct dl as [res w'] eqn:Ed; specialize (Hapk res w' eq_refl)
    end.
    destruct Hapk as (Hrun & Hquiet & Hfetch & _ & _).
    assert (res = Ok tt) as ->
        by (subst w0; vm_compute in Ed; inversion Ed; reflexivity).
    exists w'. split; [|split].
    + rewrite Hrun. subst w0. reflexivity.
    + rewrite Hquiet. reflexivity.
    + exact Hfetch.
  - pose proof (C10_raw_package_by_suffix Demo.env Demo.archiveUrl Demo.world w0
                  (Dir [("tmp",
                         Dir [("out", Dir []);
                              ("downloads-cache",
                               Dir [("example.com%2Fbuilds%2Fapp.tar.gz",
                                     Dir [])])])])
                  Ec) as H.
    cbv zeta in H.
    destruct (H ltac:(subst w0; vm_compute; reflexivity)
                ltac:(subst w0; vm_compute; reflexivity)) as [_ Harchive].
    clear H. specialize (Harchive eq_refl).
    match type of Harchive with
    | forall d2 w2, ?mk = _ -> ?dl d2 = _ -> _ => idtac
    | forall d2 w2, ?mk = Some d2 -> _ =>
        destruct mk as [d2|] eqn:Emk;
          [|subst w0; vm_compute in Emk; discriminate];
        specialize (fun w2 => Harchive d2 w2 eq_refl)
    end.
    match type of Harchive with
    | forall w2, ?dl = _ -> _ =>
        destruct dl as [[[]|e] w2] eqn:Ed;
          [|subst w0; vm_compute in Emk; inversion Emk; subst d2;
            vm_compute in Ed; discriminate];
        specialize (Harchive w2 eq_refl)
    end.
    destruct Harchive as (_ & ev & rest & Hex).
    exists ev, rest. rewrite Hex.
    subst w0. vm_compute in Emk. inversion Emk; subst d2.
    vm_compute in Ed. inversion Ed; subst w2. reflexivity.
Defined.

(* ================================================================== *)
(** * Further properties of the module *)

(** ** The scheme prefix and the cache name *)

Lemma dropPrefix_sound (p s r : string) :
  dropPrefix p s = Some r -> s = (p ++ r)%string.
Proof.
  revert s; induction p as [|a p IH]; intros s; simpl.
  - intros H; inversion H; reflexivity.
  - destruct s as [|b s]; [discriminate|].
    destruct (Ascii.eqb_spec a b) as [->|]; [|discriminate].
    intros H. now rewrite (IH _ H).
Qed.

Lemma dropPrefix_app (p r : string) : dropPrefix p (p ++ r) = Some r.
Proof.
  induction p as [|a p IH]; simpl; [reflexivity|].
  now rewrite Ascii.eqb_refl.
Qed.

Lemma skipNonColon_run (pre rest : string) :
  memChar ":" pre = false ->
  skipNonColon (pre ++ String ":" rest) = (String.length pre, String ":" rest).
Proof.
  induction pre as [|c pre IH]; intros H.
  - reflexivity.
  - cbn [memChar] in H. apply orb_false_iff in H. destruct H as [Hc Hp].
    cbn [String.append skipNonColon String.length].
    rewrite Ascii.eqb_sym, Hc, (IH Hp). reflexivity.
Qed.

Lemma skipNonColon_split (s : string) :
  exists pre,
    s = (pre ++ snd (skipNonColon s))%string
    /\ String.length pre = fst (skipNonColon s)
    /\ memChar ":" pre = false.
Proof.
  induction s as [|c s (pre & Hs & Hl & Hm)].
  - exists "". repeat split.
  - cbn [skipNonColon]. destruct (Ascii.eqb c ":") eqn:Ec.
    + exists "". repeat split.
    + destruct (skipNonColon s) as [n t]. cbn [fst snd] in *.
      exists (String c pre). cbn [String.append String.length memChar].
      rewrite Ascii.eqb_sym, Ec, Hm, Hl, <- Hs. repeat split.
Qed.

Lemma stripScheme_prefixed (scheme rest : string) :
  scheme <> "" -> memChar ":" scheme = false ->
  stripScheme (scheme ++ "://" ++ rest) = rest.
Proof.
  intros Hne Hcol. unfold stripScheme.
  change ("://" ++ rest)%string with (String ":" ("//" ++ rest)).
  rewrite (skipNonColon_run _ _ Hcol).
  destruct scheme as [|c scheme]; [congruence|].
  cbn [String.length].
  change (String ":" ("//" ++ rest)) with ("://" ++ rest)%string.
  now rewrite dropPrefix_app.
Qed.

Lemma stripScheme_cases (url : string) :
  stripScheme url = url
  \/ exists scheme rest,
       scheme <> "" /\ memChar ":" scheme = false
       /\ url = (scheme ++ "://" ++ rest)%string
       /\ stripScheme url = rest.
Proof.
  unfold stripScheme.
  destruct (skipNonColon_split url) as (pre & Hs & Hl & Hm).
  destruct (skipNonColon url) as [[|n] t]; [now left|].
  cbn [fst snd] in *.
  destruct (dropPrefix "://" t) as [r|] eqn:Ed; [|now left].
  right. exists pre, r. apply dropPrefix_sound in Ed.
  repeat split; auto.
  - intros ->. discriminate.
  - now rewrite Hs, Ed.
Qed.

(** X1: the regex strips exactly one scheme prefix: a URL made of a
    non-empty, colon-free scheme, [://] and a remainder is mapped to the
    remainder, and every other string is left as it is. *)
Theorem X1_stripScheme_exact (url : string) :
  (forall scheme rest,
     scheme <> "" -> memChar ":" scheme = false ->
     url = (scheme ++ "://" ++ rest)%string ->
     stripScheme url = rest)
  /\ (stripScheme url = url
      \/ exists scheme rest,
           scheme <> "" /\ memChar ":" scheme = false
           /\ url = (scheme ++ "://" ++ rest)%string
           /\ stripScheme url = rest).
Proof.
  split.
  - intros scheme rest Hne Hcol ->. now apply stripScheme_prefixed.
  - apply stripScheme_cases.
Qed.

Lemma X1_stripScheme_witness :
  stripScheme "ftp://host/a:b://c" = "host/a:b://c".
Proof.
  apply (proj1 (X1_stripScheme_exact "ftp://host/a:b://c") "ftp");
    [discriminate|reflexivity|reflexivity].
Defined.

Lemma encodeChar_alphabet_table :
  forallb (fun c =>
     allChars (fun x => uriUnreserved x || Ascii.eqb x "%") (encodeChar c)
     && (if uriUnreserved c then String.eqb (encodeChar c) (String c "")
         else (String.length (encodeChar c) =? 3)%nat))
    (map ascii_of_nat (seq 0 256)) = true.
Proof. vm_compute. reflexivity. Qed.

Lemma encodeChar_shape (c : ascii) :
  allChars (fun x => uriUnreserved x || Ascii.eqb x "%") (encodeChar c) = true
  /\ (if uriUnreserved c then encodeChar c = String c ""
      else String.length (encodeChar c) = 3%nat).
Proof.
  pose proof encodeChar_alphabet_table as T. rewrite forallb_forall in T.
  specialize (T c (every_ascii_listed c)).
  apply andb_true_iff in T. destruct T as [Ta Tb]. split; [exact Ta|].
  destruct (uriUnreserved c); [now apply String.eqb_eq|now apply Nat.eqb_eq].
Qed.

Lemma encodeURIComponent_length (s : string) :
  (String.length s <= String.length (encodeURIComponent s)
   <= 3 * String.length s)%nat.
Proof.
  induction s as [|c s IH]; simpl; [lia|].
  rewrite string_length_app.
  destruct (encodeChar_shape c) as [_ H].
  destruct (uriUnreserved c); [rewrite H; simpl; lia|rewrite H; lia].
Qed.

Lemma encodeURIComponent_alphabet (s : string) :
  allChars (fun x => uriUnreserved x || Ascii.eqb x "%")
    (encodeURIComponent s) = true.
Proof.
  induction s as [|c s IH]; simpl; [reflexivity|].
  rewrite allChars_app, IH. now destruct (encodeChar_shape c) as [-> _].
Qed.

Lemma encodeURIComponent_fixed_point (s : string) :
  encodeURIComponent s = s <-> allChars uriUnreserved s = true.
Proof.
  induction s as [|c s IH]; simpl; [tauto|].
  destruct (encodeChar_shape c) as [_ H].
  destruct (uriUnreserved c) eqn:Eu; simpl.
  - rewrite H. simpl. split.
    + intros E. injection E as E. now apply (proj1 IH).
    + intros E. f_equal. now apply (proj2 IH).
  - split; [|discriminate]. intros E.
    apply (f_equal String.length) in E.
    rewrite string_length_app, H in E. simpl in E.
    pose proof (encodeURIComponent_length s). lia.
Qed.

Lemma stripScheme_length (url : string) :
  (String.length (stripScheme url) <= String.length url)%nat.
Proof.
  destruct (stripScheme_cases url) as [->|(scheme & rest & _ & _ & Hu & ->)];
    [lia|].
  rewrite Hu, !string_length_app. lia.
Qed.

(** X2: the cache name of a URL is written with unreserved characters and
    [%] only, so with no path separator, colon or space, and with ASCII
    characters only; its length is at most three times the number of bytes
    of the URL's UTF-8 form (not of its JavaScript [length]: a character
    outside ASCII is one or two UTF-16 units but two to four bytes, each of
    which becomes three characters); and it is the URL's remainder itself
    exactly when the remainder has unreserved characters only. *)
Theorem X2_cacheName_alphabet_and_length (url : string) :
  allChars (fun x => uriUnreserved x || Ascii.eqb x "%") (cacheName url) = true
  /\ (String.length (cacheName url) <= 3 * utf8Length url)%nat
  /\ (cacheName url = stripScheme url
      <-> allChars uriUnreserved (stripScheme url) = true).
Proof.
  unfold cacheName, utf8Length.
  split; [apply encodeURIComponent_alphabet|]. split.
  - pose proof (encodeURIComponent_length (stripScheme url)).
    pose proof (stripScheme_length url). lia.
  - apply encodeURIComponent_fixed_point.
Qed.

(** X3: the cache directories do not nest: the name of a URL is one path
    segment, so its cache directory is a direct child of the cache root,
    except for the three remainders that are not names: the empty one and
    [.] give the cache root itself, [..] the temporary directory. *)
Theorem X3_cache_directory_is_one_level env url :
  cacheRoot env = tmpDir env ++ ["downloads-cache"]
  /\ cacheDirOf env url
     = (if String.eqb (stripScheme url) "" || String.eqb (stripScheme url) "."
        then tmpDir env ++ ["downloads-cache"]
        else if String.eqb (stripScheme url) ".." then tmpDir env
        else tmpDir env ++ ["downloads-cache"; cacheName url]).
Proof.
  assert (cacheRoot env = tmpDir env ++ ["downloads-cache"]) as Hroot
      by reflexivity.
  split; [exact Hroot|]. unfold cacheDirOf.
  rewrite path_join_one_segment by apply encodeURIComponent_no_slash.
  rewrite Hroot. unfold joinSegment.
  assert (forall t, encodeURIComponent t = t ->
            String.eqb (cacheName url) t = String.eqb (stripScheme url) t)
    as Hsame.
  { intros t Ht. unfold cacheName.
    destruct (String.eqb_spec (stripScheme url) t) as [->|Hne].
    - rewrite Ht. apply String.eqb_refl.
    - apply String.eqb_neq. intros E. rewrite <- Ht in E.
      now apply encodeURIComponent_injective in E. }
  rewrite !Hsame by reflexivity.
  destruct (String.eqb (stripScheme url) "" || String.eqb (stripScheme url) ".");
    [reflexivity|].
  destruct (String.eqb (stripScheme url) "..").
  - now rewrite removelast_last.
  - now rewrite <- app_assoc.
Qed.

(** ** What the progress events say *)

Lemma onProgress_event tot chunkLength t st st' e :
  onProgress tot chunkLength t st = (st', Some e) ->
  total (progress e) = tot
  /\ percent (progress e) = divide (lengthSoFar st') tot.
Proof.
  unfold onProgress. destruct (negb _ && _); intros H; inversion H; subst.
  split; reflexivity.
Qed.

Lemma bytesOf_cons t c rest :
  bytesOf ((t, c) :: rest)
  = (match c with Some n => n | None => 0 end + bytesOf rest)%Z.
Proof. unfold bytesOf. simpl. destruct c; lia. Qed.

Lemma bytesOf_app a b : bytesOf (a ++ b) = (bytesOf a + bytesOf b)%Z.
Proof.
  induction a as [|[t c] a IH]; [reflexivity|].
  cbn [app]. rewrite !bytesOf_cons, IH. lia.
Qed.

Lemma delivered_event_reports tot calls :
  forall st t e,
    In (t, e) (deliveries tot calls st) ->
    exists pre c post,
      calls = pre ++ (t, c) :: post
      /\ transferred (progress e)
         = (lengthSoFar st + bytesOf (pre ++ [(t, c)]))%Z
      /\ total (progress e) = tot
      /\ percent (progress e) = divide (transferred (progress e)) tot
      /\ isComplete e = strictEq (transferred (progress e)) tot.
Proof.
  induction calls as [|[t0 c0] rest IH]; intros st t e Hin; [destruct Hin|].
  cbn [deliveries] in Hin.
  destruct (onProgress tot c0 t0 st) as [st' o] eqn:Hp.
  pose proof (onProgress_length _ _ _ _ _ _ Hp) as Hlen.
  assert (In (t, e) (deliveries tot rest st') ->
          exists pre c post,
            (t0, c0) :: rest = pre ++ (t, c) :: post
            /\ transferred (progress e)
               = (lengthSoFar st + bytesOf (pre ++ [(t, c)]))%Z
            /\ total (progress e) = tot
            /\ percent (progress e) = divide (transferred (progress e)) tot
            /\ isComplete e = strictEq (transferred (progress e)) tot) as Hlater.
  { intros H. destruct (IH _ _ _ H) as (pre & c & post & -> & Ht & Hrest).
    exists ((t0, c0) :: pre), c, post. split; [reflexivity|].
    split; [|exact Hrest].
    rewrite Ht, Hlen. cbn [app]. rewrite bytesOf_cons. destruct c0; lia. }
  destruct o as [e0|]; [|auto].
  destruct Hin as [Heq|Hin]; [|auto].
  inversion Heq; subst t0 e0.
  destruct (onProgress_event _ _ _ _ _ _ Hp) as [Htot Hpct].
  apply onProgress_fires in Hp. destruct Hp as (_ & _ & _ & Ht & Hc & _).
  exists [], c0, rest. cbn [app]. rewrite bytesOf_cons.
  unfold bytesOf at 1. cbn [fold_right].
  repeat split; auto.
  - rewrite Ht, Hlen. destruct c0; lia.
  - now rewrite Ht.
  - now rewrite Ht.
Qed.

(** X4: every event the handler receives reports the bytes received so
    far: it belongs to one of the calls and carries the sum of the chunk
    lengths up to and including that call, the total, their quotient as the
    percentage, and [isComplete] exactly when the two are equal. *)
Theorem X4_progress_events_report_running_total (tot : JsNum)
  (calls : list (Z * option Z)) (t : Z) (e : ProgressEvent) :
  In (t, e) (deliveries tot calls initialProgressState) ->
  exists pre c post,
    calls = pre ++ (t, c) :: post
    /\ transferred (progress e) = bytesOf (pre ++ [(t, c)])
    /\ total (progress e) = tot
    /\ percent (progress e) = divide (transferred (progress e)) tot
    /\ isComplete e = strictEq (transferred (progress e)) tot.
Proof.
  intros Hin.
  destruct (delivered_event_reports _ _ _ _ _ Hin)
    as (pre & c & post & Hc & Ht & Hrest).
  exists pre, c, post. split; [exact Hc|]. split; [|exact Hrest].
  rewrite Ht. reflexivity.
Qed.

Lemma X4_running_total_witness :
  exists pre c post,
    streamCalls [(1000%Z, "abc"); (1100%Z, "def")] 1200
    = pre ++ (1100%Z, c) :: post
    /\ bytesOf (pre ++ [(1100%Z, c)]) = 6%Z.
Proof.
  destruct (X4_progress_events_report_running_total (Fin 6)
              (streamCalls [(1000%Z, "abc"); (1100%Z, "def")] 1200) 1100%Z
              {| progress :=
                   {| total := Fin 6; percent := Fin (6 # 6);
                      transferred := 6 |};
                 isComplete := true |})
    as (pre & c & post & Hc & Ht & _).
  - vm_compute. right. left. reflexivity.
  - exists pre, c, post. split; [exact Hc|]. now rewrite <- Ht.
Defined.

(** X5: a transfer announced as empty: with a total of zero the first
    call that brings no bytes delivers the one and only event, complete,
    with nothing transferred and a percentage that is not a number, since
    it is zero divided by zero. *)
Theorem X5_empty_transfer_reports_NaN_percent (t : Z) (c : option Z)
  (rest : list (Z * option Z)) :
  c = None \/ c = Some 0%Z ->
  deliveries (Fin 0) ((t, c) :: rest) initialProgressState
  = [(t, {| progress :=
              {| total := Fin 0; percent := NaN; transferred := 0 |};
            isComplete := true |})].
Proof.
  intros Hc. cbn [deliveries].
  assert (onProgress (Fin 0) c t initialProgressState
          = ({| didProgressBarFinish := true;
                lastProgressCallTime := t;
                lengthSoFar := 0 |},
             Some {| progress :=
                       {| total := Fin 0; percent := NaN; transferred := 0 |};
                     isComplete := true |})) as ->.
  { unfold onProgress.
    destruct Hc as [->| ->]; cbn [initialProgressState lengthSoFar
      didProgressBarFinish lastProgressCallTime negb andb Z.eqb];
      change (strictEq 0 (Fin 0)) with true; rewrite orb_true_r;
      reflexivity. }
  now rewrite deliveries_finished.
Qed.

Lemma X5_empty_transfer_witness :
  deliveries (Fin 0) (streamCalls [] 1700000000000) initialProgressState
  = [(1700000000000%Z,
      {| progress := {| total := Fin 0; percent := NaN; transferred := 0 |};
         isComplete := true |})].
Proof.
  apply (X5_empty_transfer_reports_NaN_percent 1700000000000 None []).
  left. reflexivity.
Defined.

Lemma beyond_not_equal n tot : beyond n tot = true -> strictEq n tot = false.
Proof.
  destruct tot as [|b|q]; simpl; try reflexivity.
  intros H. apply negb_true_iff in H.
  destruct (Qeq_bool (inject_Z n) q) eqn:E; [|reflexivity].
  apply Qeq_bool_iff in E.
  assert (Qle_bool (inject_Z n) q = true) as Hle.
  { apply Qle_bool_iff. rewrite E. apply Qle_refl. }
  congruence.
Qed.

Lemma beyond_grows n k tot :
  (0 <= k)%Z -> beyond n tot = true -> beyond (n + k) tot = true.
Proof.
  destruct tot as [|b|q]; simpl; try reflexivity.
  intros Hk H. apply negb_true_iff in H. apply negb_true_iff.
  destruct (Qle_bool (inject_Z (n + k)) q) eqn:E; [|reflexivity].
  apply Qle_bool_iff in E.
  assert (Qle_bool (inject_Z n) q = true) as Hle.
  { apply Qle_bool_iff. eapply Qle_trans; [|exact E].
    rewrite <- Zle_Qle. lia. }
  congruence.
Qed.

(** X6: once the bytes received exceed the total, or when the total is
    not a finite number, no event is ever complete: the bar never
    finishes, however the transfer goes on. *)
Theorem X6_overshoot_never_completes (tot : JsNum)
  (calls : list (Z * option Z)) (st : ProgressState) :
  beyond (lengthSoFar st) tot = true ->
  chunkLengthsOk calls ->
  Forall (fun d => isComplete (snd d) = false) (deliveries tot calls st)
  /\ didProgressBarFinish (stateAfter tot calls st) = didProgressBarFinish st.
Proof.
  unfold chunkLengthsOk.
  revert st; induction calls as [|[t c] rest IH]; intros st Hb Hok.
  - split; [constructor|reflexivity].
  - inversion Hok as [|? ? Hc Hrest]; subst. simpl in Hc.
    cbn [deliveries stateAfter].
    destruct (onProgress tot c t st) as [st' o] eqn:Hp. cbn [fst].
    pose proof (onProgress_length _ _ _ _ _ _ Hp) as Hlen.
    assert (beyond (lengthSoFar st') tot = true) as Hb'.
    { rewrite Hlen. destruct c as [n|]; [now apply beyond_grows|exact Hb]. }
    destruct (IH st' Hb' Hrest) as [Hall Hfin].
    destruct o as [e|].
    + apply onProgress_fires in Hp.
      destruct Hp as (Hf & _ & Hd & _ & Hc' & _).
      assert (isComplete e = false) as He
          by (rewrite Hc'; now apply beyond_not_equal).
      split; [constructor; [exact He|exact Hall]|].
      rewrite Hfin, Hd, He. now rewrite Hf.
    + apply onProgress_silent in Hp. destruct Hp as (Hd & _ & _).
      split; [exact Hall|]. now rewrite Hfin.
Qed.

Lemma X6_overshoot_witness :
  Forall (fun d => isComplete (snd d) = false)
    (deliveries (Fin 4) (streamCalls [(1000%Z, "abcdef"); (2000%Z, "gh")] 3000)
       {| didProgressBarFinish := false;
          lastProgressCallTime := 0;
          lengthSoFar := 5 |}).
Proof.
  apply (X6_overshoot_never_completes (Fin 4)
           (streamCalls [(1000%Z, "abcdef"); (2000%Z, "gh")] 3000)).
  - reflexivity.
  - repeat constructor; simpl; lia.
Defined.

(** ** What the disk operations leave alone *)

Lemma assoc_setEntry_other {A : Type} (k k' : string) (v : A) l :
  String.eqb k' k = false -> assoc k' (setEntry k v l) = assoc k' l.
Proof.
  intros Hne. induction l as [|[k0 v0] l IH]; simpl.
  - now rewrite Hne.
  - destruct (String.eqb_spec k k0) as [->|Hk]; simpl.
    + now rewrite Hne.
    + destruct (String.eqb k' k0); auto.
Qed.

Lemma assoc_app_other {A : Type} (k k' : string) (v : A) l :
  String.eqb k' k = false -> assoc k' (l ++ [(k, v)]) = assoc k' l.
Proof.
  intros Hne. induction l as [|[k0 v0] l IH]; simpl.
  - now rewrite Hne.
  - destruct (String.eqb k' k0); auto.
Qed.


Lemma assoc_withoutName_other {A : Type} (k k' : string)
  (l : list (string * A)) :
  String.eqb k k' = false -> assoc k' (withoutName k l) = assoc k' l.
Proof.
  intros Hne. unfold withoutName.
  induction l as [|[k0 v0] l IH]; simpl; [reflexivity|].
  destruct (String.eqb_spec k k0) as [->|Hk]; simpl.
  - rewrite IH. destruct (String.eqb_spec k' k0) as [->|]; [|reflexivity].
    rewrite String.eqb_refl in Hne. discriminate.
  - destruct (String.eqb k' k0); auto.
Qed.

(** A write to [p] is seen only at [p] and on the way to it. *)
Lemma writeFile_frame (p : fspath) (c : string) :
  forall (d d' : node) (q : fspath),
    writeFile p c d = Some d' -> prefixPath q p = false ->
    lookup q d' = lookup q d.
Proof.
  induction p as [|s p IH]; intros d d' q Hw Hq.
  - destruct q; [discriminate|]. simpl in Hw.
    destruct d; [|discriminate]. inversion Hw; subst. reflexivity.
  - destruct q as [|t q]; [discriminate|].
    cbn [prefixPath] in Hq. cbn [writeFile] in Hw.
    destruct d as [c0|cs]; [discriminate|].
    destruct (assoc s cs) as [child|] eqn:Ea.
    + destruct (writeFile p c child) as [child'|] eqn:Ew; [|discriminate].
      inversion Hw; subst. cbn [lookup].
      destruct (String.eqb_spec t s) as [->|Hne].
      * rewrite assoc_setEntry_same, Ea. simpl in Hq. eauto.
      * rewrite assoc_setEntry_other; [reflexivity|].
        now apply String.eqb_neq.
    + destruct p; [|discriminate]. inversion Hw; subst. cbn [lookup].
      destruct (String.eqb_spec t s) as [->|Hne].
      * rewrite assoc_app_absent by exact Ea. rewrite Ea.
        simpl in Hq. destruct q; [discriminate|reflexivity].
      * rewrite assoc_app_other; [reflexivity|]. now apply String.eqb_neq.
Qed.

Lemma assoc_map_below (s t : string) (f : node -> node) cs :
  assoc t (map (fun kc => if String.eqb s (fst kc)
                          then (fst kc, f (snd kc)) else kc) cs)
  = if String.eqb s t then option_map f (assoc t cs) else assoc t cs.
Proof.
  induction cs as [|[k v] cs IH]; simpl.
  - destruct (String.eqb s t); reflexivity.
  - destruct (String.eqb_spec s k) as [->|Hsk]; simpl.
    + destruct (String.eqb_spec t k) as [->|Htk].
      * now rewrite String.eqb_refl.
      * exact IH.
    + destruct (String.eqb_spec t k) as [->|Htk]; [|exact IH].
      destruct (String.eqb_spec s k); [congruence|reflexivity].
Qed.

(** A removal of [p] is not seen at a path unrelated to [p]. *)
Lemma remove_frame (p : fspath) :
  forall (d : node) (q : fspath),
    unrelated p q = true -> lookup q (remove p d) = lookup q d.
Proof.
  unfold unrelated.
  induction p as [|s p IH]; intros d q Hu; [discriminate|].
  destruct q as [|t q]; [simpl in Hu; discriminate|].
  cbn [remove]. destruct d as [c0|cs]; [reflexivity|].
  cbn [prefixPath] in Hu. destruct p as [|s' p].
  - cbn [lookup]. fold (withoutName s cs).
    rewrite assoc_withoutName_other; [reflexivity|].
    simpl in Hu. rewrite andb_true_r in Hu.
    apply andb_true_iff in Hu. destruct Hu as [Hu _].
    now apply negb_true_iff in Hu.
  - cbn [lookup]. rewrite assoc_map_below.
    destruct (String.eqb_spec s t) as [->|Hne]; [|reflexivity].
    rewrite String.eqb_refl in Hu. cbn [andb] in Hu.
    destruct (assoc t cs) as [child|]; [|reflexivity]. cbn [option_map].
    now apply IH.
Qed.





(** ** What a download writes, reports and leaves alone *)

Lemma wrapFetchWithProgress_returns env url init h w t w' :
  wrapFetchWithProgress env url init h w = (Ok t, w') ->
  network env (addEvents w [EvFetch url (timeout init)]) url
  = FetchResponds (response t)
  /\ listeners t
     = (if tracksProgress env (response t)
        then Some (numberOfHeader env (contentLength (response t)), h)
        else None)
  /\ filter isProgress (trace w') = filter isProgress (trace w)
  /\ clockReads w' = clockReads w.
Proof.
  unfold wrapFetchWithProgress, fetch, tracksProgress. mrun.
  change {| disk := disk w; trace := trace w ++ [EvFetch url (timeout init)];
            uuidsDrawn := uuidsDrawn w; clockReads := clockReads w |}
    with (addEvents w [EvFetch url (timeout init)]).
  destruct (network env _ url) as [msg|r]; [discriminate|].
  destruct (ok r) eqn:Hok; cbn [andb].
  - destruct (falsy _ || _ || _) eqn:Hbad; intros H; inversion H; subst;
      cbn [response listeners trace clockReads addEvents];
      rewrite Hok, Hbad; cbn [andb negb]; repeat split;
      rewrite !filter_app; cbn [filter isProgress]; now rewrite !app_nil_r.
  - intros H; inversion H; subst.
    cbn [response listeners trace clockReads addEvents]. rewrite Hok.
    cbn [andb]. repeat split.
    rewrite !filter_app; cbn [filter isProgress]; now rewrite !app_nil_r.
Qed.

Lemma notify_disk env l c st w :
  trackerListeners l -> disk (snd (notify env l c st w)) = disk w.
Proof.
  intros Hl.
  apply (keeps_notify (fun x => disk x = disk w)); auto.
Qed.

Lemma pump_returns_content env l p chunks :
  trackerListeners l ->
  forall written st w st' w',
    pump env l p chunks written st w = (Ok st', w') ->
    lookup p (disk w) = Some (File written) ->
    lookup p (disk w')
    = Some (File (written ++ fold_right String.append "" chunks)).
Proof.
  intros Hl. induction chunks as [|chunk rest IH];
    intros written st w st' w' Hrun Hfile.
  - inversion Hrun; subst. cbn [fold_right]. now rewrite string_app_nil_r.
  - cbn [pump] in Hrun.
    apply bind_returns in Hrun. destruct Hrun as (st1 & w1 & Hn & Hrun).
    apply bind_returns in Hrun. destruct Hrun as ([] & w2 & Hw & Hrun).
    apply fs_write_returns in Hw. destruct Hw as (d & Hd & ->).
    cbn [fold_right]. rewrite <- string_app_assoc.
    apply (IH _ _ _ _ _ Hrun). cbn [withDisk disk].
    eapply writeFile_lookup; eauto.
Qed.

(** What a download that returned went through. *)
Lemma download_returns_steps env url p m cm w w' :
  downloadFileWithProgressTrackerAsync env url p m cm w = (Ok tt, w') ->
  exists t w2,
    wrapFetchWithProgress env url {| timeout := 1000 * 60 * 5 |}
      (createProgressTracker m cm) (addEvents w [EvLog NewLine ""])
    = (Ok t, w2)
    /\ ok (response t) = true
    /\ pipeline env t p w2 = (Ok tt, w').
Proof.
  rewrite download_unfold. unfold tryCatch.
  match goal with
  | |- context [match ?x with _ => _ end] => destruct x as [[[]|e] w3] eqn:Eb
  end.
  2:{ intros H. pose proof (download_catch_throws p e w3) as Hc.
      rewrite H in Hc. discriminate. }
  intros H; inversion H; subst w3. clear H.
  apply bind_returns in Eb. destruct Eb as (t & w2 & Hf & Hk).
  exists t, w2. split; [exact Hf|].
  destruct (ok (response t)); [auto|discriminate].
Qed.

(** X8: a download that returns has written the whole body: the server
    answered with a success status, the body ended well, and the file at
    the destination holds its chunks in order, whether or not progress was
    tracked. *)
Theorem X8_download_writes_whole_body env url p m cm w w' :
  downloadFileWithProgressTrackerAsync env url p m cm w = (Ok tt, w') ->
  exists r,
    network env
      (addEvents (addEvents w [EvLog NewLine ""]) [EvFetch url 300000]) url
    = FetchResponds r
    /\ ok r = true
    /\ failure r = None
    /\ lookup p (disk w') = Some (File (bodyOf r)).
Proof.
  intros Hrun.
  destruct (download_returns_steps _ _ _ _ _ _ _ Hrun)
    as (t & w2 & Hf & Hok & Hp).
  assert (trackerListeners (listeners t)) as Hl.
  { destruct (wrapFetchWithProgress_listeners _ _ _ _ _ _ _ Hf)
      as [->|[tot ->]]; [left; reflexivity|right; eauto]. }
  destruct (wrapFetchWithProgress_returns _ _ _ _ _ _ _ Hf) as (Hnet & _).
  exists (response t). split; [exact Hnet|]. split; [exact Hok|].
  unfold pipeline in Hp.
  apply bind_returns in Hp. destruct Hp as ([] & w3 & Hopen & Hp).
  apply fs_write_returns in Hopen. destruct Hopen as (d0 & Hd0 & ->).
  apply bind_returns in Hp. destruct Hp as (st & w4 & Hpump & Hp).
  destruct (failure (response t)) as [msg|]; [discriminate|].
  split; [reflexivity|].
  apply bind_returns in Hp. destruct Hp as (st' & w5 & Hn & Hp).
  inversion Hp; subst w5. clear Hp.
  pose proof (notify_disk env (listeners t) None st w4 Hl) as Hd.
  rewrite Hn in Hd. cbn [snd] in Hd. rewrite Hd.
  apply (pump_returns_content env _ p _ Hl _ _ _ _ _ Hpump).
  cbn [withDisk disk]. eapply writeFile_lookup; eauto.
Qed.

(** X9: however a download ends, it changes the disk only at its
    destination and on the way to it: whatever lies at a path that neither
    leads to the destination nor lies below it is as it was. *)
Theorem X9_download_touches_only_its_destination env url p m cm w q :
  unrelated p q = true ->
  lookup q (disk (snd (downloadFileWithProgressTrackerAsync env url p m cm w)))
  = lookup q (disk w).
Proof.
  intros Hu.
  assert (prefixPath q p = false) as Hq.
  { unfold unrelated in Hu. apply andb_true_iff in Hu.
    destruct Hu as [_ Hu]. now apply negb_true_iff in Hu. }
  apply (download_keeps (fun x => lookup q (disk x) = lookup q (disk w)));
    [|intros x Hx|reflexivity].
  - repeat split.
    + intros x e _ Hx. exact Hx.
    + intros x u c Hx. exact Hx.
    + intros x c d Hx Hw. cbn [withDisk disk].
      now rewrite (writeFile_frame _ _ _ _ _ Hw Hq).
  - cbn [withDisk disk]. now rewrite remove_frame.
Qed.

(** X10: when the request throws, or the response has no success status,
    the download throws the request's error, respectively [Failed to
    download file from <url>]; nothing is written and no progress is
    reported, but whatever was at the destination before is removed. *)
Theorem X10_download_fails_before_the_body env url p m cm w :
  let w1 := addEvents w [EvLog NewLine ""] in
  let w2 := addEvents w1 [EvFetch url 300000] in
  let cleaned :=
    if pathExists p (disk w) then remove p (disk w) else disk w in
  let run := downloadFileWithProgressTrackerAsync env url p m cm w in
  (forall msg,
     network env w2 url = FetchThrows msg ->
     fst run = Throw (JsError msg)
     /\ trace (snd run) = trace w2 /\ disk (snd run) = cleaned)
  /\ (forall r,
        network env w2 url = FetchResponds r -> ok r = false ->
        fst run = Throw (JsError ("Failed to download file from " ++ url))
        /\ trace (snd run) = trace w2 /\ disk (snd run) = cleaned).
Proof.
  intros w1 w2 cleaned run. unfold run, cleaned.
  rewrite download_unfold. fold w1.
  unfold wrapFetchWithProgress, fetch. mrun. cbn [timeout].
  change (1000 * 60 * 5)%Z with 300000%Z.
  change {| disk := disk w1; trace := trace w1 ++ [EvFetch url 300000];
            uuidsDrawn := uuidsDrawn w1; clockReads := clockReads w1 |}
    with w2.
  change (disk w1) with (disk w).
  split.
  - intros msg ->. cbv beta iota. cbn [fst snd disk trace].
    change (disk w2) with (disk w).
    destruct (pathExists p (disk w)); repeat split.
  - intros r -> Hok. cbv beta iota. rewrite Hok. cbv beta iota.
    cbn [negb response fst snd disk trace]. rewrite Hok. cbn [negb].
    cbv beta iota. cbn [fst snd disk trace].
    change (disk w2) with (disk w).
    destruct (pathExists p (disk w)); repeat split.
Qed.

(** ** The progress of a download that returns *)

Lemma stateAfter_app tot a b st :
  stateAfter tot (a ++ b) st = stateAfter tot b (stateAfter tot a st).
Proof.
  revert st; induction a as [|[t c] a IH]; intros st; [reflexivity|].
  cbn [app stateAfter]. apply IH.
Qed.

Lemma deliveries_app tot a b st :
  deliveries tot (a ++ b) st
  = deliveries tot a st ++ deliveries tot b (stateAfter tot a st).
Proof.
  revert st; induction a as [|[t c] a IH]; intros st; [reflexivity|].
  cbn [app deliveries stateAfter].
  destruct (onProgress tot c t st) as [st' [e|]]; cbn [fst];
    rewrite IH; reflexivity.
Qed.

Lemma pump_returns_calls env tot m cm p chunks :
  forall written st w st' w',
    pump env (Some (tot, createProgressTracker m cm)) p chunks written st w
    = (Ok st', w') ->
    trace w'
    = trace w
      ++ progressEvents m cm
           (deliveries tot (chunkCalls env (clockReads w) chunks) st)
    /\ clockReads w' = (clockReads w + List.length chunks)%nat
    /\ st' = stateAfter tot (chunkCalls env (clockReads w) chunks) st.
Proof.
  induction chunks as [|chunk rest IH]; intros written st w st' w' Hrun.
  - inversion Hrun; subst. cbn [chunkCalls deliveries progressEvents map
                                 stateAfter List.length].
    rewrite app_nil_r, Nat.add_0_r. auto.
  - cbn [pump] in Hrun.
    destruct (notify_listening env tot m cm
                (Some (Z.of_nat (String.length chunk))) st w)
      as (w1 & Hn & Ht1 & Hc1 & _).
    rewrite (bind_ok _ _ _ _ _ Hn) in Hrun.
    apply bind_returns in Hrun. destruct Hrun as ([] & w2 & Hw & Hrun).
    apply fs_write_returns in Hw. destruct Hw as (d & _ & ->).
    destruct (IH _ _ _ _ _ Hrun) as (Htr & Hcl & Hst).
    cbn [withDisk trace clockReads] in Htr, Hcl, Hst.
    rewrite Hc1 in Htr, Hcl, Hst.
    cbn [chunkCalls List.length].
    set (call := (Date_now env (clockReads w),
                  Some (Z.of_nat (String.length chunk)))) in *.
    change (call :: chunkCalls env (S (clockReads w)) rest)
      with ([call] ++ chunkCalls env (S (clockReads w)) rest).
    rewrite deliveries_app, stateAfter_app.
    cbn [stateAfter]. unfold call. cbn [stateAfter].
    split; [|split; [lia|exact Hst]].
    rewrite Htr, Ht1. unfold progressEvents.
    now rewrite map_app, app_assoc.
Qed.

Lemma bytesOf_chunkCalls env clock chunks :
  bytesOf (chunkCalls env clock chunks)
  = Z.of_nat (String.length (fold_right String.append "" chunks)).
Proof.
  revert clock; induction chunks as [|chunk rest IH]; intros clock;
    [reflexivity|].
  cbn [chunkCalls fold_right]. rewrite bytesOf_cons, IH, string_length_app.
  lia.
Qed.

Lemma stateAfter_length tot calls st :
  lengthSoFar (stateAfter tot calls st) = (lengthSoFar st + bytesOf calls)%Z.
Proof.
  revert st; induction calls as [|[t c] rest IH]; intros st.
  - unfold bytesOf. simpl. lia.
  - cbn [stateAfter]. rewrite IH, bytesOf_cons.
    destruct (onProgress tot c t st) as [st' o] eqn:Hp. cbn [fst].
    rewrite (onProgress_length _ _ _ _ _ _ Hp). destruct c; lia.
Qed.

(** X11: a download that returns with progress tracked has called
    [onProgress] once per chunk and once at the end of the body, reading
    the clock each time, and its progress events are the deliveries of
    these calls; when the body is as long as the [Content-Length] says,
    the last of them is the complete one, with all bytes transferred.
    Without tracking it adds no progress event and never reads the clock. *)
Theorem X11_progress_of_a_finished_download env url p m cm w w' r :
  network env
    (addEvents (addEvents w [EvLog NewLine ""]) [EvFetch url 300000]) url
  = FetchResponds r ->
  downloadFileWithProgressTrackerAsync env url p m cm w = (Ok tt, w') ->
  let tot := numberOfHeader env (contentLength r) in
  let calls := transferCalls env (clockReads w) (chunks r) in
  if tracksProgress env r then
    filter isProgress (trace w')
    = filter isProgress (trace w)
      ++ progressEvents m cm (deliveries tot calls initialProgressState)
    /\ clockReads w' = (clockReads w + List.length (chunks r) + 1)%nat
    /\ (strictEq (Z.of_nat (String.length (bodyOf r))) tot = true ->
        finalEventComplete tot (deliveries tot calls initialProgressState))
  else
    filter isProgress (trace w') = filter isProgress (trace w)
    /\ clockReads w' = clockReads w.
Proof.
  intros Hnet Hrun tot calls.
  destruct (download_returns_steps _ _ _ _ _ _ _ Hrun)
    as (t & w2 & Hf & Hok & Hp).
  destruct (wrapFetchWithProgress_returns _ _ _ _ _ _ _ Hf)
    as (Hnet' & Hl & Htr2 & Hcl2).
  destruct t as [r' l]. cbn [response listeners] in *.
  cbn [timeout] in Hnet'. change (1000 * 60 * 5)%Z with 300000%Z in Hnet'.
  rewrite Hnet in Hnet'. injection Hnet' as Hr. subst r'.
  cbn [addEvents trace clockReads] in Htr2, Hcl2.
  rewrite filter_app in Htr2. cbn [filter isProgress] in Htr2.
  rewrite app_nil_r in Htr2.
  unfold pipeline in Hp. cbn [response listeners] in Hp.
  apply bind_returns in Hp. destruct Hp as ([] & w3 & Hopen & Hp).
  apply fs_write_returns in Hopen. destruct Hopen as (d0 & _ & ->).
  apply bind_returns in Hp. destruct Hp as (st & w4 & Hpump & Hp).
  destruct (failure r) as [msg|]; [discriminate|].
  apply bind_returns in Hp. destruct Hp as (st' & w5 & Hn & Hp).
  inversion Hp; subst w5. clear Hp.
  destruct (tracksProgress env r); subst l.
  - fold tot in Hpump, Hn.
    destruct (pump_returns_calls _ _ _ _ _ _ _ _ _ _ _ Hpump)
      as (Htr4 & Hcl4 & Hst).
    cbn [withDisk trace clockReads] in Htr4, Hcl4, Hst.
    rewrite Hcl2 in Htr4, Hcl4, Hst.
    destruct (notify_listening env tot m cm None st w4)
      as (w5 & Hn' & Htr5 & Hcl5 & _).
    rewrite Hn in Hn'. inversion Hn'; subst w5. clear Hn'.
    rewrite Hcl4 in Htr5.
    assert (deliveries tot calls initialProgressState
            = deliveries tot (chunkCalls env (clockReads w) (chunks r))
                initialProgressState
              ++ deliveries tot
                   [(Date_now env (clockReads w + List.length (chunks r)),
                     None)] st) as Hcalls.
    { unfold calls, transferCalls. now rewrite deliveries_app, <- Hst. }
    split; [|split].
    + rewrite Htr5, Htr4, Hcalls. unfold progressEvents.
      rewrite map_app, !filter_app, Htr2.
      fold (progressEvents m cm
              (deliveries tot (chunkCalls env (clockReads w) (chunks r))
                 initialProgressState)).
      fold (progressEvents m cm
              (deliveries tot
                 [(Date_now env (clockReads w + List.length (chunks r)), None)]
                 st)).
      rewrite !filter_progressEvents. now rewrite app_assoc.
    + rewrite Hcl5, Hcl4. lia.
    + intros Hsame. apply deliveries_final.
      * unfold calls, transferCalls. destruct (chunkCalls _ _ _); discriminate.
      * reflexivity.
      * unfold calls, transferCalls.
        rewrite bytesOf_app, bytesOf_chunkCalls.
        unfold bytesOf at 1. cbn [fold_right snd initialProgressState
                                   lengthSoFar].
        rewrite Z.add_0_l, Z.add_0_r. exact Hsame.
  - pose proof (keeps_pump_unlistened
                  (fun x => trace x = trace w2 /\ clockReads x = clockReads w2)
                  ltac:(intros x d Hx; exact Hx) env p (chunks r) ""
                  initialProgressState (withDisk w2 d0)
                  ltac:(split; reflexivity)) as Hk.
    rewrite Hpump in Hk. cbn [snd] in Hk. destruct Hk as [Ht4 Hc4].
    cbn [notify ret] in Hn. inversion Hn; subst w'.
    rewrite Ht4, Hc4. auto.
Qed.

(** ** Extraction of a local archive *)

Section Offline.

(** An invariant that survives everything except a request and a progress
    report. *)
Variable I : World -> Prop.
Hypothesis Hev :
  forall w e, isFetch e = false -> isProgress e = false ->
              I w -> I (addEvents w [e]).
Hypothesis Hdisk : forall w d, I w -> I (withDisk w d).

Lemma keeps_emit_offline e :
  isFetch e = false -> isProgress e = false -> keeps I (emit e).
Proof. intros Hf Hp w Hw. now apply (Hev w e). Qed.

Lemma keeps_setDisk_offline d : keeps I (setDisk d).
Proof. intros w Hw. now apply (Hdisk w d). Qed.

Lemma keeps_fs_mkdirp_offline p : keeps I (fs_mkdirp p).
Proof.
  intros w Hw. mrun. destruct (mkdirp p (disk w)) as [d|]; cbn [snd];
    [now apply (Hdisk w d)|exact Hw].
Qed.

Lemma keeps_tarExtractAsync_offline env input output :
  keeps I (tarExtractAsync env input output).
Proof.
  unfold tarExtractAsync, spawnAsync, extract. apply keeps_bind.
  - apply keeps_tryCatch.
    + destruct (negb _); [|apply keeps_ret].
      apply keeps_bind; [|intros; apply keeps_ret].
      apply keeps_bind; [now apply keeps_emit_offline|]. intros _.
      apply keeps_bind; [apply keeps_getWorld|]. intros w.
      destruct (spawnTool env w _ _) as [err d].
      apply keeps_bind; [apply keeps_setDisk_offline|]. intros _.
      destruct err; [apply keeps_throw|apply keeps_ret].
    + intros e. apply keeps_bind; [now apply keeps_emit_offline|].
      intros; apply keeps_ret.
  - intros [|]; [apply keeps_ret|].
    apply keeps_bind; [now apply keeps_emit_offline|]. intros _.
    apply keeps_bind; [now apply keeps_emit_offline|]. intros _.
    apply keeps_bind; [apply keeps_getWorld|]. intros w.
    destruct (jsTar env w input output) as [err d].
    apply keeps_bind; [apply keeps_setDisk_offline|]. intros _.
    destruct err; [apply keeps_throw|apply keeps_ret].
Qed.

Lemma keeps_getAppPathAsync_offline od exts :
  keeps I (getAppPathAsync od exts).
Proof.
  unfold getAppPathAsync. apply keeps_bind; [apply keeps_getDisk|]. intros d.
  destruct (_ =? 0)%nat; [apply keeps_throw|].
  destruct (_ =? 1)%nat; [apply keeps_ret|].
  repeat (apply keeps_bind; [now apply keeps_emit_offline|]; intros _).
  apply keeps_throw.
Qed.

End Offline.

(** The extraction throws plain errors only. *)
Lemma tarExtractAsync_throws_plain env input output w e w' :
  tarExtractAsync env input output w = (Throw e, w') ->
  isInternalError e = false.
Proof.
  unfold tarExtractAsync, spawnAsync, extract.
  destruct (String.eqb (platform env) "win32"); cbn [negb]; mrun.
  - destruct (jsTar env _ input output) as [[m'|] d']; intros H;
      inversion H; reflexivity.
  - destruct (spawnTool env _ "tar" _) as [[m|] d]; cbn [fst snd].
    + destruct (jsTar env _ input output) as [[m'|] d']; intros H;
        inversion H; reflexivity.
    + discriminate.
Qed.

(** X12: extracting a local archive is offline work: whatever the archive
    and the disk, it sends no request, reports no progress and never reads
    the clock; it draws exactly one UUID, which names its output directory
    under the temporary directory.  When it returns, the path is the one
    bundle found under that directory; an [InternalError] means that
    several were found, and lists them. *)
Theorem X12_local_archive_is_offline env archive w :
  let outputDir := path_join (tmpDir env) (uuidv4 env (uuidsDrawn w)) in
  let out := extractAppFromLocalArchiveAsync env archive w in
  filter isFetch (trace (snd out)) = filter isFetch (trace w)
  /\ filter isProgress (trace (snd out)) = filter isProgress (trace w)
  /\ clockReads (snd out) = clockReads w
  /\ uuidsDrawn (snd out) = S (uuidsDrawn w)
  /\ match fst out with
     | Ok p =>
         exists x, glob bundleExtensions outputDir (disk (snd out)) = [x]
                   /\ p = path_join outputDir x
     | Throw (InternalError code _ details) =>
         code = "MULTIPLE_APPS_IN_TARBALL"
         /\ (2 <= List.length (apps details))%nat
         /\ map name (apps details)
            = glob bundleExtensions outputDir (disk (snd out))
     | Throw (JsError _) => True
     end.
Proof.
  intros outputDir out.
  set (J := fun x : World =>
              filter isFetch (trace x) = filter isFetch (trace w)
              /\ filter isProgress (trace x) = filter isProgress (trace w)
              /\ clockReads x = clockReads w
              /\ uuidsDrawn x = S (uuidsDrawn w)).
  assert (forall x e, isFetch e = false -> isProgress e = false ->
                      J x -> J (addEvents x [e])) as Hev.
  { intros x e Hf Hp (H1 & H2 & H3 & H4). unfold J.
    cbn [addEvents trace clockReads uuidsDrawn]. rewrite !filter_app.
    cbn [filter]. rewrite Hf, Hp, !app_nil_r. auto. }
  assert (forall x d, J x -> J (withDisk x d)) as Hdisk
      by (intros x d Hx; exact Hx).
  assert (J (withCounters w (S (uuidsDrawn w)) (clockReads w))) as H1
      by (unfold J; cbn; auto).
  enough (J (snd out)
          /\ match fst out with
             | Ok p =>
                 exists x,
                   glob bundleExtensions outputDir (disk (snd out)) = [x]
                   /\ p = path_join outputDir x
             | Throw (InternalError code _ details) =>
                 code = "MULTIPLE_APPS_IN_TARBALL"
                 /\ (2 <= List.length (apps details))%nat
                 /\ map name (apps details)
                    = glob bundleExtensions outputDir (disk (snd out))
             | Throw (JsError _) => True
             end) as [(Ha & Hb & Hc & Hd) He] by (repeat split; assumption).
  subst out. unfold extractAppFromLocalArchiveAsync.
  rewrite (bind_ok _ _ _ _ _ (uuid_run env w)). cbv zeta.
  fold outputDir.
  set (w1 := withCounters w (S (uuidsDrawn w)) (clockReads w)) in *.
  pose proof (keeps_fs_mkdirp_offline J Hdisk outputDir w1 H1) as H2.
  destruct (fs_mkdirp outputDir w1) as [[[]|e2] w2] eqn:E2; cbn [snd] in H2.
  2:{ rewrite (bind_throw _ _ _ _ _ E2). cbn [fst snd]. split; [exact H2|].
      revert E2. mrun. destruct (mkdirp outputDir (disk w1)); [discriminate|].
      intros H; inversion H; exact Logic.I. }
  rewrite (bind_ok _ _ _ _ _ E2).
  pose proof (keeps_tarExtractAsync_offline J Hev Hdisk env archive outputDir
                w2 H2) as H3.
  destruct (tarExtractAsync env archive outputDir w2) as [[[]|e3] w3] eqn:E3;
    cbn [snd] in H3.
  2:{ rewrite (bind_throw _ _ _ _ _ E3). cbn [fst snd]. split; [exact H3|].
      apply tarExtractAsync_throws_plain in E3. destruct e3;
        [exact Logic.I|discriminate]. }
  rewrite (bind_ok _ _ _ _ _ E3).
  pose proof (keeps_getAppPathAsync_offline J Hev outputDir bundleExtensions
                w3 H3) as H4.
  split; [exact H4|].
  destruct (glob bundleExtensions outputDir (disk w3)) as [|a [|b l]] eqn:E.
  - rewrite (getAppPathAsync_none _ _ _ E). exact Logic.I.
  - rewrite (getAppPathAsync_one _ _ _ _ E). cbn [fst snd]. eauto.
  - destruct (getAppPathAsync_many _ _ _ _ _ _ E)
      as (details & w4 & C & Hn & _ & Hd & _).
    rewrite C. cbn [fst snd]. rewrite Hd, E, <- Hn.
    split; [reflexivity|]. split; [|reflexivity].
    rewrite <- (length_map name), Hn. cbn [List.length]. lia.
Qed.

(** ** The orchestrator and its cache *)

Lemma ambiguous_cache env url w a b rest :
  cacheName url <> ".." ->
  glob bundleExtensions (cacheDirOf env url) (disk w) = a :: b :: rest ->
  exists w',
    downloadAndMaybeExtractAppAsync env url w
    = (Throw (InternalError "MULTIPLE_APPS_IN_TARBALL"
                "Multiple apps detected in the tarball."
                {| apps := map (fun filePath =>
                                  {| name := filePath;
                                     path := path_join (cacheDirOf env url)
                                               filePath |})
                             (a :: b :: rest) |}), w')
    /\ disk w' = disk w
    /\ trace w'
       = trace w ++ [EvLog NewLine "";
                     EvLog Info "Detected multiple apps in the tarball:";
                     EvLog NewLine ""]
    /\ uuidsDrawn w' = uuidsDrawn w
    /\ clockReads w' = clockReads w.
Proof.
  intros Hname Hg.
  destruct (glob_found_in_dir _ _ _ _ _ Hg) as [cs Hdir].
  destruct (cacheDir_below_root env url Hname) as [tl Htl].
  rewrite Htl in Hdir.
  destruct (lookup_prefix_dir _ _ _ _ Hdir) as [cs' Hroot].
  rewrite <- Htl in Hdir.
  assert (_downloadsCacheDirectory env w = (Ok (cacheRoot env), w)) as Hcache.
  { rewrite cacheDirectory_run, (mkdirp_existing _ _ _ Hroot).
    now rewrite withDisk_same. }
  rewrite (orchestrator_after_cacheDirectory _ _ _ _ Hcache).
  assert (pathExists (cacheDirOf env url) (disk w) = true) as Hex
      by (unfold pathExists; now rewrite Hdir).
  assert (exists w',
            lookInCache (cacheDirOf env url) w
            = (Throw (InternalError "MULTIPLE_APPS_IN_TARBALL"
                        "Multiple apps detected in the tarball."
                        {| apps := map (fun filePath =>
                                          {| name := filePath;
                                             path := path_join
                                                       (cacheDirOf env url)
                                                       filePath |})
                                     (a :: b :: rest) |}), w')
            /\ disk w' = disk w
            /\ trace w'
               = trace w ++ [EvLog NewLine "";
                             EvLog Info "Detected multiple apps in the tarball:";
                             EvLog NewLine ""]
            /\ uuidsDrawn w' = uuidsDrawn w
            /\ clockReads w' = clockReads w) as (w' & Hlook & Hrest).
  { rewrite (lookInCache_present _ _ Hex).
    unfold getAppPathAsync. mrun. rewrite Hg.
    cbn [List.length Nat.eqb isInternalError].
    eexists. split; [reflexivity|]. cbn [disk trace uuidsDrawn clockReads].
    rewrite <- !app_assoc. cbn [app]. auto. }
  exists w'. now rewrite (bind_throw _ _ _ _ _ Hlook).
Qed.

(** X13: a cache directory that holds a bundle decides the call without
    the network, for every URL but the one whose remainder is [..].  With
    exactly one bundle the call returns its path and leaves the world as
    it was.  With several it throws the [InternalError] that lists them in
    the order found, each with its joined path, after three log lines and
    nothing else; the disk is untouched, so calling again throws the same
    error: the ambiguity never heals by itself.  The remainder [..] is
    left out: its cache directory is the temporary directory, which can
    hold a bundle while the cache root does not exist yet, and then the
    call creates the cache root before it looks. *)
Theorem X13_primed_cache_decides env url w x rest :
  let outputDir := cacheDirOf env url in
  let ambiguity :=
    InternalError "MULTIPLE_APPS_IN_TARBALL"
      "Multiple apps detected in the tarball."
      {| apps := map (fun filePath =>
                        {| name := filePath;
                           path := path_join outputDir filePath |})
                   (x :: rest) |} in
  cacheName url <> ".." ->
  glob bundleExtensions outputDir (disk w) = x :: rest ->
  match rest with
  | [] =>
      downloadAndMaybeExtractAppAsync env url w
      = (Ok (path_join outputDir x), w)
  | _ :: _ =>
      exists w',
        downloadAndMaybeExtractAppAsync env url w = (Throw ambiguity, w')
        /\ disk w' = disk w
        /\ trace w'
           = trace w ++ [EvLog NewLine "";
                         EvLog Info "Detected multiple apps in the tarball:";
                         EvLog NewLine ""]
        /\ uuidsDrawn w' = uuidsDrawn w
        /\ clockReads w' = clockReads w
        /\ fst (downloadAndMaybeExtractAppAsync env url w') = Throw ambiguity
  end.
Proof.
  intros outputDir ambiguity Hname Hg. destruct rest as [|y rest].
  - now apply cache_hit.
  - destruct (ambiguous_cache env url w x y rest Hname Hg)
      as (w' & Hrun & Hd & Ht & Hu & Hc).
    exists w'. repeat (split; [assumption|]).
    assert (glob bundleExtensions (cacheDirOf env url) (disk w')
            = x :: y :: rest) as Hg' by (now rewrite Hd).
    destruct (ambiguous_cache env url w' x y rest Hname Hg')
      as (w'' & Hrun' & _).
    now rewrite Hrun'.
Qed.

Lemma filter_isFetch_progressEvents m cm ds :
  filter isFetch (progressEvents m cm ds) = [].
Proof. induction ds as [|d ds IH]; [reflexivity|exact IH]. Qed.

Lemma wrapFetchWithProgress_fetches_once env url init h w :
  filter isFetch (trace (snd (wrapFetchWithProgress env url init h w)))
  = filter isFetch (trace w) ++ [EvFetch url (timeout init)].
Proof.
  unfold wrapFetchWithProgress, fetch. mrun.
  destruct (network env _ url) as [msg|r]; cbn [snd trace].
  - rewrite filter_app. reflexivity.
  - destruct (ok r); [destruct (falsy _ || _ || _)|];
      cbn [snd trace]; rewrite !filter_app;
      cbn [filter isFetch]; now rewrite ?app_nil_r.
Qed.

(** A download that returned has issued one request, and no other. *)
Lemma download_returns_one_fetch env url p m cm w w' :
  downloadFileWithProgressTrackerAsync env url p m cm w = (Ok tt, w') ->
  filter isFetch (trace w')
  = filter isFetch (trace w) ++ [EvFetch url 300000].
Proof.
  intros Hrun.
  destruct (download_returns_steps _ _ _ _ _ _ _ Hrun)
    as (t & w2 & Hf & _ & Hp).
  pose proof (wrapFetchWithProgress_fetches_once env url
                {| timeout := 1000 * 60 * 5 |} (createProgressTracker m cm)
                (addEvents w [EvLog NewLine ""])) as Hone.
  rewrite Hf in Hone. cbn [snd timeout addEvents trace] in Hone.
  rewrite filter_app in Hone. cbn [filter isFetch] in Hone.
  rewrite app_nil_r in Hone. change (1000 * 60 * 5)%Z with 300000%Z in Hone.
  rewrite <- Hone.
  destruct t as [r l].
  destruct (wrapFetchWithProgress_listeners _ _ _ _ _ _ _ Hf)
    as [Hl|[tot Hl]]; cbn [listeners] in Hl; subst l.
  - pose proof (keeps_pipeline_unlistened (fun x => trace x = trace w2)
                  ltac:(intros x d Hx; exact Hx) env r p w2 eq_refl) as Hk.
    rewrite Hp in Hk. cbn [snd] in Hk. now rewrite Hk.
  - destruct (pipeline_listening env r tot m cm p w2) as (calls & Ht & _).
    rewrite Hp in Ht. cbn [snd] in Ht.
    now rewrite Ht, filter_app, filter_isFetch_progressEvents, app_nil_r.
Qed.

(** A fresh download that returned has issued one request, and no
    other. *)
Lemma downloadFresh_returns_one_fetch env url od w p w1 :
  downloadFresh env url od w = (Ok p, w1) ->
  filter isFetch (trace w1)
  = filter isFetch (trace w) ++ [EvFetch url 300000].
Proof.
  unfold downloadFresh. intros H.
  apply bind_returns in H. destruct H as ([] & wa & Hmk & H).
  apply fs_mkdirp_returns in Hmk. destruct Hmk as (d1 & _ & ->).
  destruct (endsWith url "apk").
  - apply bind_returns in H. destruct H as (id & wb & Hid & H).
    rewrite uuid_run in Hid. inversion Hid; subst id wb. clear Hid.
    apply bind_returns in H. destruct H as ([] & wc & Hdl & H).
    inversion H; subst. clear H.
    exact (download_returns_one_fetch _ _ _ _ _ _ _ Hdl).
  - apply bind_returns in H. destruct H as (id & wb & Hid & H).
    rewrite uuid_run in Hid. inversion Hid; subst id wb. clear Hid.
    apply bind_returns in H. destruct H as ([] & wc & Hmk2 & H).
    apply fs_mkdirp_returns in Hmk2. destruct Hmk2 as (d2 & _ & ->).
    apply bind_returns in H. destruct H as (id' & wd & Hid & H).
    rewrite uuid_run in Hid. inversion Hid; subst id' wd. clear Hid.
    apply bind_returns in H. destruct H as ([] & we & Hdl & H).
    apply bind_returns in H. destruct H as ([] & wf & Htar & H).
    apply bind_returns in H. destruct H as (appPath & wg & Hg & H).
    inversion H; subst. clear H.
    apply getAppPathAsync_returns in Hg. destruct Hg as [-> _].
    pose proof (download_returns_one_fetch _ _ _ _ _ _ _ Hdl) as Hone.
    cbn [withCounters withDisk trace] in Hone.
    pose proof (keeps_tarExtractAsync_offline
                  (fun x => filter isFetch (trace x)
                            = filter isFetch (trace w)
                              ++ [EvFetch url 300000])
                  ltac:(intros x ev Hfe _ Hx; cbn [addEvents trace];
                        rewrite filter_app; cbn [filter]; rewrite Hfe;
                        now rewrite app_nil_r)
                  ltac:(intros x d Hx; exact Hx)
                  env (path_join
                         (path_join (tmpDir env) (uuidv4 env (uuidsDrawn w)))
                         (uuidv4 env (S (uuidsDrawn w)) ++ ".tar.gz"))
                  od we Hone) as Hk.
    now rewrite Htar in Hk.
Qed.

(** X14: whatever way the call took, a path it returns is the one bundle
    of the URL's cache directory on the disk it leaves, found by the same
    glob as the cache look-up uses; and the call either added exactly one
    request to the trace, the one for this URL with the timeout of five
    minutes, or left the trace, the UUID source and the clock as they
    were.  The random names are taken to be well-formed UUIDs. *)
Theorem X14_returned_path_is_the_cached_bundle env url w p w' :
  (forall n, isUuid (uuidv4 env n) = true) ->
  downloadAndMaybeExtractAppAsync env url w = (Ok p, w') ->
  (exists x,
      glob bundleExtensions (cacheDirOf env url) (disk w') = [x]
      /\ p = path_join (cacheDirOf env url) x)
  /\ (filter isFetch (trace w')
      = filter isFetch (trace w) ++ [EvFetch url 300000]
      \/ (trace w' = trace w
          /\ uuidsDrawn w' = uuidsDrawn w
          /\ clockReads w' = clockReads w)).
Proof.
  intros Huuid Hrun.
  unfold downloadAndMaybeExtractAppAsync in Hrun. cbv zeta in Hrun.
  apply bind_returns in Hrun. destruct Hrun as (r & w0 & Hcache & H).
  destruct (cacheDirectory_returns _ _ _ _ Hcache) as [-> (d & _ & ->)].
  apply bind_returns in H. destruct H as (hit & w0' & Hlook & H).
  apply lookInCache_returns in Hlook. destruct Hlook as [-> Hhit].
  destruct hit as [appPath|].
  - inversion H; subst. split; [exact Hhit|]. right. auto.
  - split.
    + eapply downloadFresh_returns; eauto.
    + left. exact (downloadFresh_returns_one_fetch _ _ _ _ _ _ H).
Qed.

(** ** A failed download and the cache *)

Lemma withoutName_setEntry {A : Type} (k : string) (v : A) l :
  withoutName k (setEntry k v l) = withoutName k l.
Proof.
  unfold withoutName. induction l as [|[k' v'] t IH]; cbn [setEntry filter fst].
  - now rewrite String.eqb_refl.
  - destruct (String.eqb k k') eqn:E; cbn [filter fst].
    + now rewrite String.eqb_refl.
    + rewrite E. cbn [negb]. now rewrite IH.
Qed.

Lemma withoutName_absent {A : Type} (k : string) (l : list (string * A)) :
  assoc k l = None -> withoutName k l = l.
Proof.
  unfold withoutName. induction l as [|[k' v'] t IH]; cbn [assoc filter fst];
    [reflexivity|].
  destruct (String.eqb k k'); [discriminate|]. intros H. cbn [negb].
  now rewrite IH.
Qed.

Lemma remove_in_dir (dir : fspath) (name : string) :
  forall (n : node) cs,
    lookup dir n = Some (Dir cs) ->
    lookup dir (remove (dir ++ [name]) n) = Some (Dir (withoutName name cs)).
Proof.
  induction dir as [|s dir IH]; intros n cs Hl.
  - cbn [lookup] in Hl. inversion Hl; subst. reflexivity.
  - cbn [lookup] in Hl. destruct n as [c|cs0]; [discriminate|].
    destruct (assoc s cs0) as [child|] eqn:Ea; [|discriminate].
    change ((s :: dir) ++ [name]) with (s :: (dir ++ [name])).
    specialize (IH child cs Hl).
    cbn [remove]. destruct (dir ++ [name]) as [|t tl] eqn:Ep.
    + now destruct dir.
    + cbn [lookup]. rewrite assoc_map_below, String.eqb_refl, Ea.
      cbn [option_map]. exact IH.
Qed.

Lemma lookup_child_absent (dir : fspath) (name : string) (n : node) cs :
  lookup dir n = Some (Dir cs) -> lookup (dir ++ [name]) n = None ->
  assoc name cs = None.
Proof.
  intros Hl. rewrite lookup_app, Hl. cbn [lookup].
  destruct (assoc name cs); [discriminate|reflexivity].
Qed.

(** A download into [dir] that throws leaves [dir] exactly as it found
    it, when the destination was not there before. *)
Lemma download_throws_restores_dir env url dir name m cm w e w' cs :
  lookup dir (disk w) = Some (Dir cs) ->
  assoc name cs = None ->
  downloadFileWithProgressTrackerAsync env url (dir ++ [name]) m cm w
  = (Throw e, w') ->
  lookup dir (disk w') = Some (Dir cs).
Proof.
  intros Hdir Habs.
  set (J := fun x : World =>
              exists cs', lookup dir (disk x) = Some (Dir cs')
                          /\ withoutName name cs' = cs).
  assert (passive J (dir ++ [name])) as HJ.
  { split; [|split].
    - intros x ev _ Hx. exact Hx.
    - intros x u c Hx. exact Hx.
    - intros x c d (cs' & Hl & Hwo) Hw.
      destruct (writeFile_in_dir _ _ _ _ _ _ Hw Hl) as [Hl' _].
      exists (setEntry name (File c) cs'). split; [exact Hl'|].
      now rewrite withoutName_setEntry. }
  assert (J (addEvents w [EvLog NewLine ""])) as Hstart.
  { exists cs. split; [exact Hdir|now apply withoutName_absent]. }
  pose proof (download_body_keeps J env url (dir ++ [name]) m cm HJ _ Hstart)
    as Hb.
  rewrite download_unfold. unfold tryCatch.
  match goal with
  | |- context [match ?x with _ => _ end] => destruct x as [[a|e0] w1]
  end; [discriminate|].
  cbn [snd] in Hb. destruct Hb as (cs' & Hl & Hwo).
  mrun.
  destruct (pathExists (dir ++ [name]) (disk w1)) eqn:Ex;
    intros H; injection H as _ Hw; subst w'; cbn [disk].
  - rewrite (remove_in_dir _ _ _ _ Hl). now rewrite Hwo.
  - unfold pathExists in Ex.
    destruct (lookup (dir ++ [name]) (disk w1)) eqn:El; [discriminate|].
    pose proof (lookup_child_absent _ _ _ _ Hl El) as Hno.
    rewrite (withoutName_absent _ _ Hno) in Hwo. now rewrite Hl, Hwo.
Qed.

Lemma lookInCache_without_bundle od w :
  glob bundleExtensions od (disk w) = [] -> lookInCache od w = (Ok None, w).
Proof.
  intros Hg. destruct (pathExists od (disk w)) eqn:Hex.
  - rewrite (lookInCache_present _ _ Hex), (getAppPathAsync_none _ _ _ Hg).
    reflexivity.
  - now apply lookInCache_absent.
Qed.

Lemma mkdirp_glob_nil exts (p tl : fspath) (d d' : node) :
  mkdirp p d = Some d' ->
  glob exts (p ++ tl) d = [] -> glob exts (p ++ tl) d' = [].
Proof.
  intros Hmk Hg. destruct (lookup p d) as [x|] eqn:El.
  - now destruct (mkdirp_present _ _ _ _ Hmk El) as [-> _].
  - pose proof (mkdirp_absent _ _ _ Hmk El) as Hnew.
    unfold glob. rewrite lookup_app, Hnew.
    destruct tl as [|s tl]; reflexivity.
Qed.

(** X15: a raw-package download that fails does not poison the cache.
    When the URL ends in [apk] and its cache directory holds no bundle, a
    call that throws leaves that directory without a bundle: the partial
    file is gone, so the cache look-up of the next call gives nothing
    again and the download is retried.  The random names are taken to be
    well-formed UUIDs, and the one URL remainder whose cache directory
    would be the parent of the cache root is left out. *)
Theorem X15_failed_raw_download_leaves_no_bundle env url w e w' :
  (forall n, isUuid (uuidv4 env n) = true) ->
  cacheName url <> ".." ->
  endsWith url "apk" = true ->
  glob bundleExtensions (cacheDirOf env url) (disk w) = [] ->
  downloadAndMaybeExtractAppAsync env url w = (Throw e, w') ->
  glob bundleExtensions (cacheDirOf env url) (disk w') = []
  /\ lookInCache (cacheDirOf env url) w' = (Ok None, w').
Proof.
  intros Huuid Hname Hapk Hg Hrun.
  enough (glob bundleExtensions (cacheDirOf env url) (disk w') = []) as Hg'
      by (split; [exact Hg'|now apply lookInCache_without_bundle]).
  destruct (_downloadsCacheDirectory env w) as [[r|e0] w0] eqn:Hc.
  2:{ unfold downloadAndMaybeExtractAppAsync in Hrun. cbv zeta in Hrun.
      rewrite (bind_throw _ _ _ _ _ Hc) in Hrun. inversion Hrun; subst.
      rewrite cacheDirectory_run in Hc.
      destruct (mkdirp (cacheRoot env) (disk w)); [discriminate|].
      inversion Hc; subst. exact Hg. }
  destruct (cacheDirectory_returns _ _ _ _ Hc) as [-> (d & Hmk & ->)].
  rewrite (orchestrator_after_cacheDirectory _ _ _ _ Hc) in Hrun.
  destruct (cacheDir_below_root env url Hname) as [tl Htl].
  assert (glob bundleExtensions (cacheDirOf env url) d = []) as Hg0.
  { rewrite Htl in *. eapply mkdirp_glob_nil; eauto. }
  rewrite (bind_ok _ _ _ _ _
             (lookInCache_without_bundle _ (withDisk w d) Hg0)) in Hrun.
  unfold downloadFresh in Hrun.
  destruct (fs_mkdirp (cacheDirOf env url) (withDisk w d))
    as [[[]|e1] w1] eqn:Hm.
  2:{ rewrite (bind_throw _ _ _ _ _ Hm) in Hrun. inversion Hrun; subst.
      revert Hm. mrun. destruct (mkdirp (cacheDirOf env url) _);
        [discriminate|]. intros H; inversion H; subst. exact Hg0. }
  rewrite (bind_ok _ _ _ _ _ Hm) in Hrun.
  apply fs_mkdirp_returns in Hm. destruct Hm as (d1 & Hmk1 & ->).
  cbn [withDisk disk] in Hmk1.
  destruct (cache_directory_without_match bundleExtensions _ _ _ Hmk1
              (or_intror Hg0)) as (cs & Hdir & Hempty).
  rewrite Hapk in Hrun.
  rewrite (bind_ok _ _ _ _ _ (uuid_run _ _)) in Hrun. cbv zeta in Hrun.
  destruct (uuid_apk_segment (cacheDirOf env url) _
              (Huuid (uuidsDrawn (withDisk (withDisk w d) d1))))
    as [Hpath Hmatch].
  rewrite Hpath in Hrun.
  match type of Hrun with
  | bind ?dl _ ?wb = _ => destruct (dl wb) as [[[]|e2] w2] eqn:Hdl
  end.
  { rewrite (bind_ok _ _ _ _ _ Hdl) in Hrun. discriminate. }
  rewrite (bind_throw _ _ _ _ _ Hdl) in Hrun. inversion Hrun; subst.
  destruct (matches_after_first_write bundleExtensions _ "" cs Hmatch Hempty)
    as [Habs _].
  pose proof (fun H => download_throws_restores_dir _ _ _ _ _ _ _ _ _ cs
                         H Habs Hdl) as Hback.
  specialize (Hback Hdir).
  unfold glob. now rewrite Hback, Hempty.
Qed.

(** ** What the locator returns *)

Lemma assoc_of_distinct {A : Type} (k : string) (c : A) cs :
  distinctNames (map fst cs) = true -> In (k, c) cs -> assoc k cs = Some c.
Proof.
  induction cs as [|[k' v'] t IH]; [contradiction|].
  cbn [map fst distinctNames assoc]. intros Hd [Hin|Hin].
  - inversion Hin; subst. now rewrite String.eqb_refl.
  - apply andb_true_iff in Hd. destruct Hd as [Hfresh Hd].
    destruct (String.eqb k k') eqn:E; [|now apply IH].
    apply String.eqb_eq in E. subst k'.
    apply negb_true_iff in Hfresh.
    assert (existsb (String.eqb k) (map fst t) = true) as Hex.
    { apply existsb_exists. exists k. split; [|apply String.eqb_refl].
      apply in_map_iff. now exists (k, c). }
    congruence.
Qed.

Lemma assoc_In {A : Type} (k : string) (c : A) cs :
  assoc k cs = Some c -> exists k', String.eqb k k' = true /\ In (k', c) cs.
Proof.
  induction cs as [|[k' v'] t IH]; [discriminate|]. cbn [assoc].
  destruct (String.eqb k k') eqn:E.
  - intros H; inversion H; subst. exists k'. split; [exact E|now left].
  - intros H. destruct (IH H) as (k'' & Hk & Hin). exists k''.
    split; [exact Hk|now right].
Qed.

Lemma wellFormed_lookup (p : fspath) :
  forall d n, wellFormed d = true -> lookup p d = Some n ->
              wellFormed n = true.
Proof.
  induction p as [|s p IH]; intros d n Hwf Hl.
  - inversion Hl; subst. exact Hwf.
  - cbn [lookup] in Hl. destruct d as [c|cs]; [discriminate|].
    destruct (assoc s cs) as [child|] eqn:Ea; [|discriminate].
    apply (IH child); [|exact Hl].
    destruct (assoc_In _ _ _ Ea) as (k' & _ & Hin).
    cbn [wellFormed] in Hwf. apply andb_true_iff in Hwf.
    destruct Hwf as [_ Hall]. rewrite forallb_forall in Hall.
    specialize (Hall _ Hin). cbn [fst snd] in Hall.
    now apply andb_true_iff in Hall.
Qed.

Lemma walk_inv (rel : list string) cs :
  In rel (walk (Dir cs)) ->
  exists k c,
    In (k, c) cs /\ prefix "." k = false
    /\ (rel = [k] \/ exists rel', rel = k :: rel' /\ In rel' (walk c)).
Proof.
  rewrite walk_Dir. intros Hin. apply in_flat_map in Hin.
  destruct Hin as ([k c] & Hkc & Hin). cbn [fst snd] in Hin.
  destruct (prefix "." k) eqn:Hdot; [contradiction|].
  exists k, c. split; [exact Hkc|]. split; [exact Hdot|].
  destruct Hin as [<-|Hin]; [now left|]. right.
  apply in_map_iff in Hin. destruct Hin as (rel' & <- & Hin'). eauto.
Qed.

(** On a well-formed disk every relative path the walk lists is made of
    plain, visible names and leads to an entry. *)
Lemma walk_lookup (rel : list string) :
  forall n,
    wellFormed n = true -> In rel (walk n) ->
    rel <> []
    /\ forallb plainName rel = true
    /\ forallb (fun s => negb (prefix "." s)) rel = true
    /\ exists x, lookup rel n = Some x.
Proof.
  induction rel as [|s rel IH]; intros n Hwf Hin.
  - destruct n as [c|cs]; [contradiction|].
    destruct (walk_inv _ _ Hin) as (k & c & _ & _ & [H|(r & H & _)]);
      discriminate.
  - destruct n as [c|cs]; [contradiction|].
    destruct (walk_inv _ _ Hin) as (k & c & Hkc & Hdot & Hrel).
    cbn [wellFormed] in Hwf. apply andb_true_iff in Hwf.
    destruct Hwf as [Hdist Hall].
    pose proof (assoc_of_distinct _ _ _ Hdist Hkc) as Ha.
    rewrite forallb_forall in Hall. specialize (Hall _ Hkc).
    cbn [fst snd] in Hall. apply andb_true_iff in Hall.
    destruct Hall as [Hplain Hwfc].
    split; [discriminate|].
    destruct Hrel as [Hrel|(rel' & Hrel & Hin')]; inversion Hrel; subst.
    + cbn [forallb lookup]. rewrite Hplain, Hdot, Ha. cbn. eauto.
    + destruct (IH c Hwfc Hin') as (_ & Hp & Hv & x & Hx).
      cbn [forallb lookup]. rewrite Hplain, Hdot, Ha, Hp, Hv. cbn. eauto.
Qed.

Lemma split_app_sep (a s : string) :
  allChars (fun c => negb (Ascii.eqb c "/")) a = true ->
  split "/" (a ++ "/" ++ s) = a :: split "/" s.
Proof.
  induction a as [|c a IH]; intros Ha.
  - reflexivity.
  - cbn [allChars] in Ha. apply andb_true_iff in Ha. destruct Ha as [Hc Ha].
    apply negb_true_iff in Hc.
    change ((String c a ++ "/" ++ s)%string)
      with (String c (a ++ "/" ++ s)%string).
    cbn [split]. rewrite Hc, (IH Ha). reflexivity.
Qed.

Lemma plainName_no_slash (s : string) :
  plainName s = true -> allChars (fun c => negb (Ascii.eqb c "/")) s = true.
Proof.
  unfold plainName. intros H. apply andb_true_iff in H. now destruct H.
Qed.

Lemma split_renderRel (rel : list string) :
  rel <> [] -> forallb plainName rel = true ->
  split "/" (renderRel rel) = rel.
Proof.
  unfold renderRel. induction rel as [|s rel IH]; [congruence|].
  intros _ Hall. cbn [forallb] in Hall. apply andb_true_iff in Hall.
  destruct Hall as [Hs Hall]. apply plainName_no_slash in Hs.
  destruct rel as [|t rel].
  - cbn [String.concat]. now apply split_without_separator.
  - change (String.concat "/" (s :: t :: rel))
      with (s ++ "/" ++ String.concat "/" (t :: rel))%string.
    rewrite (split_app_sep _ _ Hs), IH; [reflexivity|discriminate|exact Hall].
Qed.

Lemma fold_joinSegment_plain (rel : list string) :
  forall p, forallb plainName rel = true ->
            fold_left joinSegment rel p = p ++ rel.
Proof.
  induction rel as [|s rel IH]; intros p Hall.
  - now rewrite app_nil_r.
  - cbn [forallb] in Hall. apply andb_true_iff in Hall.
    destruct Hall as [Hs Hall]. cbn [fold_left].
    assert (joinSegment p s = p ++ [s]) as ->.
    { unfold plainName in Hs. unfold joinSegment.
      repeat (apply andb_true_iff in Hs; destruct Hs as [Hs ?]).
      repeat match goal with
             | H : negb _ = true |- _ => apply negb_true_iff in H; rewrite H
             end.
      reflexivity. }
    rewrite (IH _ Hall), <- app_assoc. reflexivity.
Qed.

Lemma last_app_nonempty {A : Type} (p rel : list A) (d : A) :
  rel <> [] -> last (p ++ rel) d = last rel d.
Proof.
  intros Hne. induction p as [|x p IH]; [reflexivity|].
  cbn [app last]. destruct (p ++ rel) eqn:E; [|exact IH].
  apply app_eq_nil in E. destruct E; congruence.
Qed.

(** X16: on a disk as a file system presents it (in every directory the
    names are distinct and plain: not empty, no dot segment, no
    separator), the path the locator returns leads to an entry that is
    there: it lies strictly below the output directory, no segment below
    the output directory starts with a dot, and its last segment ends in
    one of the extensions.  The joined path is the glob's relative path
    appended to the directory, segment by segment. *)
Theorem X16_located_path_exists outputDir exts w p w' :
  wellFormed (disk w) = true ->
  getAppPathAsync outputDir exts w = (Ok p, w') ->
  exists rel,
    rel <> []
    /\ p = outputDir ++ rel
    /\ glob exts outputDir (disk w) = [renderRel rel]
    /\ pathExists p (disk w') = true
    /\ forallb (fun s => negb (prefix "." s)) rel = true
    /\ matchesExt exts (last p "") = true.
Proof.
  intros Hwf Hrun.
  apply getAppPathAsync_returns in Hrun.
  destruct Hrun as [-> (x & Hg & ->)].
  unfold glob in Hg.
  destruct (lookup outputDir (disk w)) as [d0|] eqn:Hod; [|discriminate].
  destruct (filter _ (walk d0)) as [|rel [|rel2 more]] eqn:Hf;
    try discriminate.
  cbn [map] in Hg. inversion Hg; subst x. clear Hg.
  assert (In rel (filter (fun r => matchesExt exts (baseName r)) (walk d0)))
    as Hin by (rewrite Hf; now left).
  apply filter_In in Hin. destruct Hin as [Hin Hm].
  pose proof (wellFormed_lookup _ _ _ Hwf Hod) as Hwf0.
  destruct (walk_lookup rel d0 Hwf0 Hin) as (Hne & Hplain & Hvis & y & Hy).
  assert (path_join outputDir (renderRel rel) = outputDir ++ rel) as Hjoin.
  { unfold path_join. rewrite (split_renderRel _ Hne Hplain).
    now apply fold_joinSegment_plain. }
  exists rel. rewrite Hjoin.
  split; [exact Hne|]. split; [reflexivity|].
  split; [unfold glob; now rewrite Hod, Hf|].
  split; [unfold pathExists; now rewrite lookup_app, Hod, Hy|].
  split; [exact Hvis|].
  rewrite (last_app_nonempty _ _ _ Hne). exact Hm.
Qed.

(* ================================================================== *)
(** * The further properties at work on the concrete environment *)

Lemma X8_whole_body_witness :
  exists w',
    downloadFileWithProgressTrackerAsync Demo.env Demo.apkUrl Demo.apkPath
      "Downloading app" "Successfully downloaded app" Demo.world
    = (Ok tt, w')
    /\ lookup Demo.apkPath (disk w') = Some (File "abcdef").
Proof.
  destruct (downloadFileWithProgressTrackerAsync Demo.env Demo.apkUrl
              Demo.apkPath "Downloading app" "Successfully downloaded app"
              Demo.world) as [[[]|e] w'] eqn:E;
    [|vm_compute in E; discriminate].
  exists w'. split; [reflexivity|].
  destruct (X8_download_writes_whole_body _ _ _ _ _ _ _ E)
    as (r & Hnet & _ & _ & Hfile).
  vm_compute in Hnet. injection Hnet as <-. exact Hfile.
Defined.

Lemma X9_neighbour_untouched_witness :
  lookup Demo.apkPath
    (disk (snd (downloadFileWithProgressTrackerAsync Demo.env Demo.brokenUrl
                  ["tmp"; "out"; "new.apk"] "Downloading app"
                  "Successfully downloaded app" Demo.blockedWorld)))
  = Some (File "").
Proof.
  exact (eq_trans
           (X9_download_touches_only_its_destination Demo.env Demo.brokenUrl
              ["tmp"; "out"; "new.apk"] "Downloading app"
              "Successfully downloaded app" Demo.blockedWorld Demo.apkPath
              eq_refl)
           eq_refl).
Defined.

Lemma X10_early_failure_witness :
  (fst (downloadFileWithProgressTrackerAsync Demo.env
          "https://example.com/missing" Demo.apkPath "Downloading app"
          "Successfully downloaded app" Demo.blockedWorld)
   = Throw (JsError "getaddrinfo ENOTFOUND")
   /\ pathExists Demo.apkPath
        (disk (snd (downloadFileWithProgressTrackerAsync Demo.env
                      "https://example.com/missing" Demo.apkPath
                      "Downloading app" "Successfully downloaded app"
                      Demo.blockedWorld))) = false)
  /\ fst (downloadFileWithProgressTrackerAsync Demo404.env Demo.apkUrl
            Demo.apkPath "Downloading app" "Successfully downloaded app"
            Demo.world)
     = Throw (JsError ("Failed to download file from " ++ Demo.apkUrl)).
Proof.
  split.
  - destruct (proj1 (X10_download_fails_before_the_body Demo.env
                       "https://example.com/missing" Demo.apkPath
                       "Downloading app" "Successfully downloaded app"
                       Demo.blockedWorld)
                "getaddrinfo ENOTFOUND" eq_refl) as (He & _ & Hd).
    split; [exact He|]. rewrite Hd. reflexivity.
  - exact (proj1 (proj2 (X10_download_fails_before_the_body Demo404.env
                           Demo.apkUrl Demo.apkPath "Downloading app"
                           "Successfully downloaded app" Demo.world)
                    _ eq_refl eq_refl)).
Defined.

Lemma X11_finished_download_witness :
  exists w',
    downloadFileWithProgressTrackerAsync Demo.env Demo.apkUrl Demo.apkPath
      "Downloading app" "Successfully downloaded app" Demo.world
    = (Ok tt, w')
    /\ clockReads w' = 3%nat
    /\ finalEventComplete (Demo.number "6")
         (deliveries (Demo.number "6")
            (transferCalls Demo.env 0 ["abc"; "def"]) initialProgressState).
Proof.
  destruct (downloadFileWithProgressTrackerAsync Demo.env Demo.apkUrl
              Demo.apkPath "Downloading app" "Successfully downloaded app"
              Demo.world) as [[[]|e] w'] eqn:E;
    [|vm_compute in E; discriminate].
  exists w'. split; [reflexivity|].
  pose proof (X11_progress_of_a_finished_download Demo.env Demo.apkUrl
                Demo.apkPath "Downloading app" "Successfully downloaded app"
                Demo.world w'
                {| ok := true; contentLength := Some "6";
                   chunks := ["abc"; "def"]; failure := None |}
                eq_refl E) as H.
  cbv zeta in H.
  change (tracksProgress Demo.env
            {| ok := true; contentLength := Some "6";
               chunks := ["abc"; "def"]; failure := None |})
    with true in H.
  destruct H as (_ & Hclock & Hfinal).
  split; [exact Hclock|exact (Hfinal eq_refl)].
Defined.

Lemma X13_ambiguous_cache_witness :
  exists e w',
    downloadAndMaybeExtractAppAsync Demo.env Demo.archiveUrl
      Demo.ambiguousWorld = (Throw e, w')
    /\ isInternalError e = true
    /\ disk w' = disk Demo.ambiguousWorld
    /\ fst (downloadAndMaybeExtractAppAsync Demo.env Demo.archiveUrl w')
       = Throw e.
Proof.
  assert (cacheName Demo.archiveUrl <> "..") as Hname
      by (vm_compute; discriminate).
  assert (glob bundleExtensions (cacheDirOf Demo.env Demo.archiveUrl)
            (disk Demo.ambiguousWorld) = ["A.app"; "B.app"]) as Hg
      by (vm_compute; reflexivity).
  destruct (X13_primed_cache_decides Demo.env Demo.archiveUrl
              Demo.ambiguousWorld "A.app" ["B.app"] Hname Hg)
    as (w' & Hrun & Hd & _ & _ & _ & Hagain).
  eexists. exists w'.
  split; [exact Hrun|]. split; [reflexivity|]. split; [exact Hd|exact Hagain].
Defined.

Lemma X14_returned_bundle_witness :
  exists p w' x,
    downloadAndMaybeExtractAppAsync Demo.env Demo.archiveUrl Demo.world
    = (Ok p, w')
    /\ glob bundleExtensions (cacheDirOf Demo.env Demo.archiveUrl) (disk w')
       = [x]
    /\ p = path_join (cacheDirOf Demo.env Demo.archiveUrl) x.
Proof.
  destruct (downloadAndMaybeExtractAppAsync Demo.env Demo.archiveUrl
              Demo.world) as [[p|e] w'] eqn:E;
    [|vm_compute in E; discriminate].
  destruct (X14_returned_path_is_the_cached_bundle Demo.env Demo.archiveUrl
              Demo.world p w' Demo_uuids_wellformed E)
    as [(x & Hg & Hp) _].
  exists p, w', x. split; [reflexivity|]. split; [exact Hg|exact Hp].
Defined.

Lemma X15_failed_download_witness :
  exists e w',
    downloadAndMaybeExtractAppAsync Demo.env Demo.brokenUrl Demo.world
    = (Throw e, w')
    /\ glob bundleExtensions (cacheDirOf Demo.env Demo.brokenUrl) (disk w')
       = [].
Proof.
  assert (cacheName Demo.brokenUrl <> "..") as Hname
      by (vm_compute; discriminate).
  assert (endsWith Demo.brokenUrl "apk" = true) as Hapk
      by (vm_compute; reflexivity).
  assert (glob bundleExtensions (cacheDirOf Demo.env Demo.brokenUrl)
            (disk Demo.world) = []) as Hg
      by (vm_compute; reflexivity).
  destruct (downloadAndMaybeExtractAppAsync Demo.env Demo.brokenUrl
              Demo.world) as [[p|e] w'] eqn:E;
    [vm_compute in E; discriminate|].
  exists e, w'. split; [reflexivity|].
  exact (proj1 (X15_failed_raw_download_leaves_no_bundle Demo.env
                  Demo.brokenUrl Demo.world e w' Demo_uuids_wellformed
                  Hname Hapk Hg E)).
Defined.

Lemma X16_located_bundle_witness :
  exists p w',
    getAppPathAsync Demo.outDir bundleExtensions
      (snd (tarExtractAsync Demo.env Demo.archivePath Demo.outDir Demo.world))
    = (Ok p, w')
    /\ p = Demo.outDir ++ ["payload"; "MyApp.app"]
    /\ pathExists p (disk w') = true.
Proof.
  assert (wellFormed
            (disk (snd (tarExtractAsync Demo.env Demo.archivePath Demo.outDir
                          Demo.world))) = true) as Hwf
      by (vm_compute; reflexivity).
  destruct (getAppPathAsync Demo.outDir bundleExtensions
              (snd (tarExtractAsync Demo.env Demo.archivePath Demo.outDir
                      Demo.world))) as [[p|e] w'] eqn:E;
    [|vm_compute in E; discriminate].
  destruct (X16_located_path_exists _ _ _ _ _ Hwf E)
    as (rel & _ & _ & _ & Hex & _).
  exists p, w'. split; [reflexivity|]. split; [|exact Hex].
  vm_compute in E. injection E as <- _. reflexivity.
Defined.
